(** * ExpenseSplitter: a shallow embedding of [expense_splitter.js]

    The development follows the Apps Script source function by function:
    string helpers, [parseFloat], the plain objects and Maps the script
    mutates, [getParticipants], [processExpenses],
    [assignMembersToSubgroups], [calculateGroupBalances], the two
    settlement minimizers and the top-level
    [calculateExpensesWithSubgroups].

    Conventions of the model.
    - The ledger ([balances], [perItemSplits]) and the run are kept in
      exact arithmetic: amounts and shares are rationals ([Q]), the
      arithmetic in which the specification states its conservation law.
      [NaN] and the two infinities, which [parseFloat] can return, are
      kept apart in the type [number]; a decimal beyond the range of the
      doubles reads as [Infinity] or as 0.
    - The settlement minimizers are given twice.  [Settle] is the loop in
      exact arithmetic.  [Double] is the loop on the binary64 numbers the
      script computes with: its subtractions, its comparisons with 0.01
      and [toFixed(2)] are those of IEEE 754.  The results about [Settle]
      say so; they do not carry over to doubles.
    - Strings are strings of 8-bit characters; [trim], [toLowerCase] and
      [toUpperCase] are those of JavaScript on ASCII text
      ([Str.isASCII]).
    - A plain object ([Obj]) lists its own properties in the order of
      [for ... in]: array indexes first, ascending, then the other names
      as created.  An assignment to [__proto__] stores nothing.  Where
      the script reads a property without [hasOwnProperty] and the name is
      one that [Object.prototype] defines, the run leaves the model.  A
      [Map] is an association list in insertion order with unique keys, a
      [Set] a list in insertion order.
    - A cell of a sheet holds text or a number; a column that was not
      found (index -1) reads as [undefined].
    - A run either completes ([Done]), throws ([Thrown]) or leaves what
      the model covers ([Unmodelled]: an infinite amount, a numeric item
      label, whose property name would need number printing, or an
      inherited property read as a share). *)

From Stdlib Require Import List String Ascii ZArith QArith Qround Qabs Qminmax Floats
  Lia Lqa Bool Permutation Sorted Arith.
Import ListNotations.

Local Open Scope string_scope.
Local Open Scope Z_scope.
Local Open Scope Q_scope.

(** ** Outcomes of a run *)

Inductive outcome (A : Type) : Type :=
| Done (a : A)
| Thrown (message : string)
| Unmodelled.

Arguments Done {A} a.
Arguments Thrown {A} message.
Arguments Unmodelled {A}.

Definition bind {A B : Type} (c : outcome A) (k : A -> outcome B) : outcome B :=
  match c with
  | Done a => k a
  | Thrown m => Thrown m
  | Unmodelled => Unmodelled
  end.

Notation "x <- c ;; k" := (bind c (fun x => k))
  (at level 61, c at next level, right associativity).

Definition TypeError : string := "TypeError".

(** ** Strings *)

Module Str.

Definition code (c : ascii) : Z := Z.of_N (N_of_ascii c).

(** ASCII white space and line terminators removed by [trim]. *)
Definition is_space (c : ascii) : bool :=
  ((9 <=? code c) && (code c <=? 13) || (code c =? 32))%Z.

Definition lower (c : ascii) : ascii :=
  if ((65 <=? code c) && (code c <=? 90))%Z
  then ascii_of_N (N_of_ascii c + 32) else c.

Definition upper (c : ascii) : ascii :=
  if ((97 <=? code c) && (code c <=? 122))%Z
  then ascii_of_N (N_of_ascii c - 32) else c.

Fixpoint trimStart (s : string) : string :=
  match s with
  | String c s' => if is_space c then trimStart s' else s
  | EmptyString => EmptyString
  end.

Fixpoint trimEnd (s : string) : string :=
  match s with
  | String c s' =>
      let r := trimEnd s' in
      if is_space c && (r =? "")%string then "" else String c r
  | EmptyString => EmptyString
  end.

Definition trim (s : string) : string := trimEnd (trimStart s).

Fixpoint toLowerCase (s : string) : string :=
  match s with
  | String c s' => String (lower c) (toLowerCase s')
  | EmptyString => EmptyString
  end.

(** [s.split(sep)] for a one-character separator: never empty. *)
Fixpoint split (sep : ascii) (s : string) : list string :=
  match s with
  | EmptyString => [""]
  | String c s' =>
      if Ascii.eqb c sep then "" :: split sep s'
      else match split sep s' with
           | h :: t => String c h :: t
           | [] => [String c ""]
           end
  end.

(** [l.join(sep)]. *)
Fixpoint join (sep : string) (l : list string) : string :=
  match l with
  | [] => ""
  | [x] => x
  | x :: l' => x ++ sep ++ join sep l'
  end.

(** [Boolean(s)] for a string. *)
Definition nonempty (s : string) : bool := negb (s =? "")%string.

(** [n => n.trim().toLowerCase()]. *)
Definition normalize (s : string) : string := toLowerCase (trim s).

(** [str.charAt(0).toUpperCase() + str.slice(1)]. *)
Definition capitalize (str : string) : string :=
  match str with
  | String c s' => String (upper c) s'
  | EmptyString => EmptyString
  end.

(** [groupKey.split(",").map(name => capitalize(name)).join(", ")]. *)
Definition formatGroup (groupKey : string) : string :=
  join ", " (map capitalize (split "," groupKey)).

(** [indexOf]: position of the first occurrence, or -1. *)
Fixpoint indexOf_from (i : Z) (x : string) (l : list string) : Z :=
  match l with
  | [] => (-1)%Z
  | y :: l' => if (y =? x)%string then i else indexOf_from (i + 1)%Z x l'
  end.

Definition indexOf (l : list string) (x : string) : Z := indexOf_from 0%Z x l.

(** Default [Array.prototype.sort] on strings: stable insertion by code
    unit order. *)
Fixpoint insert_sorted (x : string) (l : list string) : list string :=
  match l with
  | [] => [x]
  | y :: l' => if String.ltb y x || (y =? x)%string
               then y :: insert_sorted x l' else x :: l
  end.

Definition sort (l : list string) : list string :=
  fold_left (fun acc x => insert_sorted x acc) l [].

(** The strings on which this module is the script's: every code unit
    below 128.  [trim], [toLowerCase] and [toUpperCase] of the script
    follow Unicode beyond. *)
Definition isASCII (s : string) : Prop :=
  Forall (fun c => (code c < 128)%Z) (list_ascii_of_string s).

End Str.

(** ** Numbers *)

Inductive number : Type :=
| NaN
| Num (q : Q)
| Infinity (negative : bool).

Definition isNaN (n : number) : bool :=
  match n with NaN => true | _ => false end.

Definition Qltb (x y : Q) : bool := negb (Qle_bool y x).

Module Parse.

Definition digit_of (c : ascii) : option Z :=
  let n := Str.code c in
  if ((48 <=? n) && (n <=? 57))%Z then Some (n - 48)%Z else None.

(** Longest run of decimal digits: its value, its length, the rest. *)
Fixpoint read_digits (s : string) (acc : Z) (count : nat) : Z * nat * string :=
  match s with
  | String c s' =>
      match digit_of c with
      | Some d => read_digits s' (10 * acc + d)%Z (S count)
      | None => (acc, count, s)
      end
  | EmptyString => (acc, count, s)
  end.

Definition read_sign (s : string) : bool * string :=
  match s with
  | String "-" r => (true, r)
  | String "+" r => (false, r)
  | _ => (false, s)
  end.

(** [ExponentPart]: taken only when at least one digit follows. *)
Definition read_exponent (s : string) : Z :=
  match s with
  | String c r =>
      if (Ascii.eqb c "e" || Ascii.eqb c "E")%bool then
        let '(neg, r1) := read_sign r in
        let '(e, n, _) := read_digits r1 0%Z 0%nat in
        if (n =? 0)%nat then 0%Z else if neg then (- e)%Z else e
      else 0%Z
  | EmptyString => 0%Z
  end.

Definition pow10 (e : Z) : Q := Qpower (10 # 1) e.

(** The range of the doubles: a decimal of [2^1024 - 2^970] or more
    (half a unit in the last place above the largest double) reads as
    [Infinity], one of [2^-1075] or less (half the smallest double) as 0. *)
Definition overflows (magnitude : Q) : bool :=
  Qle_bool (inject_Z (2 ^ 1024 - 2 ^ 970)) magnitude.

Definition underflows (magnitude : Q) : bool :=
  Qle_bool magnitude (1 # 2 ^ 1075).

(** [parseFloat] on a string: leading white space, sign, then
    [Infinity] or the longest decimal literal.  Within the range of the
    doubles the number is the decimal itself. *)
Definition parseFloat_string (s : string) : number :=
  let '(neg, s1) := read_sign (Str.trimStart s) in
  if String.prefix "Infinity" s1 then Infinity neg
  else
    let '(ip, ni, s2) := read_digits s1 0%Z 0%nat in
    let '(fp, nf, s3) :=
      match s2 with
      | String "." r => read_digits r 0%Z 0%nat
      | _ => (0%Z, 0%nat, s2)
      end in
    if (ni + nf =? 0)%nat then NaN
    else
      let mantissa := inject_Z (ip * 10 ^ Z.of_nat nf + fp) / pow10 (Z.of_nat nf) in
      let magnitude := mantissa * pow10 (read_exponent s3) in
      if overflows magnitude then Infinity neg
      else if underflows magnitude then Num 0
      else Num (if neg then - magnitude else magnitude).

End Parse.

(** ** Cells *)

Inductive value : Type :=
| undefined
| Str (s : string)
| Number (q : Q).

(** [Boolean(v)]. *)
Definition truthy (v : value) : bool :=
  match v with
  | undefined => false
  | Str s => Str.nonempty s
  | Number q => negb (Qeq_bool q 0)
  end.

(** [parseFloat(v)]: the argument is first converted to a string. *)
Definition parseFloat (v : value) : number :=
  match v with
  | undefined => NaN
  | Str s => Parse.parseFloat_string s
  | Number q => Num q
  end.

(** [row[col]]: out of range and negative indexes give [undefined]. *)
Definition cell (row : list value) (col : Z) : value :=
  if (col <? 0)%Z then undefined else nth (Z.to_nat col) row undefined.

(** ** Objects, Maps and Sets in insertion order *)

Module Table.
Section Table.
Context {V : Type}.

Definition t : Type := list (string * V).

Fixpoint get (k : string) (m : t) : option V :=
  match m with
  | [] => None
  | (k', v) :: m' => if (k' =? k)%string then Some v else get k m'
  end.

(** [hasOwnProperty], [Map.prototype.has]. *)
Definition has (k : string) (m : t) : bool :=
  match get k m with Some _ => true | None => false end.

(** [m[k] = v], [m.set(k, v)]: an existing key keeps its place. *)
Fixpoint set (k : string) (v : V) (m : t) : t :=
  match m with
  | [] => [(k, v)]
  | (k', v') :: m' =>
      if (k' =? k)%string then (k, v) :: m' else (k', v') :: set k v m'
  end.

Definition keys (m : t) : list string := map fst m.
Definition values (m : t) : list V := map snd m.
End Table.
Arguments t V : clear implicits.
End Table.

(** ** Plain objects

    [balances], [perItemSplits] and the split entries of one item are
    plain objects.  Their own properties are listed as [Object.keys] and
    [for ... in] enumerate them: the names that are array indexes first,
    in ascending numeric order, then the other names in the order of
    their creation.  Every plain object also inherits the properties of
    [Object.prototype]. *)

Module Obj.

(** The property names of [Object.prototype]. *)
Definition inherited : list string :=
  ["constructor"; "__defineGetter__"; "__defineSetter__"; "hasOwnProperty";
   "__lookupGetter__"; "__lookupSetter__"; "isPrototypeOf";
   "propertyIsEnumerable"; "toString"; "valueOf"; "__proto__"; "toLocaleString"].

(** [k in {}]. *)
Definition inherits (k : string) : bool := existsb (String.eqb k) inherited.

(** The accessor property of [Object.prototype]: its setter ignores a
    value that is not an object, so an assignment of a number or a string
    to [o.__proto__] stores nothing. *)
Definition proto : string := "__proto__".

(** An array index: the canonical decimal numeral of an integer between
    [0] and [2^32 - 2]. *)
Definition arrayIndex (k : string) : option Z :=
  match k with
  | EmptyString => None
  | String c rest =>
      let '(n, _, tail) := Parse.read_digits k 0%Z 0%nat in
      if ((tail =? "")%string
          && (negb (Ascii.eqb c "0") || (rest =? "")%string)
          && (n <=? 4294967294)%Z)%bool
      then Some n else None
  end.

(** The own properties are listed and looked up like the entries of a
    Map: [get] is the value stored, [has] is [o.hasOwnProperty(k)]. *)
Abbreviation t := Table.t (only parsing).
Abbreviation get := Table.get (only parsing).
Abbreviation has := Table.has (only parsing).
Abbreviation keys := Table.keys (only parsing).
Abbreviation values := Table.values (only parsing).

Section Obj.
Context {V : Type}.

(** A new property named by the array index [n] goes before the first
    property that is not a smaller array index. *)
Fixpoint place (n : Z) (k : string) (v : V) (o : t V) : t V :=
  match o with
  | [] => [(k, v)]
  | (k', v') :: o' =>
      match arrayIndex k' with
      | Some n' => if (n' <? n)%Z then (k', v') :: place n k v o' else (k, v) :: o
      | None => (k, v) :: o
      end
  end.

(** [o[k] = v]: nothing for [__proto__]; an own property keeps its
    place; a new one is enumerated among the array indexes or last. *)
Definition set (k : string) (v : V) (o : t V) : t V :=
  if (k =? proto)%string then o
  else match arrayIndex k with
       | Some n => if has k o then Table.set k v o else place n k v o
       | None => Table.set k v o
       end.
End Obj.
End Obj.

(** The own entry [m[k]] of a table of numbers, 0 when there is none. *)
Definition getOr0 (k : string) (m : Table.t Q) : Q :=
  match Table.get k m with Some v => v | None => 0 end.

(** [set.add(x)] and [new Set(array)]. *)
Definition Set_add (x : string) (s : list string) : list string :=
  if existsb (String.eqb x) s then s else s ++ [x].

Definition Set_of (l : list string) : list string :=
  fold_left (fun s x => Set_add x s) l [].

Definition Set_has (x : string) (s : list string) : bool :=
  existsb (String.eqb x) s.

Definition Qsum (l : list Q) : Q := fold_right Qplus 0 l.

(** ** getParticipants *)

Record participant : Type := { name : string; weight : Q }.

(** [weight = parseFloat(weight); if (isNaN(weight) || weight <= 0) weight = 1]. *)
Definition entryWeight (w : option string) : outcome Q :=
  match (match w with Some s => Parse.parseFloat_string s | None => NaN end) with
  | NaN => Done 1
  | Num q => Done (if Qle_bool q 0 then 1 else q)
  | Infinity true => Done 1
  | Infinity false => Unmodelled
  end.

(** [let [name, weight] = entry.split(":").map(s => s.trim())]. *)
Definition parseEntry (entry : string) : outcome participant :=
  let parts := map Str.trim (Str.split ":" entry) in
  w <- entryWeight (nth_error parts 1) ;;
  Done {| name := nth 0 parts ""; weight := w |}.

Fixpoint mapM {A B : Type} (f : A -> outcome B) (l : list A) : outcome (list B) :=
  match l with
  | [] => Done []
  | x :: l' => y <- f x ;; ys <- mapM f l' ;; Done (y :: ys)
  end.

(** Remove duplicates by name, keeping the first weight found. *)
Fixpoint unique_from (seen : list string) (ps : list participant) : list participant :=
  match ps with
  | [] => []
  | p :: ps' =>
      if Set_has (name p) seen then unique_from seen ps'
      else p :: unique_from (Set_add (name p) seen) ps'
  end.

Definition splitEntries (s : string) : list string :=
  filter Str.nonempty (map Str.normalize (Str.split "," s)).

Definition getParticipants (splitBetweenRaw : value) (allMembers : list string)
  : outcome (list participant) :=
  match splitBetweenRaw with
  | Str s =>
      if Str.nonempty s && (Str.trim s =? "*")%string
      then Done (map (fun m => {| name := m; weight := 1 |}) allMembers)
      else
        participants <- mapM parseEntry (splitEntries s) ;;
        Done (unique_from [] participants)
  | undefined => Thrown TypeError
  | Number _ => Thrown TypeError
  end.

(** ** processExpenses *)

Record columns : Type := {
  expensesStartCol : Z;
  paidByColIndex : Z;
  amountColIndex : Z;
  splitBetweenColIndex : Z
}.

Definition getColumnIndexesExpenses (headers : list string) : columns :=
  {| expensesStartCol := Str.indexOf headers "item";
     paidByColIndex := Str.indexOf headers "paid by";
     amountColIndex := Str.indexOf headers "amount";
     splitBetweenColIndex := Str.indexOf headers "split between" |}.

Record ledger : Type := {
  balances : Obj.t Q;
  perItemSplits : Obj.t (Obj.t Q)
}.

(** [if (!balances.hasOwnProperty(name)) balances[name] = 0;
     balances[name] += delta].
    After the first assignment only [__proto__] is still not an own
    property: what is read then is [Object.prototype], the sum is not a
    number, and the second assignment stores nothing either. *)
Definition credit (who : string) (delta : Q) (balances : Obj.t Q) : Obj.t Q :=
  let balances := if Obj.has who balances then balances
                  else Obj.set who 0 balances in
  match Obj.get who balances with
  | Some balance => Obj.set who (balance + delta) balances
  | None => balances
  end.

(** [perItemSplits[item][name] = (perItemSplits[item][name] || 0) + delta]
    where [item] is an own property of [perItemSplits] and the name is
    not [constructor] (see [processRow]).  For [__proto__] the value read
    is [Object.prototype], and the assignment stores nothing. *)
Definition creditItem (item who : string) (delta : Q)
    (perItemSplits : Obj.t (Obj.t Q)) : Obj.t (Obj.t Q) :=
  let shares := match Obj.get item perItemSplits with
                | Some shares => shares | None => [] end in
  Obj.set item (Obj.set who (getOr0 who shares + delta) shares) perItemSplits.

(** [participants.forEach(({ name, weight }) => ...)]: one participant. *)
Definition debit (item : string) (amount totalWeight : Q)
    (acc : ledger) (p : participant) : ledger :=
  let share := amount * (weight p / totalWeight) in
  {| balances := credit (name p) (- share) (balances acc);
     perItemSplits := creditItem item (name p) (- share) (perItemSplits acc) |}.

(** The body of the loop once the row has passed its guards, for an
    [item] that [Object.prototype] does not define:
    [if (!perItemSplits[item]) perItemSplits[item] = {}] then tests an own
    property. *)
Definition allocate (item paidBy : string) (amount : Q)
    (participants : list participant) (l : ledger) : ledger :=
  let totalWeight := fold_left (fun sum p => sum + weight p) participants 0 in
  let splits := if Obj.has item (perItemSplits l) then perItemSplits l
                else Obj.set item [] (perItemSplits l) in
  let l1 := fold_left (debit item amount totalWeight) participants
              {| balances := balances l; perItemSplits := splits |} in
  {| balances := credit paidBy amount (balances l1);
     perItemSplits := creditItem item paidBy amount (perItemSplits l1) |}.

(** The rows that the model does not follow into the allocation.  An
    item label that [Object.prototype] defines ([toString], [__proto__],
    ...) makes [perItemSplits[item]] truthy from the start: no item row is
    created and the shares are written into the inherited function or
    prototype, which every object shares.  A name that
    [Object.prototype] defines, other than [__proto__] (for a payer or a
    split entry, which are in lower case, this is [constructor]), reads as
    the inherited function in [perItemSplits[item][name] || 0], so the
    entry stored is [NaN] or a string.  A balance named [hasOwnProperty]
    hides the method the loop calls. *)
Definition beyondModel (item paidBy : string) (participants : list participant)
    (balances : Obj.t Q) : bool :=
  Obj.inherits item
  || existsb (fun k => Obj.inherits k && negb (k =? Obj.proto)%string)
             (paidBy :: map name participants)
  || Obj.has "hasOwnProperty" balances.

(** One iteration of the loop of [processExpenses]. *)
Definition processRow (c : columns) (allMembers : list string)
    (l : ledger) (row : list value) : outcome ledger :=
  let item := cell row (expensesStartCol c) in
  let paidByRaw := cell row (paidByColIndex c) in
  let amount := parseFloat (cell row (amountColIndex c)) in
  let splitBetweenRaw := cell row (splitBetweenColIndex c) in
  if negb (truthy item) || negb (truthy paidByRaw) || isNaN amount then Done l
  else
    paidBy <- match paidByRaw with
              | Str s => Done (Str.normalize s)
              | _ => Thrown TypeError
              end ;;
    participants <- getParticipants splitBetweenRaw allMembers ;;
    if (List.length participants =? 0)%nat then Done l
    else
      amount <- match amount with Num q => Done q | _ => Unmodelled end ;;
      item <- match item with Str s => Done s | _ => Unmodelled end ;;
      if beyondModel item paidBy participants (balances l) then Unmodelled
      else Done (allocate item paidBy amount participants l).

Fixpoint processRows (c : columns) (allMembers : list string)
    (rows : list (list value)) (l : ledger) : outcome ledger :=
  match rows with
  | [] => Done l
  | row :: rows' =>
      l' <- processRow c allMembers l row ;;
      processRows c allMembers rows' l'
  end.

(** [for (let i = 1; i < data.length; i++)]: row 0 is the header. *)
Definition processExpenses (data : list (list value)) (c : columns)
    (allMembers : list string) (l : ledger) : outcome ledger :=
  processRows c allMembers (tl data) l.

(** [allMembers.forEach(name => balances[name] = 0)] on a fresh object. *)
Definition initialBalances (allMembers : list string) : Obj.t Q :=
  fold_left (fun b name => Obj.set name 0 b) allMembers [].

Definition initialLedger (allMembers : list string) : ledger :=
  {| balances := initialBalances allMembers; perItemSplits := [] |}.

(** The own split entry of [k] for one item, 0 when there is none. *)
Definition itemShare (item k : string) (s : Obj.t (Obj.t Q)) : Q :=
  match Table.get item s with Some shares => getOr0 k shares | None => 0 end.

(** Sum of the weights, [participants.reduce((sum, p) => sum + p.weight, 0)]
    read from the right. *)
Definition Wsum (ps : list participant) : Q := Qsum (map weight ps).

(** What the entries named [k] owe on one expense. *)
Definition owed (amount totalWeight : Q) (k : string) (ps : list participant) : Q :=
  Qsum (map (fun p => amount * (weight p / totalWeight))
            (filter (fun p => (name p =? k)%string) ps)).

(** A row that passes every guard of the loop and stays within the
    model: text item and payer, a finite amount, a non-empty participant
    list, an item label and names that [Object.prototype] leaves alone. *)
Record resolved (c : columns) (allMembers : list string) (row : list value)
    (item paidBy : string) (amount : Q) (ps : list participant) : Prop := {
  res_item : cell row (expensesStartCol c) = Str item /\ item <> "";
  res_paidBy : exists raw, cell row (paidByColIndex c) = Str raw /\ raw <> ""
                           /\ paidBy = Str.normalize raw;
  res_amount : parseFloat (cell row (amountColIndex c)) = Num amount;
  res_split : getParticipants (cell row (splitBetweenColIndex c)) allMembers = Done ps;
  res_nonempty : ps <> [];
  res_modelled : beyondModel item paidBy ps [] = false
}.


(** The payer and the participants of a row whose cells resolve. *)
Definition namesOf (c : columns) (allMembers : list string) (row : list value)
  : list string :=
  match cell row (paidByColIndex c),
        getParticipants (cell row (splitBetweenColIndex c)) allMembers with
  | Str raw, Done ps => Str.normalize raw :: map name ps
  | _, _ => []
  end.

(** A batch in which nobody is called [__proto__]. *)
Definition protoFree (c : columns) (allMembers : list string)
    (rows : list (list value)) : Prop :=
  Forall (fun row => ~ In Obj.proto (namesOf c allMembers row)) rows.

(** A batch in which no name is an array index. *)
Definition indexFree (c : columns) (allMembers : list string)
    (rows : list (list value)) : Prop :=
  Forall (fun row => Forall (fun k => Obj.arrayIndex k = None)
                            (namesOf c allMembers row)) rows.

(** The share of a member in one expense as the specification words it:
    [amount * weight / totalWeight] for a participant, nothing for anybody
    else. *)
Definition shareOf (amount : Q) (ps : list participant) (k : string) : Q :=
  match find (fun p => (name p =? k)%string) ps with
  | Some p => amount * weight p / Wsum ps
  | None => 0
  end.

(** The full amount for the payer, nothing for anybody else. *)
Definition refundOf (amount : Q) (paidBy k : string) : Q :=
  if (k =? paidBy)%string then amount else 0.

(** ** Settlement in exact arithmetic

    The minimizers as they run on the exact ledger: rounding, subtraction
    and the tests against 0.01 are those of the rationals.  [Double],
    further down, is the same code on doubles; the two part where a
    double falls on the other side of 0.01 or of a tie. *)

(** [parseFloat(x.toFixed(2))] of an exact amount: the nearest multiple of
    0.01, a tie going away from zero. *)
Definition toFixed2 (x : Q) : Q :=
  let n := Qfloor (Qabs x * 100 + (1 # 2)) in
  if Qltb x 0 then (- n # 100) else (n # 100).

(** [Math.min]. *)
Definition Math_min (x y : Q) : Q := if Qle_bool x y then x else y.

(** A whole number of hundredths. *)
Definition cents (q : Q) : Prop := exists z : Z, q == z # 100.

Module Settle.

(** [{ name, amount }] and [{ groupKey, amount }]. *)
Record party : Type := { name : string; amount : Q }.

(** [[from, to, amount.toFixed(2)]], the amount kept as a number. *)
Definition transaction : Type := string * string * Q.

Definition creditorsOf (entries : Table.t Q) : list party :=
  flat_map (fun e : string * Q =>
              let val := toFixed2 (snd e) in
              if Qltb (1 # 100) val then [{| name := fst e; amount := val |}]
              else []) entries.

Definition debtorsOf (entries : Table.t Q) : list party :=
  flat_map (fun e : string * Q =>
              let val := toFixed2 (snd e) in
              if Qltb (1 # 100) val then []
              else if Qltb val (- (1 # 100))
                   then [{| name := fst e; amount := - val |}]
                   else []) entries.

(** [list.sort((a, b) => b.amount - a.amount)]: descending and stable. *)
Fixpoint insert (p : party) (l : list party) : list party :=
  match l with
  | [] => [p]
  | q :: l' => if Qltb (amount p) (amount q) then q :: insert p l' else p :: l
  end.

Definition sortDesc (l : list party) : list party := fold_right insert [] l.

Record state : Type := {
  creditors : list party;
  debtors : list party;
  transactions : list transaction
}.

Definition nonempty {A} (l : list A) : bool :=
  match l with [] => false | _ => true end.

Section Minimizer.
(** How a key is displayed: [capitalize] for members, [formatGroup]
    for subgroups. *)
Variable fmt : string -> string.

(** The body of the [while] loop.  The two arrays are sorted in place,
    the heads are decremented and shifted out below 0.01. *)
Definition iterate (st : state) : state :=
  match sortDesc (creditors st), sortDesc (debtors st) with
  | creditor :: cs, debtor :: ds =>
      let amt := Math_min (amount debtor) (amount creditor) in
      let debtor' := {| name := name debtor; amount := amount debtor - amt |} in
      let creditor' := {| name := name creditor; amount := amount creditor - amt |} in
      {| creditors := if Qltb (amount creditor') (1 # 100) then cs else creditor' :: cs;
         debtors := if Qltb (amount debtor') (1 # 100) then ds else debtor' :: ds;
         transactions :=
           transactions st ++ [(fmt (name debtor), fmt (name creditor), toFixed2 amt)] |}
  | _, _ => st
  end.

(** [while (debtors.length && creditors.length)]. *)
Definition continues (st : state) : bool :=
  nonempty (debtors st) && nonempty (creditors st).

Fixpoint loop (fuel : nat) (st : state) : state :=
  match fuel with
  | O => st
  | S fuel' => if continues st then loop fuel' (iterate st) else st
  end.

Definition start (entries : Table.t Q) : state :=
  {| creditors := creditorsOf entries;
     debtors := debtorsOf entries;
     transactions := [] |}.

(** Every iteration shifts a party out, so as many iterations as there
    are parties are enough (see [loop_exits]). *)
Definition finish (entries : Table.t Q) : state :=
  let st := start entries in
  loop (List.length (creditors st) + List.length (debtors st)) st.

Definition minimize (entries : Table.t Q) : list transaction :=
  transactions (finish entries).
End Minimizer.

Definition generateMinimalMemberTransactions (balances : Table.t Q)
  : list transaction := minimize Str.capitalize balances.

(** The subgroup version swaps the order in which the two heads are
    updated and formats keys with [formatGroup]; its keys are the
    defined keys of [groupBalances]. *)
Definition generateMinimalSubgroupTransactions (groupBalances : Table.t Q)
  : list transaction := minimize Str.formatGroup groupBalances.

End Settle.

(** *** Accounting over the output of the minimizer *)

Definition total (l : list Settle.party) : Q := Qsum (map Settle.amount l).

(** What the parties displayed as [x] still have to receive (or to pay). *)
Definition due (fmt : string -> string) (x : string) (l : list Settle.party) : Q :=
  total (filter (fun p => (fmt (Settle.name p) =? x)%string) l).

Definition received (x : string) (txs : list Settle.transaction) : Q :=
  Qsum (map snd (filter (fun t : Settle.transaction => (snd (fst t) =? x)%string) txs)).

Definition paidOut (x : string) (txs : list Settle.transaction) : Q :=
  Qsum (map snd (filter (fun t : Settle.transaction => (fst (fst t) =? x)%string) txs)).

Definition transferred (txs : list Settle.transaction) : Q := Qsum (map snd txs).

(** Paying the transactions: what a party pays raises its balance towards
    zero, what it receives lowers it. *)
Definition settled (fmt : string -> string) (txs : list Settle.transaction)
    (e : string * Q) : Q :=
  snd e + paidOut (fmt (fst e)) txs - received (fmt (fst e)) txs.

(** The other direction: the amount subtracted from the [from] party and
    added to the [to] party. *)
Definition appliedAsWorded (fmt : string -> string) (txs : list Settle.transaction)
    (e : string * Q) : Q :=
  snd e - paidOut (fmt (fst e)) txs + received (fmt (fst e)) txs.

(** Remainders the loop can hold: whole hundredths, at least one. *)
Definition sound (l : list Settle.party) : Prop :=
  Forall (fun p => cents (Settle.amount p) /\ 1 # 100 <= Settle.amount p) l.

(** The head of a sorted array after [amt] has been taken from it:
    [p.amount -= amt; if (p.amount < 0.01) list.shift()]. *)
Definition shifted (p : Settle.party) (amt : Q) (rest : list Settle.party)
  : list Settle.party :=
  if Qltb (Settle.amount p - amt) (1 # 100) then rest
  else {| Settle.name := Settle.name p; Settle.amount := Settle.amount p - amt |} :: rest.

(** What the loop keeps constant from one state to a later one: for every
    displayed name, received plus still due, paid plus still due, and the
    two grand totals. *)
Record conserves (fmt : string -> string) (st st' : Settle.state) : Prop := {
  keeps_received : forall x,
      received x (Settle.transactions st') + due fmt x (Settle.creditors st')
      == received x (Settle.transactions st) + due fmt x (Settle.creditors st);
  keeps_paid : forall x,
      paidOut x (Settle.transactions st') + due fmt x (Settle.debtors st')
      == paidOut x (Settle.transactions st) + due fmt x (Settle.debtors st);
  keeps_credit :
      transferred (Settle.transactions st') + total (Settle.creditors st')
      == transferred (Settle.transactions st) + total (Settle.creditors st);
  keeps_debit :
      transferred (Settle.transactions st') + total (Settle.debtors st')
      == transferred (Settle.transactions st) + total (Settle.debtors st)
}.

(** *** The settlement in the words of the specification *)

(** Sum of the creditor balances and of the absolute debtor balances. *)
Definition creditorSum (entries : Table.t Q) : Q :=
  Qsum (map (fun e : string * Q => if Qltb 0 (snd e) then snd e else 0) entries).

Definition debtorSum (entries : Table.t Q) : Q :=
  Qsum (map (fun e : string * Q => if Qltb (snd e) 0 then - snd e else 0) entries).

(** Settlement correctness as worded: balances summing to 0 within 0.01;
    every transaction subtracted from its [from] party and added to its
    [to] party; every balance then within 0.01 of zero, and the amounts
    transferred matching the creditor and the debtor sums within 0.01. *)
Definition settlesAsWorded (entries : Table.t Q) : Prop :=
  NoDup (Table.keys entries) ->
  Qabs (Qsum (Table.values entries)) <= 1 # 100 ->
  let txs := Settle.generateMinimalMemberTransactions entries in
  (forall e, In e entries -> Qabs (appliedAsWorded Str.capitalize txs e) <= 1 # 100)
  /\ Qabs (transferred txs - creditorSum entries) <= 1 # 100
  /\ Qabs (creditorSum entries - debtorSum entries) <= 1 # 100.

(** Rounded to two decimals and partitioned: creditors above 0.01,
    debtors below -0.01, the rest left out. *)
Definition roundedCreditors (entries : Table.t Q) : list Settle.party :=
  map (fun e : string * Q => {| Settle.name := fst e; Settle.amount := toFixed2 (snd e) |})
      (filter (fun e : string * Q => Qltb (1 # 100) (toFixed2 (snd e))) entries).

Definition roundedDebtors (entries : Table.t Q) : list Settle.party :=
  map (fun e : string * Q => {| Settle.name := fst e; Settle.amount := - toFixed2 (snd e) |})
      (filter (fun e : string * Q => Qltb (toFixed2 (snd e)) (- (1 # 100))) entries).

Definition decremented (p : Settle.party) (amt : Q) : Settle.party :=
  {| Settle.name := Settle.name p; Settle.amount := Settle.amount p - amt |}.

(** Parties whose remainder has not dropped below 0.01. *)
Definition stillOpen (l : list Settle.party) : list Settle.party :=
  filter (fun p => negb (Qltb (Settle.amount p) (1 # 100))) l.

(** The greedy loop of the specification, on creditor and debtor sets
    (lists up to order): while both are non-empty, take a creditor and a
    debtor with the largest remainders, emit [(debtor, creditor, min)]
    with a positive amount, decrement both, drop who fell below 0.01.
    The transactions are listed in the order they are emitted. *)
Inductive greedy (fmt : string -> string)
  : list Settle.party -> list Settle.party -> list Settle.transaction -> Prop :=
| greedy_stop cs ds : cs = [] \/ ds = [] -> greedy fmt cs ds []
| greedy_pay cs ds c d cs0 ds0 amt shown txs :
    Permutation cs (c :: cs0) ->
    Forall (fun p => Settle.amount p <= Settle.amount c) cs0 ->
    Permutation ds (d :: ds0) ->
    Forall (fun p => Settle.amount p <= Settle.amount d) ds0 ->
    amt == Qmin (Settle.amount c) (Settle.amount d) ->
    shown == amt ->
    0 < amt ->
    greedy fmt (stillOpen (decremented c amt :: cs0))
               (stillOpen (decremented d amt :: ds0)) txs ->
    greedy fmt cs ds ((fmt (Settle.name d), fmt (Settle.name c), shown) :: txs).

(** The participants of a wildcard split. *)
Definition everybody (allMembers : list string) : list participant :=
  map (fun m => {| name := m; weight := 1 |}) allMembers.

(** ** assignMembersToSubgroups *)

(** The inner loop: the first entry of the Map whose group has the member. *)
Fixpoint findGroup (member : string) (entries : Table.t (list string))
  : option (string * list string) :=
  match entries with
  | [] => None
  | (key, group) :: rest =>
      if Set_has member group then Some (key, group) else findGroup member rest
  end.

Record assignment : Type := {
  subgroupMap : Table.t (list string);
  nameToGroupKey : Table.t string;
  nameToGroup : Table.t (list string)
}.

(** The body of the outer loop. *)
Definition assignMember (a : assignment) (member : string) : assignment :=
  match findGroup member (subgroupMap a) with
  | Some (key, group) =>
      {| subgroupMap := subgroupMap a;
         nameToGroupKey := Table.set member key (nameToGroupKey a);
         nameToGroup := Table.set member group (nameToGroup a) |}
  | None =>
      let key := member in
      {| subgroupMap := Table.set key [member] (subgroupMap a);
         nameToGroupKey := Table.set member key (nameToGroupKey a);
         nameToGroup := Table.set member [member] (nameToGroup a) |}
  end.

Definition assignMembersToSubgroups (allMembers : list string)
    (subgroupMap : Table.t (list string)) (nameToGroupKey : Table.t string)
    (nameToGroup : Table.t (list string)) : assignment :=
  fold_left assignMember allMembers
    {| subgroupMap := subgroupMap;
       nameToGroupKey := nameToGroupKey;
       nameToGroup := nameToGroup |}.

(** ** calculateGroupBalances *)

Definition key_eqb (k k' : option string) : bool :=
  match k, k' with
  | Some s, Some s' => (s =? s')%string
  | None, None => true
  | _, _ => false
  end.

(** [if (!m.has(k)) m.set(k, 0); m.set(k, m.get(k) + v)] on a Map whose
    keys may be [undefined]. *)
Fixpoint addTo (k : option string) (v : Q) (m : list (option string * Q))
  : list (option string * Q) :=
  match m with
  | [] => [(k, 0 + v)]
  | (k', v') :: m' =>
      if key_eqb k' k then (k', v' + v) :: m' else (k', v') :: addTo k v m'
  end.

Definition calculateGroupBalances (nameToGroupKey : Table.t string)
    (balances : Table.t Q) : list (option string * Q) :=
  fold_left (fun groupBalances e => addTo (Table.get (fst e) nameToGroupKey) (snd e) groupBalances)
            balances [].

(** ** The run *)

Definition grid : Type := list (list value).

Record spreadsheet : Type := {
  membersSheet : option grid;
  subgroupsSheet : option grid;
  expensesSheet : option grid
}.

Record output : Type := {
  perItemHeader : list string;
  perItemRows : list (string * list Q);
  balanceTable : list (string * Q);
  subgroupTable : list (string * Q);
  transactionTable : list Settle.transaction;
  memberTransactionTable : list Settle.transaction
}.

Definition RangeError : string :=
  "Exception: The number of rows in the range must be at least 1.".

(** [sheet.getRange(2, col, sheet.getLastRow() - 1, 1).getValues().flat()]:
    the cells of one column below the header; an empty cell reads [""]. *)
Definition getColumn (sheet : grid) (col : Z) : outcome (list value) :=
  match sheet with
  | _ :: row :: rows =>
      Done (map (fun r => nth (Z.to_nat (col - 1)) r (Str "")) (row :: rows))
  | _ => Thrown RangeError
  end.

(** [headerRow.findIndex(h => h.toString().trim().toLowerCase() === "members") + 1];
    a number never prints as a word. *)
Fixpoint findMembersColumn (i : Z) (headerRow : list value) : Z :=
  match headerRow with
  | [] => 0%Z
  | Str h :: rest =>
      if (Str.normalize h =? "members")%string then (i + 1)%Z
      else findMembersColumn (i + 1)%Z rest
  | _ :: rest => findMembersColumn (i + 1)%Z rest
  end.

(** [String(name).trim().toLowerCase()], text cells only. *)
Definition memberName (v : value) : outcome string :=
  match v with
  | Str s => Done (Str.normalize s)
  | Number _ => Unmodelled
  | undefined => Done "undefined"
  end.

(** [subgroupsData.flat().filter(Boolean).forEach(raw => ...)]: one cell. *)
Definition registerGroup (m : Table.t (list string)) (raw : value)
  : outcome (Table.t (list string)) :=
  match raw with
  | Str s =>
      let group := filter Str.nonempty (map Str.normalize (Str.split "," s)) in
      if (0 <? List.length group)%nat
      then let sorted := Str.sort group in
           Done (Table.set (Str.join "," sorted) (Set_of sorted) m)
      else Done m
  | _ => Thrown TypeError
  end.

Fixpoint registerGroups (m : Table.t (list string)) (cells : list value)
  : outcome (Table.t (list string)) :=
  match cells with
  | [] => Done m
  | raw :: rest => m' <- registerGroup m raw ;; registerGroups m' rest
  end.

(** [h => h.toString().toLowerCase().trim()], text cells only. *)
Definition headerName (v : value) : outcome string :=
  match v with
  | Str s => Done (Str.trim (Str.toLowerCase s))
  | Number _ => Unmodelled
  | undefined => Thrown TypeError
  end.

(** [parseFloat((perItemSplits[item][member] || 0).toFixed(2))]: a member
    name that [Object.prototype] defines and the item does not hold reads
    as a function or an object, which has no [toFixed]. *)
Definition shareCell (shares : Obj.t Q) (member : string) : outcome Q :=
  match Obj.get member shares with
  | Some share => Done (toFixed2 share)
  | None => if Obj.inherits member then Thrown TypeError else Done (toFixed2 0)
  end.

(** The rows and the closing row of the per-item table, numbers as
    [parseFloat(x.toFixed(2))].  The closing row is reached when no item
    row has thrown: with a member name that [Object.prototype] defines,
    when there is no item at all and every total is 0. *)
Definition writePerItemSplitTable (allMembers : list string)
    (perItemSplits : Obj.t (Obj.t Q))
  : outcome (list string * list (string * list Q)) :=
  let itemHeader := "Item" :: map Str.capitalize allMembers in
  rows <- mapM (fun e : string * Obj.t Q =>
                  cells <- mapM (shareCell (snd e)) allMembers ;;
                  Done (fst e, cells))
               perItemSplits ;;
  let totalRow :=
    ("Person's Net Total",
     map (fun member =>
            toFixed2 (fold_left (fun sum itemShares => sum + getOr0 member itemShares)
                                (Obj.values perItemSplits) 0))
         allMembers) in
  Done (itemHeader, (rows ++ [totalRow])%list).

Definition writeBalanceTable (balances : Table.t Q) : list (string * Q) :=
  map (fun e : string * Q => (Str.capitalize (fst e), toFixed2 (snd e))) balances.

(** [Array.from(subgroupMap.get(groupKey))] throws on a key that is
    [undefined] or unknown to the Map. *)
Definition writeSubgroupBalanceTable (subgroupMap : Table.t (list string))
    (nameToGroupKey : Table.t string) (balances : Table.t Q)
  : outcome (list (string * Q)) :=
  mapM (fun e : option string * Q =>
          match fst e with
          | Some groupKey =>
              match Table.get groupKey subgroupMap with
              | Some members =>
                  Done (Str.join ", " (map Str.capitalize members), toFixed2 (snd e))
              | None => Thrown TypeError
              end
          | None => Thrown TypeError
          end)
       (calculateGroupBalances nameToGroupKey balances).

(** The group balances with their keys read as strings.  An [undefined]
    key has made [writeSubgroupBalanceTable] throw before this is reached. *)
Definition stringKeys (groupBalances : list (option string * Q)) : outcome (Table.t Q) :=
  mapM (fun e : option string * Q =>
          match fst e with
          | Some k => Done (k, snd e)
          | None => Thrown TypeError
          end) groupBalances.

Definition writeTransactionTable (nameToGroupKey : Table.t string)
    (balances : Table.t Q) : outcome (list Settle.transaction) :=
  groupBalances <- stringKeys (calculateGroupBalances nameToGroupKey balances) ;;
  Done (Settle.generateMinimalSubgroupTransactions groupBalances).

Definition writeMemberTransactionTable (balances : Table.t Q)
  : list Settle.transaction :=
  Settle.generateMinimalMemberTransactions balances.

Definition MissingSheet : string :=
  "Missing one of the required sheets: Members, Subgroups, or Expenses".

Definition quote : string := String (ascii_of_nat 34) "".

Definition MissingMembers : string :=
  "Could not find " ++ quote ++ "Members" ++ quote ++ " column in Members sheet".

Definition calculateExpensesWithSubgroups (ss : spreadsheet) : outcome output :=
  match membersSheet ss, subgroupsSheet ss, expensesSheet ss with
  | Some membersSheet, Some subgroupsSheet, Some expensesSheet =>
      let membersColIndex := findMembersColumn 0 (hd [] membersSheet) in
      if (membersColIndex =? 0)%Z then Thrown MissingMembers
      else
        membersData <- getColumn membersSheet membersColIndex ;;
        names <- mapM memberName (filter truthy membersData) ;;
        let allMembers := Set_of names in
        subgroupsData <- getColumn subgroupsSheet 2 ;;
        registered <- registerGroups [] (filter truthy subgroupsData) ;;
        let expensesData := expensesSheet in
        headers <- match expensesData with
                   | row0 :: _ => mapM headerName row0
                   | [] => Thrown TypeError
                   end ;;
        let c := getColumnIndexesExpenses headers in
        let a := assignMembersToSubgroups allMembers registered [] [] in
        l <- processExpenses expensesData c allMembers (initialLedger allMembers) ;;
        perItem <- writePerItemSplitTable allMembers (perItemSplits l) ;;
        let balanceTable := writeBalanceTable (balances l) in
        subgroupTable <- writeSubgroupBalanceTable (subgroupMap a) (nameToGroupKey a)
                           (balances l) ;;
        transactionTable <- writeTransactionTable (nameToGroupKey a) (balances l) ;;
        Done {| perItemHeader := fst perItem;
                perItemRows := snd perItem;
                balanceTable := balanceTable;
                subgroupTable := subgroupTable;
                transactionTable := transactionTable;
                memberTransactionTable := writeMemberTransactionTable (balances l) |}
  | _, _, _ => Thrown MissingSheet
  end.

(** The name part of a split entry, [entry.split(":")[0].trim()]. *)
Definition entryName (entry : string) : string :=
  nth 0 (map Str.trim (Str.split ":" entry)) "".

(** The skip conditions of the loop of [processExpenses]: a falsy item, a
    falsy payer, an amount that is [NaN], or a text payer with an empty
    participant list. *)
Definition skippable (c : columns) (allMembers : list string) (row : list value) : Prop :=
  truthy (cell row (expensesStartCol c)) = false
  \/ truthy (cell row (paidByColIndex c)) = false
  \/ parseFloat (cell row (amountColIndex c)) = NaN
  \/ ((exists raw, cell row (paidByColIndex c) = Str raw)
      /\ getParticipants (cell row (splitBetweenColIndex c)) allMembers = Done []).

(** "Not parseable as a positive number". *)
Definition notPositiveNumber (v : value) : Prop :=
  match parseFloat v with
  | NaN => True
  | Num q => q <= 0
  | Infinity negative => negative = true
  end.

(** The skip policy as worded: a row with a missing item or payer, an
    amount that is not a positive number, or no participant leaves the
    ledger as it was. *)
Definition skipsAsWorded (c : columns) (allMembers : list string)
    (l : ledger) (row : list value) : Prop :=
  truthy (cell row (expensesStartCol c)) = false
  \/ truthy (cell row (paidByColIndex c)) = false
  \/ notPositiveNumber (cell row (amountColIndex c))
  \/ getParticipants (cell row (splitBetweenColIndex c)) allMembers = Done [] ->
  processRow c allMembers l row = Done l.





(** [p] does not come after [q] in a descending array. *)
Definition above (p q : Settle.party) : Prop := Settle.amount q <= Settle.amount p.

(** The closing row of the per-item table for one member, before
    rounding: [Object.values(perItemSplits).reduce((sum, itemShares) =>
    sum + parseFloat(itemShares[member] || 0), 0)]. *)
Definition netTotal (member : string) (perItemSplits : Table.t (Table.t Q)) : Q :=
  fold_left (fun sum itemShares => sum + getOr0 member itemShares)
            (Table.values perItemSplits) 0.

(** The sum of the split entries of one item. *)
Definition itemSum (item : string) (perItemSplits : Table.t (Table.t Q)) : Q :=
  match Table.get item perItemSplits with
  | Some shares => Qsum (Table.values shares)
  | None => 0
  end.

(** The balance of one group key, 0 when the key is absent. *)
Definition groupValue (k : option string) (groupBalances : list (option string * Q)) : Q :=
  match find (fun e : option string * Q => key_eqb (fst e) k) groupBalances with
  | Some e => snd e
  | None => 0
  end.

(** The balances of the names that [nameToGroupKey] sends to [k]. *)
Definition memberSum (nameToGroupKey : Table.t string) (k : option string)
    (balances : Table.t Q) : Q :=
  Qsum (map snd (filter (fun e : string * Q =>
                           key_eqb (Table.get (fst e) nameToGroupKey) k) balances)).

(** A balance table that keeps the keys of another in place and adds new
    ones after them, without repeating a key. *)
Definition extends (b b' : Table.t Q) : Prop :=
  (exists extra, Table.keys b' = (Table.keys b ++ extra)%list)
  /\ (NoDup (Table.keys b) -> NoDup (Table.keys b')).


(** What one row adds to the balance of [k], read on an empty ledger. *)
Definition rowEffect (c : columns) (allMembers : list string) (row : list value)
    (k : string) : Q :=
  match processRow c allMembers {| balances := []; perItemSplits := [] |} row with
  | Done l => getOr0 k (balances l)
  | _ => 0
  end.

(** The characters of a string. *)
Definition chars (s : string) : list ascii := list_ascii_of_string s.

(** ** buildSubgroupClusters *)

Record clusters : Type := {
  knownMembers : list string;
  knownGroups : Table.t (list string)
}.

(** One row of the merged sheet: the member cell is added to the set, the
    subgroup cell is registered unless its key is already there. *)
Definition clusterRow (membersColIndex subgroupsColIndex : Z)
    (st : clusters) (row : list value) : outcome clusters :=
  let memberRaw := cell row membersColIndex in
  let subgroupRaw := cell row subgroupsColIndex in
  allMembers <-
    (if truthy memberRaw
     then match memberRaw with
          | Str s => Done (Set_add (Str.normalize s) (knownMembers st))
          | _ => Thrown TypeError
          end
     else Done (knownMembers st)) ;;
  if truthy subgroupRaw
  then match subgroupRaw with
       | Str s =>
           let group := filter Str.nonempty (map Str.normalize (Str.split "," s)) in
           let sorted := Str.sort group in
           let groupKey := Str.join "," sorted in
           Done {| knownMembers := allMembers;
                   knownGroups := if Table.has groupKey (knownGroups st)
                                  then knownGroups st
                                  else Table.set groupKey (Set_of sorted) (knownGroups st) |}
       | _ => Thrown TypeError
       end
  else Done {| knownMembers := allMembers; knownGroups := knownGroups st |}.

Fixpoint clusterRows (membersColIndex subgroupsColIndex : Z)
    (rows : list (list value)) (st : clusters) : outcome clusters :=
  match rows with
  | [] => Done st
  | row :: rows' =>
      st' <- clusterRow membersColIndex subgroupsColIndex st row ;;
      clusterRows membersColIndex subgroupsColIndex rows' st'
  end.

Definition buildSubgroupClusters (data : list (list value))
    (membersColIndex subgroupsColIndex : Z) (allMembers : list string)
    (subgroupMap : Table.t (list string)) : outcome clusters :=
  clusterRows membersColIndex subgroupsColIndex (tl data)
    {| knownMembers := allMembers; knownGroups := subgroupMap |}.

(** ** GroupService *)

Module GroupService.

Record Group : Type := { id : string; groupName : string }.


Definition listGroup (groupsList : list Group) : list Group := groupsList.



End GroupService.

(** ** The minimizers on binary64 numbers

    [Settle] runs the loop of the two minimizers on exact rationals: the
    algorithm as the specification words it.  The script runs it on IEEE
    754 doubles.  [Double] is the same source, line for line, on the
    kernel's binary64 numbers; [toFixed(2)] rounds the exact value of the
    double, and [parseFloat] reads the printed decimal back as the
    nearest double.  Balances that are not finite, or reach [2^53]
    hundredths, are left out ([Unmodelled]). *)

Module Double.
Local Open Scope float_scope.

(** The double nearest to [n / 100] for [0 <= n < 2^53]: [n] and [100]
    are doubles and the division is correctly rounded. *)
Definition ofCents (n : Z) : float := of_uint63 (Uint63.of_Z n) / 100.

(** The literal [0.01]. *)
Definition cent : float := ofCents 1.

(** The rational a finite double denotes. *)
Definition exact (x : float) : option Q :=
  match Prim2SF x with
  | S754_zero _ => Some 0%Q
  | S754_finite s m e => Some (inject_Z (if s then Z.neg m else Z.pos m) * Qpower 2 e)%Q
  | S754_infinity _ => None
  | S754_nan => None
  end.

(** The digits of [x.toFixed(2)]: the integer [n] for which [n / 100 - |x|]
    is as close to zero as possible, the larger one when there are two. *)
Definition hundredths (x : float) : outcome Z :=
  match exact (abs x) with
  | Some q =>
      let n := Qfloor (q * 100 + (1 # 2)) in
      if (n <? 2 ^ 53)%Z then Done n else Unmodelled
  | None => Unmodelled
  end.

(** [parseFloat(x.toFixed(2))]; the sign is printed when [x < 0]. *)
Definition round2 (x : float) : outcome float :=
  n <- hundredths x ;;
  Done (if x <? 0 then - ofCents n else ofCents n).

(** The decimal that [x.toFixed(2)] prints. *)
Definition toFixed2 (x : float) : outcome Q :=
  n <- hundredths x ;;
  Done (if x <? 0 then (- n # 100)%Q else (n # 100)%Q).

(** [Math.min] of two numbers. *)
Definition Math_min (x y : float) : float := if x <? y then x else y.

Record party : Type := { name : string; amount : float }.

(** [[from, to, amount.toFixed(2)]], the printed amount as a decimal. *)
Definition transaction : Type := string * string * Q.

(** The first loop: [val > 0.01] makes a creditor, [val < -0.01] a
    debtor of [-val]. *)
Fixpoint partition (entries : list (string * float))
  : outcome (list party * list party) :=
  match entries with
  | [] => Done ([], [])
  | (key, balance) :: rest =>
      val <- round2 balance ;;
      r <- partition rest ;;
      Done (if cent <? val
            then ({| name := key; amount := val |} :: fst r, snd r)
            else if val <? - cent
                 then (fst r, {| name := key; amount := - val |} :: snd r)
                 else r)
  end.

(** The comparator [(a, b) => b.amount - a.amount]. *)
Definition compare (a b : party) : float := amount b - amount a.

(** [list.sort(compare)]: stable, [a] after [b] when [compare(a, b) > 0]. *)
Fixpoint insert (p : party) (l : list party) : list party :=
  match l with
  | [] => [p]
  | q :: l' => if 0 <? compare p q then q :: insert p l' else p :: l
  end.

Definition sortDesc (l : list party) : list party := fold_right insert [] l.

Record state : Type := {
  creditors : list party;
  debtors : list party;
  transactions : list transaction
}.

Section Minimizer.
Variable fmt : string -> string.

(** The body of the [while] loop. *)
Definition iterate (st : state) : outcome state :=
  match sortDesc (creditors st), sortDesc (debtors st) with
  | creditor :: cs, debtor :: ds =>
      let amt := Math_min (amount debtor) (amount creditor) in
      shown <- toFixed2 amt ;;
      let debtor' := {| name := name debtor; amount := amount debtor - amt |} in
      let creditor' := {| name := name creditor; amount := amount creditor - amt |} in
      Done {| creditors := if amount creditor' <? cent then cs else creditor' :: cs;
              debtors := if amount debtor' <? cent then ds else debtor' :: ds;
              transactions :=
                (transactions st ++ [(fmt (name debtor), fmt (name creditor), shown)])%list |}
  | _, _ => Done st
  end.

(** [while (debtors.length && creditors.length)]. *)
Definition continues (st : state) : bool :=
  Settle.nonempty (debtors st) && Settle.nonempty (creditors st).

(** The loop; the model gives up when the fuel runs out before the test
    fails. *)
Fixpoint loop (fuel : nat) (st : state) : outcome state :=
  if continues st
  then match fuel with
       | O => Unmodelled
       | S fuel' => st' <- iterate st ;; loop fuel' st'
       end
  else Done st.

Definition minimize (entries : list (string * float)) : outcome (list transaction) :=
  p <- partition entries ;;
  st <- loop (List.length (fst p) + List.length (snd p))
             {| creditors := fst p; debtors := snd p; transactions := [] |} ;;
  Done (transactions st).
End Minimizer.

Definition generateMinimalMemberTransactions (balances : list (string * float))
  : outcome (list transaction) := minimize Str.capitalize balances.

Definition generateMinimalSubgroupTransactions (groupBalances : list (string * float))
  : outcome (list transaction) := minimize Str.formatGroup groupBalances.

(** The balances as the rationals they denote. *)
Definition exactEntries (entries : list (string * float)) : Table.t Q :=
  map (fun e : string * float =>
         (fst e, match exact (snd e) with Some q => q | None => 0%Q end)) entries.

End Double.

(** A row that completes from every ledger that agrees with [l] on
    whether a balance is named [hasOwnProperty], and leaves that as it is. *)
Definition runsFrom (c : columns) (allMembers : list string) (l : ledger)
    (row : list value) : Prop :=
  forall l2, Obj.has "hasOwnProperty" (balances l2)
             = Obj.has "hasOwnProperty" (balances l) ->
             exists l2', processRow c allMembers l2 row = Done l2'
                         /\ Obj.has "hasOwnProperty" (balances l2')
                            = Obj.has "hasOwnProperty" (balances l2).

(** ** Worked inputs *)

Module Example.

Definition header : list value :=
  [Str "Item"; Str "Paid By"; Str "Amount"; Str "Split Between"].

Definition cols : columns :=
  getColumnIndexesExpenses ["item"; "paid by"; "amount"; "split between"].

Definition members : list string := ["alice"; "bob"; "carol"].

(** Lunch, 90, paid by Alice, split between everybody. *)
Definition lunch : list value := [Str "Lunch"; Str "Alice"; Number 90; Str "*"].

(** Taxi, 100, paid by Bob, Alice carrying three quarters. *)
Definition taxi : list value := [Str "Taxi"; Str "Bob"; Str "100"; Str "Alice:3,Bob:1"].

Definition ledgerOf (o : outcome ledger) : ledger :=
  match o with Done l => l | _ => initialLedger [] end.

Definition afterLunch : ledger :=
  Eval vm_compute in
    ledgerOf (processExpenses [header; lunch] cols members (initialLedger members)).

Definition afterTaxi : ledger :=
  Eval vm_compute in
    ledgerOf (processExpenses [header; taxi] cols members (initialLedger members)).


(** One member three hundredths down, six members half a hundredth up. *)
Definition crumbs : Table.t Q :=
  [("a", - (3 # 100)); ("b", 1 # 200); ("c", 1 # 200); ("d", 1 # 200);
   ("e", 1 # 200); ("f", 1 # 200); ("g", 1 # 200)].

(** The three sheets of a small trip. *)
Definition membersGrid : grid :=
  [[Str "Members"]; [Str "Alice"]; [Str "Bob"]; [Str "Carol"]].

Definition subgroupsGrid : grid :=
  [[Str "Name"; Str "Subgroups"]; [Str "Couple"; Str "Bob, Carol"]].

Definition expensesGrid : grid := [header; lunch; taxi].

Definition trip : spreadsheet :=
  {| membersSheet := Some membersGrid;
     subgroupsSheet := Some subgroupsGrid;
     expensesSheet := Some expensesGrid |}.

(** A refund entered as a negative amount. *)
Definition refund : list value := [Str "Refund"; Str "Alice"; Str "-5"; Str "*"].

(** Snacks paid by Dave and shared with Zed, neither of them a member. *)
Definition snacks : list value :=
  [Str "Snacks"; Str "Dave"; Str "40"; Str "Alice, Zed"].

(** A row without a payer. *)
Definition unpaid : list value := [Str "Tip"; Str ""; Str "10"; Str "*"].

(** The trip with the item column of the Expenses sheet renamed. *)
Definition noItemColumn : spreadsheet :=
  {| membersSheet := Some membersGrid;
     subgroupsSheet := Some subgroupsGrid;
     expensesSheet :=
       Some [[Str "Thing"; Str "Paid By"; Str "Amount"; Str "Split Between"];
             lunch; taxi] |}.

(** The trip with a members cell that holds one space. *)
Definition blankMember : spreadsheet :=
  {| membersSheet := Some [[Str "Members"]; [Str "Alice"]; [Str " "]];
     subgroupsSheet := Some subgroupsGrid;
     expensesSheet := Some [header] |}.

(** A payer cell that holds two spaces, and a split entry without a name. *)
Definition blankPayer : list value := [Str "Tea"; Str "  "; Str "6"; Str "Alice"].
Definition blankEntry : list value := [Str "Tea"; Str "Alice"; Str "6"; Str "Alice,:2"].

(** A member whose name is the key of a registered group. *)
Definition registered : Table.t (list string) := [("a,b", ["a"; "b"])].
Definition commaMembers : list string := ["a,b"; "a"].

(** Bob and Carol registered as one group. *)
Definition couple : Table.t (list string) := [("bob,carol", ["bob"; "carol"])].

Definition outputOf (o : outcome output) : output :=
match o with
| Done out => out
| _ => {| perItemHeader := []; perItemRows := []; balanceTable := [];
          subgroupTable := []; transactionTable := []; memberTransactionTable := [] |}
end.

(** The tables written for the trip. *)
Definition tripOutput : output :=
Eval vm_compute in outputOf (calculateExpensesWithSubgroups trip).


(** Two credits of 0.15 against two debts of 0.14 and one of 0.02. *)
Definition leftover : list (string * float) :=
  [("a1", Double.ofCents 15); ("a2", Double.ofCents 15);
   ("b1", PrimFloat.opp (Double.ofCents 14)); ("b2", PrimFloat.opp (Double.ofCents 14));
   ("c", PrimFloat.opp (Double.ofCents 2))].

Definition afterSnacks : ledger :=
  Eval vm_compute in
    ledgerOf (processExpenses [header; snacks] cols members (initialLedger members)).

(** Tea for 30 paid by Alice, the split cell naming [__proto__] alone. *)
Definition protoTea : list value := [Str "Tea"; Str "Alice"; Number 30; Str "__proto__"].

(** The trip with that one expense. *)
Definition protoTrip : spreadsheet :=
  {| membersSheet := Some membersGrid;
     subgroupsSheet := Some subgroupsGrid;
     expensesSheet := Some [header; protoTea] |}.

(** A taxi for 100 paid by Bob, a quarter of it for [__proto__]. *)
Definition protoTaxi : list value :=
  [Str "Taxi"; Str "Bob"; Number 100; Str "Alice:3,__proto__:1"].

(** Members Alice and [__proto__]. *)
Definition protoMembers : list string := ["alice"; "__proto__"].

(** Snacks for 40 paid by Dave and shared by Alice and [__proto__]; tea
    for 30 paid by [__proto__] for Bob. *)
Definition protoSnacks : list value :=
  [Str "Snacks"; Str "Dave"; Number 40; Str "Alice, __proto__"].
Definition protoPaid : list value := [Str "Tea"; Str "__proto__"; Number 30; Str "Bob"].

End Example.

(** * Properties *)

(** ** Tables *)

Module TableFacts.
Import Table.

Lemma get_set_same {V} (k : string) (v : V) (m : t V) :
  get k (set k v m) = Some v.
Proof.
  induction m as [|[k' v'] m IH]; simpl.
  - now rewrite String.eqb_refl.
  - destruct (String.eqb_spec k' k) as [->|Hne]; simpl.
    + now rewrite String.eqb_refl.
    + apply String.eqb_neq in Hne. now rewrite Hne.
Qed.

Lemma get_set_other {V} (k k' : string) (v : V) (m : t V) :
  k <> k' -> get k (set k' v m) = get k m.
Proof.
  intros Hne. induction m as [|[k0 v0] m IH]; simpl.
  - destruct (String.eqb_spec k' k); congruence.
  - destruct (String.eqb_spec k0 k') as [->|Hne0]; simpl.
    + destruct (String.eqb_spec k' k); congruence.
    + destruct (String.eqb_spec k0 k); congruence.
Qed.

Lemma keys_set {V} (k : string) (v : V) (m : t V) :
  keys (set k v m) = if has k m then keys m else (keys m ++ [k])%list.
Proof.
  unfold has. induction m as [|[k' v'] m IH]; simpl; [reflexivity|].
  destruct (String.eqb_spec k' k) as [->|Hne]; simpl; [reflexivity|].
  rewrite IH. now destruct (get k m).
Qed.

Lemma has_In {V} (k : string) (m : t V) : has k m = true <-> In k (keys m).
Proof.
  unfold has. induction m as [|[k' v'] m IH]; simpl.
  - split; [discriminate | tauto].
  - destruct (String.eqb_spec k' k) as [->|Hne].
    + split; auto.
    + rewrite IH. split; [auto | intros [?|?]; congruence].
Qed.

Lemma Qsum_app (l1 l2 : list Q) : Qsum (l1 ++ l2) == Qsum l1 + Qsum l2.
Proof.
  induction l1 as [|x l1 IH]; simpl; [lra | rewrite IH; lra].
Qed.

Lemma Qsum_set (k : string) (v : Q) (m : t Q) :
  Qsum (values (set k v m)) == Qsum (values m) - getOr0 k m + v.
Proof.
  unfold getOr0. induction m as [|[k' v'] m IH]; simpl.
  - lra.
  - destruct (String.eqb_spec k' k) as [->|Hne]; simpl; [lra|].
    fold (values (set k v m)) (values m). rewrite IH. lra.
Qed.

Lemma Qsum_permutation (l l' : list Q) : Permutation l l' -> Qsum l == Qsum l'.
Proof.
  induction 1; simpl; try lra.
Qed.

End TableFacts.

(** ** Plain objects *)

Module ObjFacts.
Import Obj.

Lemma set_proto {V} (v : V) (o : Obj.t V) : set proto v o = o.
Proof. reflexivity. Qed.

Lemma place_perm {V} (n : Z) (k : string) (v : V) (o : Obj.t V) :
  Permutation (place n k v o) ((k, v) :: o).
Proof.
  induction o as [|[k' v'] o IH]; simpl; [reflexivity|].
  destruct (arrayIndex k') as [n'|]; [|reflexivity].
  destruct (n' <? n)%Z; [|reflexivity].
  rewrite IH. apply perm_swap.
Qed.

Lemma get_place_same {V} (n : Z) (k : string) (v : V) (o : Obj.t V) :
  Obj.get k o = None -> Obj.get k (place n k v o) = Some v.
Proof.
  induction o as [|[k' v'] o IH]; simpl; intros H.
  - now rewrite String.eqb_refl.
  - destruct (String.eqb_spec k' k) as [->|Hne]; [discriminate|].
    destruct (arrayIndex k') as [n'|]; simpl.
    + destruct (n' <? n)%Z; simpl.
      * apply String.eqb_neq in Hne. rewrite Hne. now apply IH.
      * now rewrite String.eqb_refl.
    + now rewrite String.eqb_refl.
Qed.

Lemma get_place_other {V} (n : Z) (k k' : string) (v : V) (o : Obj.t V) :
  k <> k' -> Obj.get k (place n k' v o) = Obj.get k o.
Proof.
  intros Hne. induction o as [|[k0 v0] o IH]; simpl.
  - destruct (String.eqb_spec k' k); congruence.
  - destruct (arrayIndex k0) as [n0|]; simpl.
    + destruct (n0 <? n)%Z; simpl.
      * now rewrite IH.
      * destruct (String.eqb_spec k' k); congruence.
    + destruct (String.eqb_spec k' k); congruence.
Qed.

Lemma get_assign_same {V} (k : string) (v : V) (o : Obj.t V) :
  k <> proto -> Obj.get k (set k v o) = Some v.
Proof.
  intros Hk. unfold set. apply String.eqb_neq in Hk. rewrite Hk.
  destruct (arrayIndex k) as [n|]; [|apply TableFacts.get_set_same].
  unfold Table.has. destruct (Table.get k o) eqn:E.
  - apply TableFacts.get_set_same.
  - now apply get_place_same.
Qed.

Lemma get_assign_other {V} (k k' : string) (v : V) (o : Obj.t V) :
  k <> k' -> Obj.get k (set k' v o) = Obj.get k o.
Proof.
  intros Hne. unfold set. destruct (k' =? proto)%string; [reflexivity|].
  destruct (arrayIndex k') as [n|]; [|now apply TableFacts.get_set_other].
  destruct (Obj.has k' o); [now apply TableFacts.get_set_other | now apply get_place_other].
Qed.

Lemma set_perm {V} (k : string) (v : V) (o : Obj.t V) :
  k <> proto -> Obj.has k o = false -> Permutation (set k v o) ((k, v) :: o).
Proof.
  intros Hk Hh. unfold set. apply String.eqb_neq in Hk. rewrite Hk, Hh.
  assert (T : Permutation (Table.set k v o) ((k, v) :: o)).
  { clear Hk. unfold Table.has in Hh.
    induction o as [|[k' v'] o IH]; simpl in *; [reflexivity|].
    destruct (k' =? k)%string; [discriminate|].
    rewrite IH by assumption. apply perm_swap. }
  destruct (arrayIndex k); [apply place_perm | exact T].
Qed.

(** Assigning to an own property changes its value in place. *)
Lemma set_own {V} (k : string) (v : V) (o : Obj.t V) :
  k <> proto -> Obj.has k o = true -> set k v o = Table.set k v o.
Proof.
  intros Hk Hh. unfold set. apply String.eqb_neq in Hk. rewrite Hk, Hh.
  now destruct (arrayIndex k).
Qed.

Lemma keys_set_own {V} (k : string) (v : V) (o : Obj.t V) :
  Obj.has k o = true -> Obj.keys (set k v o) = Obj.keys o.
Proof.
  intros Hh. unfold set. destruct (k =? proto)%string; [reflexivity|].
  assert (T : Obj.keys (Table.set k v o) = Obj.keys o).
  { now rewrite TableFacts.keys_set, Hh. }
  rewrite Hh. now destruct (arrayIndex k).
Qed.

Lemma In_keys_set {V} (k k' : string) (v : V) (o : Obj.t V) :
  In k (Obj.keys (set k' v o)) <-> In k (Obj.keys o) \/ (k = k' /\ k' <> proto).
Proof.
  destruct (String.eqb_spec k' proto) as [->|Hk].
  - rewrite set_proto. intuition.
  - destruct (Obj.has k' o) eqn:Hh.
    + rewrite keys_set_own by assumption. apply TableFacts.has_In in Hh.
      intuition (subst; auto).
    + unfold Table.keys.
      rewrite (Permutation_in' (eq_refl k)
                 (Permutation_map fst (set_perm k' v o Hk Hh))).
      simpl. intuition.
Qed.

Lemma NoDup_keys_set {V} (k : string) (v : V) (o : Obj.t V) :
  NoDup (Obj.keys o) -> NoDup (Obj.keys (set k v o)).
Proof.
  intros Hnd. destruct (String.eqb_spec k proto) as [->|Hk]; [now rewrite set_proto|].
  destruct (Obj.has k o) eqn:Hh; [now rewrite keys_set_own|].
  unfold Table.keys.
  apply (Permutation_NoDup (Permutation_sym (Permutation_map fst (set_perm k v o Hk Hh)))).
  simpl. constructor; [|assumption].
  intros Hin. apply TableFacts.has_In in Hin. congruence.
Qed.

(** A name that is neither [__proto__] nor an array index behaves as in a
    Map: updated in place, or added last. *)
Lemma set_plain {V} (k : string) (v : V) (o : Obj.t V) :
  k <> proto -> arrayIndex k = None -> set k v o = Table.set k v o.
Proof.
  intros Hk Hi. unfold set. apply String.eqb_neq in Hk. now rewrite Hk, Hi.
Qed.

Lemma Qsum_assign (k : string) (v : Q) (o : Obj.t Q) :
  k <> proto -> Qsum (Obj.values (set k v o)) == Qsum (Obj.values o) - getOr0 k o + v.
Proof.
  intros Hk. destruct (Obj.has k o) eqn:Hh.
  - rewrite set_own by assumption. apply TableFacts.Qsum_set.
  - assert (H0 : getOr0 k o = 0).
    { unfold getOr0. unfold Table.has in Hh. now destruct (Table.get k o). }
    rewrite H0. unfold Table.values.
    rewrite (TableFacts.Qsum_permutation _ _ (Permutation_map snd (set_perm k v o Hk Hh))).
    simpl. lra.
Qed.

End ObjFacts.

(** ** [credit] and [creditItem] *)

Lemma credit_proto (delta : Q) (b : Obj.t Q) : credit Obj.proto delta b = b.
Proof.
  unfold credit. rewrite ObjFacts.set_proto.
  destruct (Obj.has Obj.proto b); now destruct (Obj.get Obj.proto b).
Qed.

(** Apart from [__proto__], crediting a name stores its balance. *)
Lemma credit_stored (who : string) (delta : Q) (b : Obj.t Q) :
  who <> Obj.proto ->
  credit who delta b
  = Obj.set who (getOr0 who b + delta)
      (if Obj.has who b then b else Obj.set who 0 b).
Proof.
  intros Hw. unfold credit, getOr0, Obj.has, Table.has.
  fold (Obj.get who b). destruct (Obj.get who b) eqn:E; [now rewrite E|].
  now rewrite ObjFacts.get_assign_same.
Qed.

Lemma getOr0_credit (k who : string) (delta : Q) (b : Obj.t Q) :
  who <> Obj.proto ->
  getOr0 k (credit who delta b)
  = if (k =? who)%string then getOr0 who b + delta else getOr0 k b.
Proof.
  intros Hw. rewrite credit_stored by assumption. unfold getOr0.
  fold (Obj.get k (Obj.set who (getOr0 who b + delta)
                     (if Obj.has who b then b else Obj.set who 0 b))).
  destruct (String.eqb_spec k who) as [->|Hne].
  - now rewrite ObjFacts.get_assign_same.
  - rewrite ObjFacts.get_assign_other by assumption.
    destruct (Obj.has who b); [reflexivity|].
    now rewrite ObjFacts.get_assign_other.
Qed.

Lemma keys_credit (k who : string) (delta : Q) (b : Obj.t Q) :
  In k (Obj.keys (credit who delta b))
  <-> In k (Obj.keys b) \/ (k = who /\ who <> Obj.proto).
Proof.
  destruct (String.eqb_spec who Obj.proto) as [->|Hw].
  - rewrite credit_proto. intuition.
  - rewrite credit_stored by assumption. rewrite ObjFacts.In_keys_set.
    destruct (Obj.has who b); [tauto|].
    rewrite ObjFacts.In_keys_set. tauto.
Qed.

Lemma NoDup_credit (who : string) (delta : Q) (b : Obj.t Q) :
  NoDup (Obj.keys b) -> NoDup (Obj.keys (credit who delta b)).
Proof.
  intros Hnd. destruct (String.eqb_spec who Obj.proto) as [->|Hw].
  - now rewrite credit_proto.
  - rewrite credit_stored by assumption. apply ObjFacts.NoDup_keys_set.
    destruct (Obj.has who b); [assumption | now apply ObjFacts.NoDup_keys_set].
Qed.

Lemma Qsum_credit (who : string) (delta : Q) (b : Obj.t Q) :
  who <> Obj.proto ->
  Qsum (Obj.values (credit who delta b)) == Qsum (Obj.values b) + delta.
Proof.
  intros Hw. rewrite credit_stored by assumption.
  rewrite ObjFacts.Qsum_assign by assumption.
  destruct (Obj.has who b) eqn:E; [lra|].
  rewrite ObjFacts.Qsum_assign by assumption.
  assert (H0 : getOr0 who b = 0).
  { unfold getOr0. unfold Obj.has, Table.has in E. now destruct (Table.get who b). }
  assert (H1 : getOr0 who (Obj.set who 0 b) = 0).
  { unfold getOr0. fold (Obj.get who (Obj.set who 0 b)).
    now rewrite ObjFacts.get_assign_same. }
  rewrite H0, H1. lra.
Qed.

Lemma creditItem_proto (item : string) (delta : Q) (s : Obj.t (Obj.t Q)) (k : string) :
  itemShare item k (creditItem item Obj.proto delta s) = itemShare item k s.
Proof.
  unfold itemShare, creditItem. rewrite ObjFacts.set_proto.
  fold (Obj.get item s).
  destruct (String.eqb_spec item Obj.proto) as [->|Hi].
  - now rewrite ObjFacts.set_proto.
  - fold (Obj.get item (Obj.set item match Obj.get item s with
                                    | Some shares => shares | None => [] end s)).
    rewrite ObjFacts.get_assign_same by assumption.
    now destruct (Obj.get item s).
Qed.

Lemma itemShare_creditItem (item k who : string) (delta : Q) (s : Obj.t (Obj.t Q)) :
  item <> Obj.proto -> who <> Obj.proto ->
  itemShare item k (creditItem item who delta s)
  = if (k =? who)%string then itemShare item who s + delta else itemShare item k s.
Proof.
  intros Hi Hw. unfold itemShare, creditItem.
  fold (Obj.get item s).
  match goal with |- context [Table.get item (Obj.set item ?v s)] =>
    fold (Obj.get item (Obj.set item v s)) end.
  rewrite ObjFacts.get_assign_same by assumption.
  unfold getOr0 at 1.
  match goal with |- context [Table.get k (Obj.set who ?v ?o)] =>
    fold (Obj.get k (Obj.set who v o)) end.
  destruct (String.eqb_spec k who) as [->|Hne].
  - rewrite ObjFacts.get_assign_same by assumption. now destruct (Obj.get item s).
  - rewrite ObjFacts.get_assign_other by assumption. now destruct (Obj.get item s).
Qed.

Lemma itemShare_creditItem_other (item item' k who : string) (delta : Q)
    (s : Obj.t (Obj.t Q)) :
  item' <> item ->
  itemShare item' k (creditItem item who delta s) = itemShare item' k s.
Proof.
  intros Hne. unfold itemShare, creditItem.
  match goal with |- context [Table.get item' (Obj.set item ?v s)] =>
    fold (Obj.get item' (Obj.set item v s)) end.
  now rewrite ObjFacts.get_assign_other.
Qed.

(** ** Participants *)


Lemma totalWeight_Wsum (ps : list participant) (acc : Q) :
  fold_left (fun sum p => sum + weight p) ps acc == acc + Wsum ps.
Proof.
  revert acc. induction ps as [|p ps IH]; intros acc; unfold Wsum in *; simpl.
  - lra.
  - rewrite IH. lra.
Qed.

Lemma Wsum_pos (ps : list participant) :
  Forall (fun p => 0 < weight p) ps -> ps <> [] -> 0 < Wsum ps.
Proof.
  intros Hall Hne. destruct Hall as [|p ps Hp Hps]; [congruence|].
  unfold Wsum. simpl. clear Hne.
  assert (0 <= Qsum (map weight ps)).
  { induction Hps; simpl; lra. }
  lra.
Qed.

Lemma entryWeight_pos (w : option string) (q : Q) :
  entryWeight w = Done q -> 0 < q.
Proof.
  unfold entryWeight.
  destruct (match w with Some s => Parse.parseFloat_string s | None => NaN end)
    as [|x|[|]]; intros H; inversion H; subst; try lra.
  destruct (Qle_bool x 0) eqn:E; [lra|].
  destruct (Qlt_le_dec 0 x) as [Hlt|Hle]; [assumption|].
  apply Qle_bool_iff in Hle. congruence.
Qed.

Lemma mapM_Forall {A B} (f : A -> outcome B) (P : B -> Prop) :
  (forall x y, f x = Done y -> P y) ->
  forall l l', mapM f l = Done l' -> Forall P l'.
Proof.
  intros Hf. induction l as [|x l IH]; simpl; intros l' H.
  - inversion H. constructor.
  - destruct (f x) eqn:Ex; simpl in H; try discriminate.
    destruct (mapM f l) eqn:El; simpl in H; try discriminate.
    inversion H; subst. constructor; eauto.
Qed.

Lemma Set_has_In (x : string) (s : list string) : Set_has x s = true <-> In x s.
Proof.
  unfold Set_has. rewrite existsb_exists. split.
  - intros [y [Hy E]]. apply String.eqb_eq in E. now subst.
  - intros H. exists x. split; [assumption | apply String.eqb_refl].
Qed.

Lemma Set_add_In (x y : string) (s : list string) :
  In y (Set_add x s) <-> y = x \/ In y s.
Proof.
  unfold Set_add. destruct (existsb (String.eqb x) s) eqn:E.
  - fold (Set_has x s) in E. apply Set_has_In in E.
    split; [auto | intros [->|?]; assumption].
  - rewrite in_app_iff. simpl. intuition.
Qed.

Lemma unique_from_incl (seen : list string) (ps : list participant) :
  forall p, In p (unique_from seen ps) -> In p ps.
Proof.
  revert seen. induction ps as [|q ps IH]; simpl; intros seen p H; [assumption|].
  destruct (Set_has (name q) seen); [right; eauto|].
  destruct H as [->|H]; [now left | right; eauto].
Qed.

Lemma unique_from_fresh (seen : list string) (ps : list participant) :
  forall p, In p (unique_from seen ps) -> ~ In (name p) seen.
Proof.
  revert seen. induction ps as [|q ps IH]; simpl; intros seen p H; [contradiction|].
  destruct (Set_has (name q) seen) eqn:E; [eauto|].
  destruct H as [->|H].
  - intros Hin. apply Set_has_In in Hin. congruence.
  - intros Hin. apply (IH _ _ H). apply Set_add_In. now right.
Qed.

Lemma unique_from_NoDup (seen : list string) (ps : list participant) :
  NoDup (map name (unique_from seen ps)).
Proof.
  revert seen. induction ps as [|q ps IH]; simpl; intros seen; [constructor|].
  destruct (Set_has (name q) seen); [apply IH|].
  simpl. constructor; [|apply IH].
  intros Hin. apply in_map_iff in Hin. destruct Hin as [p [Hname Hp]].
  apply unique_from_fresh in Hp. apply Hp. apply Set_add_In. now left.
Qed.

(** Every name of the list survives the removal of duplicates. *)
Lemma unique_from_names (seen : list string) (ps : list participant) (k : string) :
  In k (map name ps) -> ~ In k seen -> In k (map name (unique_from seen ps)).
Proof.
  revert seen. induction ps as [|q ps IH]; simpl; intros seen Hin Hseen; [contradiction|].
  destruct (Set_has (name q) seen) eqn:E.
  - apply Set_has_In in E. destruct Hin as [<-|Hin]; [contradiction|]. now apply IH.
  - simpl. destruct (String.eqb_spec (name q) k) as [Heq|Hne]; [now left|].
    right. destruct Hin as [Heq|Hin]; [contradiction|].
    apply IH; [assumption|]. rewrite Set_add_In. intros [Hk|Hk]; congruence.
Qed.

Lemma getParticipants_weights (v : value) (allMembers : list string) (ps : list participant) :
  getParticipants v allMembers = Done ps -> Forall (fun p => 0 < weight p) ps.
Proof.
  unfold getParticipants. destruct v as [|s|q]; try discriminate.
  destruct (Str.nonempty s && (Str.trim s =? "*")%string).
  - intros H. inversion H; subst. apply Forall_forall. intros p Hp.
    apply in_map_iff in Hp. destruct Hp as [m [<- _]]. simpl. lra.
  - destruct (mapM parseEntry (splitEntries s)) as [l| |] eqn:E; simpl; try discriminate.
    intros H. inversion H; subst.
    assert (Hall : Forall (fun p => 0 < weight p) l).
    { eapply mapM_Forall; [|exact E]. intros x y Hy. unfold parseEntry in Hy.
      destruct (entryWeight _) eqn:Ew; simpl in Hy; try discriminate.
      inversion Hy; subst. simpl. eapply entryWeight_pos; eassumption. }
    rewrite Forall_forall in *. intros p Hp. apply Hall.
    eapply unique_from_incl; eassumption.
Qed.

Lemma getParticipants_NoDup (v : value) (allMembers : list string) (ps : list participant) :
  NoDup allMembers ->
  getParticipants v allMembers = Done ps -> NoDup (map name ps).
Proof.
  intros Hnd. unfold getParticipants. destruct v as [|s|q]; try discriminate.
  destruct (Str.nonempty s && (Str.trim s =? "*")%string).
  - intros H. inversion H; subst. rewrite map_map. simpl. now rewrite map_id.
  - destruct (mapM parseEntry (splitEntries s)) as [l| |] eqn:E; simpl; try discriminate.
    intros H. inversion H; subst. apply unique_from_NoDup.
Qed.

(** ** One expense *)

Lemma owed_cons (a T : Q) (k : string) (p : participant) (ps : list participant) :
  owed a T k (p :: ps)
  = if (name p =? k)%string then a * (weight p / T) + owed a T k ps else owed a T k ps.
Proof. unfold owed. simpl. now destruct (name p =? k)%string. Qed.

Lemma owed_absent (a T : Q) (k : string) (ps : list participant) :
  ~ In k (map name ps) -> owed a T k ps = 0.
Proof.
  induction ps as [|p ps IH]; intros Hk; [reflexivity|].
  rewrite owed_cons. simpl in Hk.
  destruct (String.eqb_spec (name p) k); [tauto | apply IH; tauto].
Qed.

Lemma owed_NoDup (a T : Q) (p : participant) (ps : list participant) :
  NoDup (map name ps) -> In p ps -> owed a T (name p) ps == a * (weight p / T).
Proof.
  induction ps as [|q ps IH]; intros Hnd Hin; [contradiction|].
  inversion Hnd as [|? ? Hq Hnd']; subst. rewrite owed_cons.
  destruct Hin as [->|Hin].
  - rewrite String.eqb_refl, owed_absent by assumption. lra.
  - destruct (String.eqb_spec (name q) (name p)) as [E|_]; [|now apply IH].
    exfalso. apply Hq. rewrite E. now apply in_map.
Qed.

(** What one participant does to the ledger, [__proto__] included. *)
Lemma debit_balance (item : string) (a T : Q) (k : string) (p : participant)
    (acc : ledger) :
  k <> Obj.proto ->
  getOr0 k (balances (debit item a T acc p))
  = if (name p =? k)%string then getOr0 k (balances acc) + - (a * (weight p / T))
    else getOr0 k (balances acc).
Proof.
  intros Hk. unfold debit. simpl.
  destruct (String.eqb_spec (name p) Obj.proto) as [E|Hp].
  - rewrite E, credit_proto.
    destruct (String.eqb_spec Obj.proto k); [congruence | reflexivity].
  - rewrite getOr0_credit by assumption. rewrite (String.eqb_sym k).
    now destruct (String.eqb_spec (name p) k) as [->|_].
Qed.

Lemma debit_item (item : string) (a T : Q) (k : string) (p : participant)
    (acc : ledger) :
  item <> Obj.proto -> k <> Obj.proto ->
  itemShare item k (perItemSplits (debit item a T acc p))
  = if (name p =? k)%string
    then itemShare item k (perItemSplits acc) + - (a * (weight p / T))
    else itemShare item k (perItemSplits acc).
Proof.
  intros Hi Hk. unfold debit. simpl.
  destruct (String.eqb_spec (name p) Obj.proto) as [E|Hp].
  - rewrite E, creditItem_proto.
    destruct (String.eqb_spec Obj.proto k); [congruence | reflexivity].
  - rewrite itemShare_creditItem by assumption. rewrite (String.eqb_sym k).
    now destruct (String.eqb_spec (name p) k) as [->|_].
Qed.

Lemma fold_debit_balance (item : string) (a T : Q) (k : string)
    (ps : list participant) (acc : ledger) :
  k <> Obj.proto ->
  getOr0 k (balances (fold_left (debit item a T) ps acc))
  == getOr0 k (balances acc) - owed a T k ps.
Proof.
  intros Hk. revert acc. induction ps as [|p ps IH]; intros acc; simpl.
  - unfold owed. simpl. lra.
  - rewrite IH, owed_cons, debit_balance by assumption.
    destruct (name p =? k)%string; lra.
Qed.

Lemma fold_debit_item (item : string) (a T : Q) (k : string)
    (ps : list participant) (acc : ledger) :
  item <> Obj.proto -> k <> Obj.proto ->
  itemShare item k (perItemSplits (fold_left (debit item a T) ps acc))
  == itemShare item k (perItemSplits acc) - owed a T k ps.
Proof.
  intros Hi Hk. revert acc. induction ps as [|p ps IH]; intros acc; simpl.
  - unfold owed. simpl. lra.
  - rewrite IH, owed_cons, debit_item by assumption.
    destruct (name p =? k)%string; lra.
Qed.

Lemma fold_debit_item_other (item item' : string) (a T : Q) (k : string)
    (ps : list participant) (acc : ledger) :
  item' <> item ->
  itemShare item' k (perItemSplits (fold_left (debit item a T) ps acc))
  = itemShare item' k (perItemSplits acc).
Proof.
  intros Hne. revert acc. induction ps as [|p ps IH]; intros acc; simpl; [reflexivity|].
  rewrite IH. unfold debit. simpl. now apply itemShare_creditItem_other.
Qed.

Lemma fold_debit_sum (item : string) (a T : Q) (ps : list participant) (acc : ledger) :
  ~ In Obj.proto (map name ps) ->
  Qsum (Obj.values (balances (fold_left (debit item a T) ps acc)))
  == Qsum (Obj.values (balances acc)) - a * (Wsum ps / T).
Proof.
  revert acc. induction ps as [|p ps IH]; intros acc Hp; unfold Wsum in *; simpl.
  - unfold Qdiv. ring.
  - simpl in Hp. rewrite IH by tauto. unfold debit. simpl.
    rewrite Qsum_credit by (intros E; apply Hp; left; exact E).
    unfold Qdiv. ring.
Qed.

Lemma fold_debit_keys (item : string) (a T : Q) (k : string)
    (ps : list participant) (acc : ledger) :
  In k (Obj.keys (balances (fold_left (debit item a T) ps acc)))
  <-> In k (Obj.keys (balances acc)) \/ (In k (map name ps) /\ k <> Obj.proto).
Proof.
  revert acc. induction ps as [|p ps IH]; intros acc; simpl; [tauto|].
  rewrite IH. unfold debit. simpl. rewrite keys_credit.
  intuition (subst; auto).
Qed.

Lemma fold_debit_NoDup (item : string) (a T : Q) (ps : list participant) (acc : ledger) :
  NoDup (Obj.keys (balances acc)) ->
  NoDup (Obj.keys (balances (fold_left (debit item a T) ps acc))).
Proof.
  revert acc. induction ps as [|p ps IH]; intros acc H; simpl; [assumption|].
  apply IH. unfold debit. simpl. now apply NoDup_credit.
Qed.

Lemma itemShare_fresh (item k : string) (s : Obj.t (Obj.t Q)) :
  itemShare item k (if Obj.has item s then s else Obj.set item [] s)
  = itemShare item k s.
Proof.
  destruct (String.eqb_spec item Obj.proto) as [->|Hi].
  - rewrite ObjFacts.set_proto. now destruct (Obj.has Obj.proto s).
  - unfold itemShare, Obj.has, Table.has. destruct (Table.get item s) eqn:E; [now rewrite E|].
    fold (Obj.get item (Obj.set item [] s)).
    now rewrite ObjFacts.get_assign_same.
Qed.

Lemma itemShare_fresh_other (item item' k : string) (s : Obj.t (Obj.t Q)) :
  item' <> item ->
  itemShare item' k (if Obj.has item s then s else Obj.set item [] s)
  = itemShare item' k s.
Proof.
  intros Hne. destruct (Obj.has item s); [reflexivity|].
  unfold itemShare. fold (Obj.get item' (Obj.set item [] s)).
  now rewrite ObjFacts.get_assign_other.
Qed.

(** What the payer receives: nothing is stored for [__proto__]. *)
Lemma refund_balance (paidBy k : string) (a : Q) (b : Obj.t Q) :
  k <> Obj.proto ->
  getOr0 k (credit paidBy a b)
  = if (k =? paidBy)%string then getOr0 k b + a else getOr0 k b.
Proof.
  intros Hk. destruct (String.eqb_spec paidBy Obj.proto) as [->|Hp].
  - rewrite credit_proto. destruct (String.eqb_spec k Obj.proto); [congruence | reflexivity].
  - rewrite getOr0_credit by assumption. now destruct (String.eqb_spec k paidBy) as [->|_].
Qed.

Lemma refund_item (item paidBy k : string) (a : Q) (s : Obj.t (Obj.t Q)) :
  item <> Obj.proto -> k <> Obj.proto ->
  itemShare item k (creditItem item paidBy a s)
  = if (k =? paidBy)%string then itemShare item k s + a else itemShare item k s.
Proof.
  intros Hi Hk. destruct (String.eqb_spec paidBy Obj.proto) as [->|Hp].
  - rewrite creditItem_proto.
    destruct (String.eqb_spec k Obj.proto); [congruence | reflexivity].
  - rewrite itemShare_creditItem by assumption.
    now destruct (String.eqb_spec k paidBy) as [->|_].
Qed.

(** Effect of one allocated expense on every balance but that of
    [__proto__], which has none. *)
Lemma allocate_balance (item paidBy : string) (a : Q) (ps : list participant)
    (l : ledger) (k : string) :
  k <> Obj.proto ->
  getOr0 k (balances (allocate item paidBy a ps l))
  == getOr0 k (balances l)
     - owed a (fold_left (fun sum p => sum + weight p) ps 0) k ps
     + (if (k =? paidBy)%string then a else 0).
Proof.
  intros Hk. unfold allocate. cbv zeta. simpl balances.
  rewrite refund_balance by assumption.
  destruct (k =? paidBy)%string; rewrite fold_debit_balance by assumption; simpl; lra.
Qed.

(** Effect of one allocated expense on the split entries of its item. *)
Lemma allocate_item (item paidBy : string) (a : Q) (ps : list participant)
    (l : ledger) (k : string) :
  item <> Obj.proto -> k <> Obj.proto ->
  itemShare item k (perItemSplits (allocate item paidBy a ps l))
  == itemShare item k (perItemSplits l)
     - owed a (fold_left (fun sum p => sum + weight p) ps 0) k ps
     + (if (k =? paidBy)%string then a else 0).
Proof.
  intros Hi Hk. unfold allocate. cbv zeta. simpl perItemSplits.
  rewrite refund_item by assumption.
  destruct (k =? paidBy)%string;
    rewrite fold_debit_item by assumption; simpl; rewrite itemShare_fresh; lra.
Qed.

Lemma allocate_item_other (item item' paidBy : string) (a : Q)
    (ps : list participant) (l : ledger) (k : string) :
  item' <> item ->
  itemShare item' k (perItemSplits (allocate item paidBy a ps l))
  = itemShare item' k (perItemSplits l).
Proof.
  intros Hne. unfold allocate. cbv zeta. simpl perItemSplits.
  rewrite itemShare_creditItem_other, fold_debit_item_other by assumption.
  simpl. now apply itemShare_fresh_other.
Qed.

Lemma allocate_keys (item paidBy : string) (a : Q) (ps : list participant)
    (l : ledger) (k : string) :
  In k (Obj.keys (balances (allocate item paidBy a ps l)))
  <-> In k (Obj.keys (balances l))
      \/ ((In k (map name ps) \/ k = paidBy) /\ k <> Obj.proto).
Proof.
  unfold allocate. cbv zeta. simpl balances. rewrite keys_credit, fold_debit_keys.
  simpl. intuition (subst; auto).
Qed.

Lemma allocate_NoDup (item paidBy : string) (a : Q) (ps : list participant) (l : ledger) :
  NoDup (Obj.keys (balances l)) ->
  NoDup (Obj.keys (balances (allocate item paidBy a ps l))).
Proof.
  intros H. unfold allocate. cbv zeta. simpl balances.
  apply NoDup_credit. now apply fold_debit_NoDup.
Qed.

Lemma allocate_sum (item paidBy : string) (a : Q) (ps : list participant) (l : ledger) :
  Forall (fun p => 0 < weight p) ps -> ps <> [] ->
  paidBy <> Obj.proto -> ~ In Obj.proto (map name ps) ->
  Qsum (Obj.values (balances (allocate item paidBy a ps l)))
  == Qsum (Obj.values (balances l)).
Proof.
  intros Hpos Hne Hp Hps. unfold allocate. cbv zeta. simpl balances.
  rewrite Qsum_credit, fold_debit_sum by assumption. simpl balances.
  pose proof (Wsum_pos ps Hpos Hne) as HW.
  rewrite totalWeight_Wsum.
  setoid_replace (a * (Wsum ps / (0 + Wsum ps))) with a; [lra|].
  field. lra.
Qed.

(** ** One row *)

Lemma truthy_Str (s : string) : s <> "" -> truthy (Str s) = true.
Proof.
  intros H. simpl. unfold Str.nonempty.
  destruct (String.eqb_spec s ""); [contradiction | reflexivity].
Qed.

Lemma beyondModel_split (item paidBy : string) (ps : list participant) (b : Obj.t Q) :
  beyondModel item paidBy ps b
  = beyondModel item paidBy ps [] || Obj.has "hasOwnProperty" b.
Proof. unfold beyondModel. simpl. now rewrite !orb_false_r. Qed.

(** An item label of the model is an own property once it is created. *)
Lemma modelled_item (item paidBy : string) (ps : list participant) (b : Obj.t Q) :
  beyondModel item paidBy ps b = false -> item <> Obj.proto.
Proof.
  unfold beyondModel. intros H E. subst item. discriminate.
Qed.

Lemma processRow_resolved c allMembers l row item paidBy amount ps :
  resolved c allMembers row item paidBy amount ps ->
  Obj.has "hasOwnProperty" (balances l) = false ->
  processRow c allMembers l row = Done (allocate item paidBy amount ps l).
Proof.
  intros [[Hi Hi'] [raw [Hp [Hp' ->]]] Ha Hs Hn Hm] Hh. unfold processRow.
  rewrite Hi, Hp, Ha, Hs, !truthy_Str by assumption. simpl.
  destruct ps; [congruence|]. simpl.
  now rewrite beyondModel_split, Hm, Hh.
Qed.

(** A row either leaves the ledger alone or is allocated. *)
Lemma processRow_Done c allMembers l row l' :
  processRow c allMembers l row = Done l' ->
  l' = l \/ exists item paidBy amount ps,
      resolved c allMembers row item paidBy amount ps
      /\ Obj.has "hasOwnProperty" (balances l) = false
      /\ l' = allocate item paidBy amount ps l.
Proof.
  unfold processRow.
  destruct (truthy (cell row (expensesStartCol c))) eqn:Ei; simpl;
    [|intros H; inversion H; now left].
  destruct (truthy (cell row (paidByColIndex c))) eqn:Ep; simpl;
    [|intros H; inversion H; now left].
  destruct (parseFloat (cell row (amountColIndex c))) as [|a|neg] eqn:Ea; simpl;
    [intros H; inversion H; now left| |].
  - destruct (cell row (paidByColIndex c)) as [|raw|] eqn:Ecp; simpl; try discriminate.
    destruct (getParticipants _ allMembers) as [ps| |] eqn:Eg; simpl; try discriminate.
    destruct ps as [|p ps]; simpl; [intros H; inversion H; now left|].
    destruct (cell row (expensesStartCol c)) as [|item|] eqn:Eci; simpl; try discriminate.
    destruct (beyondModel item (Str.normalize raw) (p :: ps) (balances l)) eqn:Em;
      try discriminate.
    rewrite beyondModel_split in Em. apply orb_false_elim in Em. destruct Em as [Em Eh].
    intros H; inversion H; subst. right.
    exists item, (Str.normalize raw), a, (p :: ps).
    split; [|split; [assumption | reflexivity]].
    split; try assumption; try discriminate.
    + split; [assumption|]. intros ->. discriminate.
    + exists raw. split; [assumption|]. split; [|reflexivity]. intros ->. discriminate.
  - destruct (cell row (paidByColIndex c)) as [|raw|] eqn:Ecp; simpl; try discriminate.
    destruct (getParticipants _ allMembers) as [ps| |] eqn:Eg; simpl; try discriminate.
    destruct ps as [|p ps]; simpl; [intros H; inversion H; now left | discriminate].
Qed.

(** The names of a resolved row. *)
Lemma namesOf_resolved c allMembers row item paidBy amount ps :
  resolved c allMembers row item paidBy amount ps ->
  namesOf c allMembers row = paidBy :: map name ps.
Proof.
  intros [_ [raw [Hp [_ ->]]] _ Hs _ _]. unfold namesOf. now rewrite Hp, Hs.
Qed.

Lemma protoFree_resolved c allMembers row item paidBy amount ps :
  resolved c allMembers row item paidBy amount ps ->
  ~ In Obj.proto (namesOf c allMembers row) ->
  paidBy <> Obj.proto /\ ~ In Obj.proto (map name ps).
Proof.
  intros R. rewrite (namesOf_resolved _ _ _ _ _ _ _ R). simpl. intuition.
Qed.

Lemma processRow_sum c allMembers l row l' :
  ~ In Obj.proto (namesOf c allMembers row) ->
  processRow c allMembers l row = Done l' ->
  Qsum (Obj.values (balances l')) == Qsum (Obj.values (balances l)).
Proof.
  intros Ht H. apply processRow_Done in H.
  destruct H as [->|[item [paidBy [a [ps [R [_ ->]]]]]]]; [reflexivity|].
  destruct (protoFree_resolved _ _ _ _ _ _ _ R Ht) as [Hp Hps].
  apply allocate_sum; try assumption; [|apply (res_nonempty _ _ _ _ _ _ _ R)].
  eapply getParticipants_weights. apply (res_split _ _ _ _ _ _ _ R).
Qed.

Lemma processRows_sum c allMembers rows l l' :
  protoFree c allMembers rows ->
  processRows c allMembers rows l = Done l' ->
  Qsum (Obj.values (balances l')) == Qsum (Obj.values (balances l)).
Proof.
  intros Hf. revert l. induction Hf as [|row rows Hr Hf IH]; simpl; intros l H.
  - inversion H. reflexivity.
  - destruct (processRow c allMembers l row) as [l1| |] eqn:E; simpl in H; try discriminate.
    rewrite (IH _ H). eapply processRow_sum; eassumption.
Qed.

Lemma initialBalances_sum (allMembers : list string) :
  Qsum (Obj.values (initialBalances allMembers)) == 0.
Proof.
  unfold initialBalances.
  assert (G : forall b, (forall k, getOr0 k b == 0) -> Qsum (Obj.values b) == 0 ->
    Qsum (Obj.values (fold_left (fun b name => Obj.set name 0 b) allMembers b)) == 0).
  { induction allMembers as [|m ms IH]; simpl; intros b Hb Hs; [assumption|].
    destruct (String.eqb_spec m Obj.proto) as [->|Hm];
      [rewrite ObjFacts.set_proto; now apply IH|].
    apply IH.
    - intros k. unfold getOr0. fold (Obj.get k (Obj.set m 0 b)).
      destruct (String.eqb_spec k m) as [->|Hne].
      + rewrite ObjFacts.get_assign_same by assumption. reflexivity.
      + rewrite ObjFacts.get_assign_other by assumption. apply Hb.
    - rewrite ObjFacts.Qsum_assign, Hs, Hb by assumption. lra. }
  apply G; [intros k|]; reflexivity.
Qed.

(** ** Conservation *)

(** In exact arithmetic, and as long as nobody is called [__proto__]:
    after any prefix of a batch has been processed on the zeroed balances
    of the known members, the values of the balance table sum to 0. *)
Lemma conservation (data : list (list value)) (c : columns)
    (allMembers : list string) (n : nat) (l : ledger) :
  protoFree c allMembers (tl (firstn n data)) ->
  processExpenses (firstn n data) c allMembers (initialLedger allMembers) = Done l ->
  Qsum (Obj.values (balances l)) == 0.
Proof.
  unfold processExpenses. intros Hf H. apply processRows_sum in H; [|assumption].
  rewrite H. apply initialBalances_sum.
Qed.

(** ** Weighted split *)

Lemma owed_shareOf (a T : Q) (k : string) (ps : list participant) :
  NoDup (map name ps) -> T == Wsum ps ->
  owed a T k ps == shareOf a ps k.
Proof.
  intros Hnd HT. unfold shareOf.
  destruct (find (fun p => (name p =? k)%string) ps) as [p|] eqn:E.
  - apply find_some in E. destruct E as [Hin Hk]. apply String.eqb_eq in Hk. subst k.
    rewrite owed_NoDup by assumption. rewrite HT. unfold Qdiv. ring.
  - rewrite owed_absent; [reflexivity|].
    intros Hin. apply in_map_iff in Hin. destruct Hin as [p [Hp Hin]].
    apply (find_none _ _ E) in Hin. subst k. now rewrite String.eqb_refl in Hin.
Qed.

Lemma allocate_spec (item paidBy : string) (a : Q) (ps : list participant)
    (l : ledger) (k : string) :
  NoDup (map name ps) -> item <> Obj.proto -> k <> Obj.proto ->
  getOr0 k (balances (allocate item paidBy a ps l))
    == getOr0 k (balances l) - shareOf a ps k + refundOf a paidBy k
  /\ itemShare item k (perItemSplits (allocate item paidBy a ps l))
    == itemShare item k (perItemSplits l) - shareOf a ps k + refundOf a paidBy k.
Proof.
  intros Hnd Hi Hk. rewrite allocate_balance, allocate_item by assumption.
  unfold refundOf.
  rewrite !owed_shareOf; try assumption; try (rewrite totalWeight_Wsum; lra).
  split; reflexivity.
Qed.

(** In exact arithmetic, a row that passes the guards debits every
    participant [amount * weight / totalWeight] and credits the payer the
    full amount, in the balances and in the split entries of the item
    alike, whether or not the payer takes part.  This holds of every name
    but [__proto__]. *)
Lemma weighted_split c allMembers l row item paidBy amount ps :
  NoDup allMembers ->
  resolved c allMembers row item paidBy amount ps ->
  Obj.has "hasOwnProperty" (balances l) = false ->
  exists l',
    processRow c allMembers l row = Done l'
    /\ forall k, k <> Obj.proto ->
        getOr0 k (balances l')
          == getOr0 k (balances l) - shareOf amount ps k + refundOf amount paidBy k
        /\ itemShare item k (perItemSplits l')
          == itemShare item k (perItemSplits l) - shareOf amount ps k
             + refundOf amount paidBy k.
Proof.
  intros Hnd R Hh.
  exists (allocate item paidBy amount ps l). split.
  - now apply processRow_resolved.
  - intros k Hk. apply allocate_spec; try assumption.
    + eapply getParticipants_NoDup; [exact Hnd | apply (res_split _ _ _ _ _ _ _ R)].
    + eapply modelled_item. apply (res_modelled _ _ _ _ _ _ _ R).
Qed.

Lemma NoDup_members : NoDup Example.members.
Proof.
  unfold Example.members.
  repeat constructor; simpl; intuition discriminate.
Defined.

Lemma taxi_resolved :
  resolved Example.cols Example.members Example.taxi "Taxi" "bob" 100
    [{| name := "alice"; weight := 3 |}; {| name := "bob"; weight := 1 |}].
Proof.
  split.
  - split; [reflexivity | discriminate].
  - exists "Bob". repeat split. discriminate.
  - reflexivity.
  - reflexivity.
  - discriminate.
  - reflexivity.
Defined.

(** The example of the specification: 100 paid by Bob and split
    [Alice:3,Bob:1] gives Alice a share of 75 and leaves Bob 100 - 25 up
    on the item. *)
Lemma weighted_example :
  processExpenses [Example.header; Example.taxi] Example.cols Example.members
    (initialLedger Example.members) = Done Example.afterTaxi
  /\ shareOf 100 [{| name := "alice"; weight := 3 |}; {| name := "bob"; weight := 1 |}]
       "alice" == 75
  /\ itemShare "Taxi" "alice" (perItemSplits Example.afterTaxi) == - (75)
  /\ itemShare "Taxi" "bob" (perItemSplits Example.afterTaxi) == 100 - 25
  /\ getOr0 "alice" (balances Example.afterTaxi) == - (75)
  /\ getOr0 "bob" (balances Example.afterTaxi) == 75.
Proof. repeat split; vm_compute; reflexivity. Qed.

(** ** Rounding to two decimals *)

Lemma Qltb_lt (x y : Q) : Qltb x y = true <-> x < y.
Proof.
  unfold Qltb. rewrite negb_true_iff. split.
  - intros H. destruct (Qlt_le_dec x y) as [|Hle]; [assumption|].
    apply Qle_bool_iff in Hle. congruence.
  - intros H. destruct (Qle_bool y x) eqn:E; [|reflexivity].
    apply Qle_bool_iff in E. lra.
Qed.

Lemma Qltb_ge (x y : Q) : Qltb x y = false <-> y <= x.
Proof.
  unfold Qltb. rewrite negb_false_iff. apply Qle_bool_iff.
Qed.

Lemma Qfloor_unique (x : Q) (z : Z) :
  inject_Z z <= x -> x < inject_Z (z + 1) -> Qfloor x = z.
Proof.
  intros Hlo Hhi.
  pose proof (Qfloor_le x) as H1. pose proof (Qlt_floor x) as H2.
  assert (A : (Qfloor x < z + 1)%Z).
  { rewrite Zlt_Qlt. lra. }
  assert (B : (z < Qfloor x + 1)%Z).
  { rewrite Zlt_Qlt. lra. }
  lia.
Qed.

Lemma hundredths (n : Z) : n # 100 == inject_Z n * (1 # 100).
Proof. unfold Qeq, Qmult, inject_Z. simpl. lia. Qed.

Lemma toFixed2_cents (x : Q) : cents (toFixed2 x).
Proof.
  unfold toFixed2. destruct (Qltb x 0); eexists; reflexivity.
Qed.

Lemma toFixed2_near (x : Q) : Qabs (toFixed2 x - x) <= 1 # 200.
Proof.
  unfold toFixed2.
  pose proof (Qfloor_le (Qabs x * 100 + (1 # 2))) as H1.
  pose proof (Qlt_floor (Qabs x * 100 + (1 # 2))) as H2.
  set (n := Qfloor (Qabs x * 100 + (1 # 2))) in *. clearbody n.
  rewrite inject_Z_plus in H2. change (inject_Z 1) with 1 in H2.
  apply Qabs_Qle_condition.
  destruct (Qltb x 0) eqn:E.
  - apply Qltb_lt in E. rewrite Qabs_neg in H1, H2 by lra.
    rewrite hundredths, inject_Z_opp. lra.
  - apply Qltb_ge in E. rewrite Qabs_pos in H1, H2 by lra.
    rewrite hundredths. lra.
Qed.

Lemma toFixed2_of_cents (q : Q) : cents q -> toFixed2 q == q.
Proof.
  intros [z Hz]. unfold toFixed2.
  rewrite hundredths in Hz.
  destruct (Qltb q 0) eqn:E.
  - apply Qltb_lt in E.
    assert (F : Qfloor (Qabs q * 100 + (1 # 2)) = (- z)%Z).
    { apply Qfloor_unique; rewrite Qabs_neg by lra;
        rewrite ?inject_Z_plus, inject_Z_opp; change (inject_Z 1) with 1; lra. }
    rewrite F, Z.opp_involutive, hundredths. lra.
  - apply Qltb_ge in E.
    assert (F : Qfloor (Qabs q * 100 + (1 # 2)) = z).
    { apply Qfloor_unique; rewrite Qabs_pos by lra;
        rewrite ?inject_Z_plus; change (inject_Z 1) with 1; lra. }
    rewrite F, hundredths. lra.
Qed.

Lemma cents_minus (x y : Q) : cents x -> cents y -> cents (x - y).
Proof.
  intros [a Ha] [b Hb]. exists (a - b)%Z.
  rewrite Ha, Hb, (hundredths a), (hundredths b), (hundredths (a - b)).
  unfold Z.sub. rewrite inject_Z_plus, inject_Z_opp. ring.
Qed.

Lemma cents_opp (x : Q) : cents x -> cents (- x).
Proof.
  intros [a Ha]. exists (- a)%Z.
  rewrite Ha, (hundredths a), (hundredths (- a)), inject_Z_opp. ring.
Qed.

Lemma cents_comp (x y : Q) : x == y -> cents x -> cents y.
Proof. intros E [a Ha]. exists a. now rewrite <- E. Qed.

(** A positive number of hundredths is at least one hundredth. *)
Lemma cents_step (x : Q) : cents x -> 0 < x -> 1 # 100 <= x.
Proof.
  intros [a Ha] Hpos. rewrite hundredths in Ha.
  assert (0 < inject_Z a) as H by lra.
  change 0 with (inject_Z 0) in H. rewrite <- Zlt_Qlt in H.
  assert (inject_Z 1 <= inject_Z a) as H' by (rewrite <- Zle_Qle; lia).
  change (inject_Z 1) with 1 in H'. lra.
Qed.

Lemma Math_min_cases (x y : Q) :
  (x <= y /\ Math_min x y = x) \/ (y < x /\ Math_min x y = y).
Proof.
  unfold Math_min. destruct (Qle_bool x y) eqn:E.
  - left. split; [now apply Qle_bool_iff | reflexivity].
  - right. split; [|reflexivity].
    destruct (Qlt_le_dec y x) as [|H]; [assumption|].
    apply Qle_bool_iff in H. congruence.
Qed.

(** ** Sorting the parties *)

Module SettleFacts.
Import Settle.

Lemma insert_perm (p : party) (l : list party) : Permutation (insert p l) (p :: l).
Proof.
  induction l as [|q l IH]; simpl; [reflexivity|].
  destruct (Qltb (amount p) (amount q)); [|reflexivity].
  rewrite IH. apply perm_swap.
Qed.

Lemma sortDesc_perm (l : list party) : Permutation (sortDesc l) l.
Proof.
  induction l as [|p l IH]; simpl; [reflexivity|].
  rewrite insert_perm. now constructor.
Qed.

Lemma insert_sorted (p : party) (l : list party) :
  StronglySorted above l -> StronglySorted above (insert p l).
Proof.
  induction l as [|q l IH]; simpl; intros Hs.
  - repeat constructor.
  - apply StronglySorted_inv in Hs. destruct Hs as [Hl Hq].
    destruct (Qltb (amount p) (amount q)) eqn:E.
    + constructor; [now apply IH|].
      eapply Permutation_Forall; [symmetry; apply insert_perm|].
      constructor; [|assumption]. apply Qltb_lt in E. unfold above. lra.
    + apply Qltb_ge in E. constructor; [now constructor|].
      constructor; [exact E|].
      eapply Forall_impl; [|exact Hq]. unfold above. intros r Hr. lra.
Qed.

Lemma sortDesc_sorted (l : list party) : StronglySorted above (sortDesc l).
Proof.
  induction l as [|p l IH]; simpl; [constructor | now apply insert_sorted].
Qed.

(** The head of the sorted array is a party with the largest amount. *)
Lemma sortDesc_head (l : list party) (c : party) (cs : list party) :
  sortDesc l = c :: cs ->
  Permutation l (c :: cs) /\ Forall (fun p => amount p <= amount c) cs.
Proof.
  intros E. split.
  - rewrite <- E. symmetry. apply sortDesc_perm.
  - pose proof (sortDesc_sorted l) as Hs. rewrite E in Hs.
    apply StronglySorted_inv in Hs. exact (proj2 Hs).
Qed.

Lemma sortDesc_nonempty (l : list party) : l <> [] -> sortDesc l <> [].
Proof.
  intros Hne E. apply Hne. apply Permutation_nil.
  rewrite <- E. apply sortDesc_perm.
Qed.

(** *** Sums are insensitive to the order *)

Lemma Qsum_perm (l l' : list Q) : Permutation l l' -> Qsum l == Qsum l'.
Proof.
  induction 1; simpl; lra.
Qed.

Lemma total_perm (l l' : list party) : Permutation l l' -> total l == total l'.
Proof.
  intros H. unfold total. apply Qsum_perm. now apply Permutation_map.
Qed.

Lemma due_perm fmt x (l l' : list party) :
  Permutation l l' -> due fmt x l == due fmt x l'.
Proof.
  intros H. unfold due. apply total_perm.
  induction H; simpl.
  - reflexivity.
  - destruct (fmt (name x0) =? x)%string; [now constructor | assumption].
  - destruct (fmt (name x0) =? x)%string, (fmt (name y) =? x)%string;
      try reflexivity. apply perm_swap.
  - etransitivity; eassumption.
Qed.

Lemma sound_perm (l l' : list party) : Permutation l l' -> sound l -> sound l'.
Proof. intros H. unfold sound. apply Permutation_Forall. exact H. Qed.

Lemma total_cons (p : party) (l : list party) : total (p :: l) = amount p + total l.
Proof. reflexivity. Qed.

Lemma due_cons fmt x (p : party) (l : list party) :
  due fmt x (p :: l)
  = if (fmt (name p) =? x)%string then amount p + due fmt x l else due fmt x l.
Proof. unfold due. simpl. now destruct (fmt (name p) =? x)%string. Qed.

Lemma sound_total (l : list party) : sound l -> 0 <= total l.
Proof.
  induction 1 as [|p l [_ Hp] _ IH]; [unfold total; simpl; lra|].
  rewrite total_cons. lra.
Qed.

Lemma sound_total_zero (l : list party) : sound l -> total l == 0 -> l = [].
Proof.
  intros Hs Ht. destruct Hs as [|p l [_ Hp] Hl]; [reflexivity|].
  rewrite total_cons in Ht. pose proof (sound_total l Hl). lra.
Qed.

End SettleFacts.

(** ** One iteration of the settlement loop *)

(** Sums over filtered lists are atoms for [lra]. *)
Ltac hide_sums :=
  repeat (let u := fresh "u" in set (u := Qsum _) in *; clearbody u).

Module LoopFacts.
Import Settle SettleFacts.

Lemma received_snoc x (txs : list transaction) (t : transaction) :
  received x (txs ++ [t])
  == received x txs + (if (snd (fst t) =? x)%string then snd t else 0).
Proof.
  unfold received. rewrite filter_app, map_app, TableFacts.Qsum_app. simpl.
  destruct (snd (fst t) =? x)%string; simpl; hide_sums; lra.
Qed.

Lemma paidOut_snoc x (txs : list transaction) (t : transaction) :
  paidOut x (txs ++ [t])
  == paidOut x txs + (if (fst (fst t) =? x)%string then snd t else 0).
Proof.
  unfold paidOut. rewrite filter_app, map_app, TableFacts.Qsum_app. simpl.
  destruct (fst (fst t) =? x)%string; simpl; hide_sums; lra.
Qed.

Lemma transferred_snoc (txs : list transaction) (t : transaction) :
  transferred (txs ++ [t]) == transferred txs + snd t.
Proof.
  unfold transferred. rewrite map_app, TableFacts.Qsum_app. simpl. hide_sums. lra.
Qed.

Lemma conserves_refl fmt st : conserves fmt st st.
Proof. split; intros; reflexivity. Qed.

Lemma conserves_trans fmt st1 st2 st3 :
  conserves fmt st1 st2 -> conserves fmt st2 st3 -> conserves fmt st1 st3.
Proof.
  intros [A1 B1 C1 D1] [A2 B2 C2 D2]. split; intros.
  - rewrite A2. apply A1.
  - rewrite B2. apply B1.
  - rewrite C2. apply C1.
  - rewrite D2. apply D1.
Qed.

Lemma shifted_spec (p : party) (m : Q) (rest : list party) :
  cents (amount p) -> cents m -> 0 <= m -> m <= amount p -> sound rest ->
  sound (shifted p m rest)
  /\ total (shifted p m rest) + m == total (p :: rest)
  /\ (forall fmt x,
         due fmt x (shifted p m rest) + (if (fmt (name p) =? x)%string then m else 0)
         == due fmt x (p :: rest))
  /\ (List.length (shifted p m rest) <= S (List.length rest))%nat
  /\ (amount p == m -> shifted p m rest = rest).
Proof.
  intros Hp Hm Hm0 Hle Hrest. unfold shifted.
  pose proof (cents_minus _ _ Hp Hm) as Hc.
  destruct (Qltb (amount p - m) (1 # 100)) eqn:E.
  - apply Qltb_lt in E.
    assert (Hz : amount p - m == 0).
    { destruct (Qlt_le_dec 0 (amount p - m)) as [Hpos|Hnp]; [|lra].
      pose proof (cents_step _ Hc Hpos). lra. }
    repeat split; try assumption.
    + rewrite total_cons. lra.
    + intros fmt x. rewrite due_cons.
      destruct (fmt (name p) =? x)%string; lra.
    + lia.
  - apply Qltb_ge in E. repeat split.
    + constructor; [split; assumption | assumption].
    + rewrite !total_cons. simpl. lra.
    + intros fmt x. rewrite !due_cons. simpl.
      destruct (fmt (name p) =? x)%string; lra.
    + simpl. lia.
    + intros Heq. lra.
Qed.

Lemma continues_true (fmt : string -> string) (st : state) :
  continues st = true -> creditors st <> [] /\ debtors st <> [].
Proof.
  unfold continues. destruct (debtors st), (creditors st); simpl;
    try discriminate. intros _. split; discriminate.
Qed.

Lemma continues_false (st : state) :
  continues st = false -> creditors st = [] \/ debtors st = [].
Proof.
  unfold continues. destruct (debtors st), (creditors st); simpl; auto.
  discriminate.
Qed.

(** The iteration, read on the sorted arrays. *)
Lemma iterate_eq fmt (st : state) :
  continues st = true ->
  exists c cs d ds,
    sortDesc (creditors st) = c :: cs /\ sortDesc (debtors st) = d :: ds
    /\ iterate fmt st =
       {| creditors := shifted c (Math_min (amount d) (amount c)) cs;
          debtors := shifted d (Math_min (amount d) (amount c)) ds;
          transactions := transactions st ++
            [(fmt (name d), fmt (name c), toFixed2 (Math_min (amount d) (amount c)))] |}.
Proof.
  intros H. apply (continues_true fmt) in H. destruct H as [Hc Hd].
  apply sortDesc_nonempty in Hc, Hd. unfold iterate.
  destruct (sortDesc (creditors st)) as [|c cs]; [congruence|].
  destruct (sortDesc (debtors st)) as [|d ds]; [congruence|].
  exists c, cs, d, ds. repeat split.
Qed.

Lemma iterate_spec fmt (st : state) :
  sound (creditors st) -> sound (debtors st) -> continues st = true ->
  sound (creditors (iterate fmt st)) /\ sound (debtors (iterate fmt st))
  /\ conserves fmt st (iterate fmt st)
  /\ (List.length (creditors (iterate fmt st)) + List.length (debtors (iterate fmt st))
      < List.length (creditors st) + List.length (debtors st))%nat.
Proof.
  intros Sc Sd Hcont.
  destruct (iterate_eq fmt st Hcont) as [c [cs [d [ds [Ec [Ed ->]]]]]].
  apply sortDesc_head in Ec, Ed. destruct Ec as [Pc _], Ed as [Pd _].
  pose proof (sound_perm _ _ Pc Sc) as Sc'. pose proof (sound_perm _ _ Pd Sd) as Sd'.
  inversion Sc' as [|? ? [Cc Lc] Scs]; subst. inversion Sd' as [|? ? [Cd Ld] Sds]; subst.
  set (m := Math_min (amount d) (amount c)).
  assert (Hm : cents m /\ 0 <= m /\ m <= amount c /\ m <= amount d
               /\ (amount c == m \/ amount d == m)).
  { unfold m. destruct (Math_min_cases (amount d) (amount c)) as [[Hle ->]|[Hlt ->]].
    - repeat split; try assumption; lra.
    - repeat split; try assumption; lra. }
  destruct Hm as [Cm [M0 [Mc [Md Mz]]]].
  destruct (shifted_spec c m cs Cc Cm M0 Mc Scs) as [A1 [A2 [A3 [A4 A5]]]].
  destruct (shifted_spec d m ds Cd Cm M0 Md Sds) as [B1 [B2 [B3 [B4 B5]]]].
  pose proof (toFixed2_of_cents m Cm) as Hfix.
  simpl creditors. simpl debtors. simpl transactions.
  split; [assumption|]. split; [assumption|]. split.
  - split; simpl creditors; simpl debtors; simpl transactions.
    + intros x. rewrite received_snoc. simpl fst. simpl snd.
      pose proof (due_perm fmt x _ _ Pc) as Hp. pose proof (A3 fmt x) as Ha.
      revert Ha. destruct (fmt (name c) =? x)%string; intros Ha; lra.
    + intros x. rewrite paidOut_snoc. simpl fst. simpl snd.
      pose proof (due_perm fmt x _ _ Pd) as Hp. pose proof (B3 fmt x) as Hb.
      revert Hb. destruct (fmt (name d) =? x)%string; intros Hb; lra.
    + rewrite transferred_snoc. simpl snd.
      pose proof (total_perm _ _ Pc) as Hp. lra.
    + rewrite transferred_snoc. simpl snd.
      pose proof (total_perm _ _ Pd) as Hp. lra.
  - rewrite (Permutation_length Pc), (Permutation_length Pd). simpl.
    destruct Mz as [Hz|Hz].
    + rewrite (A5 Hz). lia.
    + rewrite (B5 Hz). lia.
Qed.

Lemma loop_spec fmt (fuel : nat) (st : state) :
  sound (creditors st) -> sound (debtors st) ->
  sound (creditors (loop fmt fuel st)) /\ sound (debtors (loop fmt fuel st))
  /\ conserves fmt st (loop fmt fuel st)
  /\ ((List.length (creditors st) + List.length (debtors st) <= fuel)%nat ->
      continues (loop fmt fuel st) = false).
Proof.
  revert st. induction fuel as [|fuel IH]; intros st Sc Sd; simpl.
  - split; [assumption|]. split; [assumption|]. split; [apply conserves_refl|].
    intros Hlen. unfold continues.
    destruct (debtors st), (creditors st); simpl in *; try reflexivity; lia.
  - destruct (continues st) eqn:Hcont.
    + destruct (iterate_spec fmt st Sc Sd Hcont) as [Sc' [Sd' [Hk Hlt]]].
      destruct (IH _ Sc' Sd') as [Sc2 [Sd2 [Hk2 Hex]]].
      split; [assumption|]. split; [assumption|].
      split; [eapply conserves_trans; eassumption|].
      intros Hlen. apply Hex. lia.
    + split; [assumption|]. split; [assumption|]. split; [apply conserves_refl|].
      intros _. exact Hcont.
Qed.

End LoopFacts.

(** ** The settlement as a whole *)

Module MinimizeFacts.
Import Settle SettleFacts LoopFacts.

Lemma sound_creditorsOf (entries : Table.t Q) : sound (creditorsOf entries).
Proof.
  unfold sound, creditorsOf. apply Forall_forall. intros p Hp.
  apply in_flat_map in Hp. destruct Hp as [e [_ Hp]]. cbv zeta in Hp.
  destruct (Qltb (1 # 100) (toFixed2 (snd e))) eqn:E; [|contradiction].
  destruct Hp as [<-|[]]. simpl. apply Qltb_lt in E.
  split; [apply toFixed2_cents | lra].
Qed.

Lemma sound_debtorsOf (entries : Table.t Q) : sound (debtorsOf entries).
Proof.
  unfold sound, debtorsOf. apply Forall_forall. intros p Hp.
  apply in_flat_map in Hp. destruct Hp as [e [_ Hp]]. cbv zeta in Hp.
  destruct (Qltb (1 # 100) (toFixed2 (snd e))); [contradiction|].
  destruct (Qltb (toFixed2 (snd e)) (- (1 # 100))) eqn:E; [|contradiction].
  destruct Hp as [<-|[]]. simpl. apply Qltb_lt in E.
  split; [apply cents_opp, toFixed2_cents | lra].
Qed.

(** The loop has really left: one of the two arrays is empty. *)
Lemma loop_exits fmt (entries : Table.t Q) :
  continues (finish fmt entries) = false.
Proof.
  unfold finish.
  apply (loop_spec fmt _ (start entries)); simpl;
    [apply sound_creditorsOf | apply sound_debtorsOf | lia].
Qed.

Lemma finish_conserves fmt (entries : Table.t Q) :
  conserves fmt (start entries) (finish fmt entries)
  /\ sound (creditors (finish fmt entries)) /\ sound (debtors (finish fmt entries)).
Proof.
  unfold finish.
  destruct (loop_spec fmt
              (List.length (creditors (start entries))
               + List.length (debtors (start entries)))
              (start entries)) as [A [B [C _]]]; simpl;
    [apply sound_creditorsOf | apply sound_debtorsOf | auto].
Qed.

(** With equal sums on the two sides, both arrays end empty. *)
Lemma finish_empty fmt (entries : Table.t Q) :
  total (creditorsOf entries) == total (debtorsOf entries) ->
  creditors (finish fmt entries) = [] /\ debtors (finish fmt entries) = [].
Proof.
  intros Heq. destruct (finish_conserves fmt entries) as [[_ _ Kc Kd] [Sc Sd]].
  cbn [start creditors debtors transactions] in Kc, Kd.
  change (transferred []) with 0 in Kc, Kd.
  assert (Hsame : total (creditors (finish fmt entries))
                  == total (debtors (finish fmt entries))) by lra.
  destruct (continues_false _ (loop_exits fmt entries)) as [E|E].
  - split; [assumption|]. apply sound_total_zero; [assumption|].
    rewrite <- Hsame, E. reflexivity.
  - split; [|assumption]. apply sound_total_zero; [assumption|].
    rewrite Hsame, E. reflexivity.
Qed.

Lemma due_app fmt x (l l' : list party) :
  due fmt x (l ++ l') == due fmt x l + due fmt x l'.
Proof.
  unfold due, total. rewrite filter_app, map_app. apply TableFacts.Qsum_app.
Qed.

Lemma due_creditors_absent fmt x (entries : Table.t Q) :
  ~ In x (map fmt (Table.keys entries)) -> due fmt x (creditorsOf entries) == 0.
Proof.
  induction entries as [|e es IH]; simpl; intros Hx; [reflexivity|].
  rewrite due_app, IH by tauto.
  destruct (Qltb (1 # 100) (toFixed2 (snd e))); [|reflexivity].
  rewrite due_cons. simpl.
  destruct (String.eqb_spec (fmt (fst e)) x); [tauto | reflexivity].
Qed.

Lemma due_debtors_absent fmt x (entries : Table.t Q) :
  ~ In x (map fmt (Table.keys entries)) -> due fmt x (debtorsOf entries) == 0.
Proof.
  induction entries as [|e es IH]; simpl; intros Hx; [reflexivity|].
  rewrite due_app, IH by tauto.
  destruct (Qltb (1 # 100) (toFixed2 (snd e))); [reflexivity|].
  destruct (Qltb (toFixed2 (snd e)) (- (1 # 100))); [|reflexivity].
  rewrite due_cons. simpl.
  destruct (String.eqb_spec (fmt (fst e)) x); [tauto | reflexivity].
Qed.

Lemma due_creditorsOf fmt (entries : Table.t Q) (e : string * Q) :
  NoDup (map fmt (Table.keys entries)) -> In e entries ->
  due fmt (fmt (fst e)) (creditorsOf entries)
  == if Qltb (1 # 100) (toFixed2 (snd e)) then toFixed2 (snd e) else 0.
Proof.
  induction entries as [|e0 es IH]; simpl; intros Hnd Hin; [contradiction|].
  inversion Hnd as [|? ? Hfresh Hnd']; subst. rewrite due_app.
  destruct Hin as [->|Hin].
  - rewrite due_creditors_absent by assumption.
    destruct (Qltb (1 # 100) (toFixed2 (snd e))); [|reflexivity].
    rewrite due_cons. simpl. rewrite String.eqb_refl. unfold due, total. simpl. lra.
  - rewrite IH by assumption.
    assert (Hne : fmt (fst e0) <> fmt (fst e)).
    { intros E. apply Hfresh. rewrite E. unfold Table.keys.
      rewrite map_map. apply (in_map (fun x => fmt (fst x))). assumption. }
    destruct (Qltb (1 # 100) (toFixed2 (snd e0))); [|unfold due, total; simpl; lra].
    rewrite due_cons. simpl.
    destruct (String.eqb_spec (fmt (fst e0)) (fmt (fst e))); [contradiction|].
    unfold due, total. simpl. lra.
Qed.

Lemma due_debtorsOf fmt (entries : Table.t Q) (e : string * Q) :
  NoDup (map fmt (Table.keys entries)) -> In e entries ->
  due fmt (fmt (fst e)) (debtorsOf entries)
  == if Qltb (1 # 100) (toFixed2 (snd e)) then 0
     else if Qltb (toFixed2 (snd e)) (- (1 # 100)) then - toFixed2 (snd e) else 0.
Proof.
  induction entries as [|e0 es IH]; simpl; intros Hnd Hin; [contradiction|].
  inversion Hnd as [|? ? Hfresh Hnd']; subst. rewrite due_app.
  destruct Hin as [->|Hin].
  - rewrite due_debtors_absent by assumption.
    destruct (Qltb (1 # 100) (toFixed2 (snd e))); [reflexivity|].
    destruct (Qltb (toFixed2 (snd e)) (- (1 # 100))); [|reflexivity].
    rewrite due_cons. simpl. rewrite String.eqb_refl. unfold due, total. simpl. lra.
  - rewrite IH by assumption.
    assert (Hne : fmt (fst e0) <> fmt (fst e)).
    { intros E. apply Hfresh. rewrite E. unfold Table.keys.
      rewrite map_map. apply (in_map (fun x => fmt (fst x))). assumption. }
    destruct (Qltb (1 # 100) (toFixed2 (snd e0))); [unfold due, total; simpl; lra|].
    destruct (Qltb (toFixed2 (snd e0)) (- (1 # 100))); [|unfold due, total; simpl; lra].
    rewrite due_cons. simpl.
    destruct (String.eqb_spec (fmt (fst e0)) (fmt (fst e))); [contradiction|].
    unfold due, total. simpl. lra.
Qed.

(** Settlement for any way of displaying keys that keeps them apart. *)
Lemma settlement fmt (entries : Table.t Q) :
  NoDup (map fmt (Table.keys entries)) ->
  total (creditorsOf entries) == total (debtorsOf entries) ->
  transferred (minimize fmt entries) == total (creditorsOf entries)
  /\ forall e, In e entries ->
       (1 # 100 < Qabs (toFixed2 (snd e)) ->
          settled fmt (minimize fmt entries) e == snd e - toFixed2 (snd e)
          /\ Qabs (settled fmt (minimize fmt entries) e) <= 1 # 200)
       /\ (Qabs (toFixed2 (snd e)) <= 1 # 100 ->
          settled fmt (minimize fmt entries) e == snd e
          /\ Qabs (snd e) <= 3 # 200).
Proof.
  intros Hnd Heq.
  destruct (finish_conserves fmt entries) as [[Kr Kp Kc _] _].
  destruct (finish_empty fmt entries Heq) as [Ec Ed].
  unfold minimize. cbn [start creditors debtors transactions] in Kr, Kp, Kc.
  rewrite Ec in Kr, Kc. rewrite Ed in Kp.
  split.
  - change (total []) with 0 in Kc. change (transferred []) with 0 in Kc. lra.
  - intros e He. unfold settled.
    pose proof (Kr (fmt (fst e))) as R. pose proof (Kp (fmt (fst e))) as P.
    rewrite due_creditorsOf in R by assumption.
    rewrite due_debtorsOf in P by assumption.
    change (due fmt (fmt (fst e)) []) with 0 in R, P.
    change (received (fmt (fst e)) []) with 0 in R.
    change (paidOut (fmt (fst e)) []) with 0 in P.
    pose proof (toFixed2_near (snd e)) as Hn. apply Qabs_Qle_condition in Hn.
    revert R P.
    destruct (Qltb (1 # 100) (toFixed2 (snd e))) eqn:E1;
      [apply Qltb_lt in E1 | apply Qltb_ge in E1;
       destruct (Qltb (toFixed2 (snd e)) (- (1 # 100))) eqn:E2;
       [apply Qltb_lt in E2 | apply Qltb_ge in E2]]; intros R P.
    + split; intros H.
      * split; [lra|]. apply Qabs_Qle_condition. lra.
      * apply Qabs_Qle_condition in H. lra.
    + split; intros H.
      * split; [lra|]. apply Qabs_Qle_condition. lra.
      * apply Qabs_Qle_condition in H. lra.
    + split; intros H.
      * exfalso. revert H. apply Qle_not_lt. apply Qabs_Qle_condition. lra.
      * split; [lra|]. apply Qabs_Qle_condition. lra.
Qed.

End MinimizeFacts.

(** ** Settlement correctness *)

Lemma transferred_min fmt (entries : Table.t Q) :
  let C := total (Settle.creditorsOf entries) in
  let D := total (Settle.debtorsOf entries) in
  (transferred (Settle.minimize fmt entries) == C /\ C <= D)
  \/ (transferred (Settle.minimize fmt entries) == D /\ D <= C).
Proof.
  cbv zeta.
  destruct (MinimizeFacts.finish_conserves fmt entries) as [[_ _ Kc Kd] [Sc Sd]].
  cbn [Settle.start Settle.creditors Settle.debtors Settle.transactions] in Kc, Kd.
  change (transferred []) with 0 in Kc, Kd. unfold Settle.minimize.
  pose proof (SettleFacts.sound_total _ Sc). pose proof (SettleFacts.sound_total _ Sd).
  destruct (LoopFacts.continues_false _ (MinimizeFacts.loop_exits fmt entries)) as [E|E];
    rewrite E in *; change (total []) with 0 in *; [left | right]; split; lra.
Qed.

(** The minimizers in exact arithmetic ([Settle]).  When the rounded
    creditor amounts and the rounded debtor amounts have the same sum and
    the displayed names are distinct, paying every returned transaction
    (the amount added to the balance of its [from] party and taken from
    the balance of its [to] party) leaves every creditor and debtor within
    0.005 of zero and every other party untouched, within 0.015 of zero;
    the amounts transferred sum to the rounded creditor sum.  In any case
    they sum to the smaller of the two rounded sums.  This holds for
    members and for subgroups.  On doubles it does not: see
    [Example.leftover]. *)
Theorem settlement_within_rounding :
  (forall balances : Table.t Q,
      NoDup (map Str.capitalize (Table.keys balances)) ->
      total (Settle.creditorsOf balances) == total (Settle.debtorsOf balances) ->
      let txs := Settle.generateMinimalMemberTransactions balances in
      transferred txs == total (Settle.creditorsOf balances)
      /\ forall e, In e balances ->
           (1 # 100 < Qabs (toFixed2 (snd e)) ->
              settled Str.capitalize txs e == snd e - toFixed2 (snd e)
              /\ Qabs (settled Str.capitalize txs e) <= 1 # 200)
           /\ (Qabs (toFixed2 (snd e)) <= 1 # 100 ->
              settled Str.capitalize txs e == snd e /\ Qabs (snd e) <= 3 # 200))
  /\ (forall groupBalances : Table.t Q,
      NoDup (map Str.formatGroup (Table.keys groupBalances)) ->
      total (Settle.creditorsOf groupBalances) == total (Settle.debtorsOf groupBalances) ->
      let txs := Settle.generateMinimalSubgroupTransactions groupBalances in
      transferred txs == total (Settle.creditorsOf groupBalances)
      /\ forall e, In e groupBalances ->
           (1 # 100 < Qabs (toFixed2 (snd e)) ->
              settled Str.formatGroup txs e == snd e - toFixed2 (snd e)
              /\ Qabs (settled Str.formatGroup txs e) <= 1 # 200)
           /\ (Qabs (toFixed2 (snd e)) <= 1 # 100 ->
              settled Str.formatGroup txs e == snd e /\ Qabs (snd e) <= 3 # 200))
  /\ (forall entries : Table.t Q,
      let C := total (Settle.creditorsOf entries) in
      let D := total (Settle.debtorsOf entries) in
      ((transferred (Settle.generateMinimalMemberTransactions entries) == C /\ C <= D)
       \/ (transferred (Settle.generateMinimalMemberTransactions entries) == D /\ D <= C))
      /\ ((transferred (Settle.generateMinimalSubgroupTransactions entries) == C /\ C <= D)
          \/ (transferred (Settle.generateMinimalSubgroupTransactions entries) == D /\ D <= C))).
Proof.
  split; [|split].
  - intros balances Hnd Heq. apply MinimizeFacts.settlement; assumption.
  - intros groupBalances Hnd Heq. apply MinimizeFacts.settlement; assumption.
  - intros entries. split; apply transferred_min.
Qed.

Lemma settlement_within_rounding_witness :
  let txs := Settle.generateMinimalMemberTransactions (balances Example.afterLunch) in
  transferred txs == total (Settle.creditorsOf (balances Example.afterLunch))
  /\ forall e, In e (balances Example.afterLunch) ->
       (1 # 100 < Qabs (toFixed2 (snd e)) ->
          settled Str.capitalize txs e == snd e - toFixed2 (snd e)
          /\ Qabs (settled Str.capitalize txs e) <= 1 # 200)
       /\ (Qabs (toFixed2 (snd e)) <= 1 # 100 ->
          settled Str.capitalize txs e == snd e /\ Qabs (snd e) <= 3 # 200).
Proof.
  apply (proj1 settlement_within_rounding (balances Example.afterLunch)).
  - simpl. repeat constructor; simpl; intuition discriminate.
  - vm_compute. reflexivity.
Defined.

(** Parties within 0.01 of zero are left out: the six small credits round
    to 0.01, no transaction is produced, and the debtor stays at -0.03. *)
Lemma settlement_as_worded_fails : ~ settlesAsWorded Example.crumbs.
Proof.
  unfold settlesAsWorded. intros H.
  assert (Hnd : NoDup (Table.keys Example.crumbs)).
  { simpl. repeat constructor; simpl; intuition discriminate. }
  assert (Hsum : Qabs (Qsum (Table.values Example.crumbs)) <= 1 # 100).
  { vm_compute. discriminate. }
  destruct (H Hnd Hsum) as [Hall _].
  specialize (Hall ("a", - (3 # 100)) (or_introl eq_refl)).
  vm_compute in Hall. apply Hall. reflexivity.
Qed.

(** Read the way it is worded, the application doubles the balances of the
    lunch example instead of clearing them. *)
Lemma worded_direction_doubles :
  let txs := Settle.generateMinimalMemberTransactions (balances Example.afterLunch) in
  appliedAsWorded Str.capitalize txs ("alice", 60) == 120
  /\ appliedAsWorded Str.capitalize txs ("bob", - (30)) == - (60)
  /\ settled Str.capitalize txs ("alice", 60) == 0
  /\ settled Str.capitalize txs ("bob", - (30)) == 0.
Proof. repeat split; vm_compute; reflexivity. Qed.

(** ** The greedy loop *)

Module GreedyFacts.
Import Settle SettleFacts LoopFacts MinimizeFacts.

Lemma creditorsOf_rounded (entries : Table.t Q) :
  creditorsOf entries = roundedCreditors entries.
Proof.
  unfold creditorsOf, roundedCreditors.
  induction entries as [|e es IH]; simpl; [reflexivity|].
  rewrite IH. now destruct (Qltb (1 # 100) (toFixed2 (snd e))).
Qed.

Lemma debtorsOf_rounded (entries : Table.t Q) :
  debtorsOf entries = roundedDebtors entries.
Proof.
  unfold debtorsOf, roundedDebtors.
  induction entries as [|e es IH]; simpl; [reflexivity|].
  rewrite IH.
  destruct (Qltb (1 # 100) (toFixed2 (snd e))) eqn:E1;
    destruct (Qltb (toFixed2 (snd e)) (- (1 # 100))) eqn:E2; try reflexivity.
  apply Qltb_lt in E1, E2. lra.
Qed.

Lemma stillOpen_sound (l : list party) : sound l -> stillOpen l = l.
Proof.
  unfold stillOpen. induction 1 as [|p l [_ Hp] _ IH]; simpl; [reflexivity|].
  apply Qltb_ge in Hp. now rewrite Hp, IH.
Qed.

Lemma stillOpen_shifted (p : party) (m : Q) (rest : list party) :
  sound rest -> stillOpen (decremented p m :: rest) = shifted p m rest.
Proof.
  intros Hs. unfold shifted. change (stillOpen (decremented p m :: rest))
    with (if negb (Qltb (amount p - m) (1 # 100))
          then decremented p m :: stillOpen rest else stillOpen rest).
  rewrite (stillOpen_sound _ Hs).
  now destruct (Qltb (amount p - m) (1 # 100)).
Qed.

Lemma Math_min_Qmin (x y : Q) : Math_min x y == Qmin y x.
Proof.
  destruct (Math_min_cases x y) as [[H ->]|[H ->]].
  - symmetry. apply Q.min_r. assumption.
  - symmetry. apply Q.min_l. lra.
Qed.

Lemma loop_greedy fmt (fuel : nat) (st : state) :
  sound (creditors st) -> sound (debtors st) ->
  (List.length (creditors st) + List.length (debtors st) <= fuel)%nat ->
  exists out,
    transactions (loop fmt fuel st) = (transactions st ++ out)%list
    /\ greedy fmt (creditors st) (debtors st) out.
Proof.
  revert st. induction fuel as [|fuel IH]; intros st Sc Sd Hlen; simpl.
  - exists []. rewrite app_nil_r. split; [reflexivity|].
    apply greedy_stop. left. destruct (creditors st); [reflexivity | simpl in Hlen; lia].
  - destruct (continues st) eqn:Hcont.
    + destruct (iterate_spec fmt st Sc Sd Hcont) as [Sc' [Sd' [_ Hlt]]].
      destruct (IH (iterate fmt st) Sc' Sd') as [out [Eout G]]; [lia|].
      destruct (iterate_eq fmt st Hcont) as [c [cs [d [ds [Ec [Ed Eit]]]]]].
      rewrite Eit in G. cbn [creditors debtors] in G.
      assert (Etx : transactions (iterate fmt st)
                    = (transactions st ++
                       [(fmt (name d), fmt (name c),
                         toFixed2 (Math_min (amount d) (amount c)))])%list)
        by now rewrite Eit.
      rewrite Etx in Eout. clear Etx Eit.
      apply sortDesc_head in Ec, Ed. destruct Ec as [Pc Fc], Ed as [Pd Fd].
      pose proof (sound_perm _ _ Pc Sc) as Sc0. pose proof (sound_perm _ _ Pd Sd) as Sd0.
      inversion Sc0 as [|? ? [Cc Lc] Scs]; subst.
      inversion Sd0 as [|? ? [Cd Ld] Sds]; subst.
      set (m := Math_min (amount d) (amount c)) in *.
      assert (Hm : cents m /\ 1 # 100 <= m).
      { unfold m. destruct (Math_min_cases (amount d) (amount c)) as [[_ ->]|[_ ->]];
          split; assumption. }
      destruct Hm as [Cm Lm].
      exists ((fmt (name d), fmt (name c), toFixed2 m) :: out). split.
      * rewrite Eout, <- app_assoc. reflexivity.
      * apply (greedy_pay fmt _ _ c d cs ds m); try assumption.
        -- unfold m. apply Math_min_Qmin.
        -- apply toFixed2_of_cents. exact Cm.
        -- lra.
        -- rewrite !stillOpen_shifted by assumption. exact G.
    + exists []. rewrite app_nil_r. split; [reflexivity|].
      apply greedy_stop. apply continues_false. exact Hcont.
Qed.

Lemma minimize_greedy fmt (entries : Table.t Q) :
  greedy fmt (roundedCreditors entries) (roundedDebtors entries) (minimize fmt entries).
Proof.
  unfold minimize, finish.
  destruct (loop_greedy fmt
              (List.length (creditors (start entries))
               + List.length (debtors (start entries)))
              (start entries)) as [out [E G]]; simpl;
    [apply sound_creditorsOf | apply sound_debtorsOf | lia |].
  simpl in E. rewrite E. simpl in G.
  rewrite creditorsOf_rounded, debtorsOf_rounded in G. exact G.
Qed.

End GreedyFacts.

(** In exact arithmetic ([Settle]) the member minimizer rounds every
    balance to two decimals, keeps as creditors the rounded balances above
    0.01 and as debtors those below -0.01, and then runs the greedy loop:
    largest creditor against largest debtor, a positive transfer of the
    smaller remainder, both remainders decremented, a party dropped once
    below 0.01, the transactions in the order of emission.  The loop
    leaves by its own test. *)
Theorem greedy_settlement (balances : Table.t Q) :
  greedy Str.capitalize (roundedCreditors balances) (roundedDebtors balances)
    (Settle.generateMinimalMemberTransactions balances)
  /\ Settle.continues (Settle.finish Str.capitalize balances) = false
  /\ (forall x : Q, cents (toFixed2 x) /\ Qabs (toFixed2 x - x) <= 1 # 200).
Proof.
  split; [apply GreedyFacts.minimize_greedy|].
  split; [apply MinimizeFacts.loop_exits|].
  intros x. split; [apply toFixed2_cents | apply toFixed2_near].
Qed.

(** ** Wildcard split *)

Lemma trim_star_nonempty (s : string) : Str.trim s = "*" -> Str.nonempty s = true.
Proof. destruct s; [discriminate | reflexivity]. Qed.

Lemma getParticipants_wildcard (s : string) (allMembers : list string) :
  Str.trim s = "*" -> getParticipants (Str s) allMembers = Done (everybody allMembers).
Proof.
  intros H. unfold getParticipants.
  now rewrite (trim_star_nonempty s H), H.
Qed.

Lemma Wsum_everybody (ms : list string) :
  Wsum (everybody ms) == inject_Z (Z.of_nat (List.length ms)).
Proof.
  unfold Wsum, everybody. induction ms as [|m ms IH]; [reflexivity|].
  cbn [List.length map Qsum fold_right weight].
  rewrite Nat2Z.inj_succ, <- Z.add_1_l, inject_Z_plus.
  unfold Wsum, everybody in IH. simpl in IH. rewrite IH. reflexivity.
Qed.

Lemma find_everybody (k : string) (ms : list string) :
  find (fun p => (name p =? k)%string) (everybody ms)
  = if Set_has k ms then Some {| name := k; weight := 1 |} else None.
Proof.
  unfold Set_has, everybody. induction ms as [|m ms IH]; simpl; [reflexivity|].
  rewrite (String.eqb_sym k m).
  destruct (String.eqb_spec m k) as [->|_]; simpl; [reflexivity | exact IH].
Qed.

Lemma shareOf_everybody (a : Q) (k : string) (ms : list string) :
  shareOf a (everybody ms) k
  == if Set_has k ms then a / inject_Z (Z.of_nat (List.length ms)) else 0.
Proof.
  unfold shareOf. rewrite find_everybody.
  destruct (Set_has k ms); [|reflexivity].
  simpl weight. rewrite Wsum_everybody. unfold Qdiv. ring.
Qed.

(** In exact arithmetic, a split cell that trims to [*] makes every known
    member a participant of weight 1: each is debited [amount / N], the
    payer is credited the full amount.  This holds of every name but
    [__proto__]. *)
Lemma wildcard_split c allMembers l row item paidBy amount ps s :
  NoDup allMembers ->
  resolved c allMembers row item paidBy amount ps ->
  Obj.has "hasOwnProperty" (balances l) = false ->
  cell row (splitBetweenColIndex c) = Str s ->
  Str.trim s = "*" ->
  ps = everybody allMembers
  /\ exists l',
      processRow c allMembers l row = Done l'
      /\ forall k, k <> Obj.proto ->
          getOr0 k (balances l')
          == getOr0 k (balances l)
             - (if Set_has k allMembers
                then amount / inject_Z (Z.of_nat (List.length allMembers)) else 0)
             + refundOf amount paidBy k.
Proof.
  intros Hnd R Hh Hcell Hstar.
  assert (Eps : ps = everybody allMembers).
  { pose proof (res_split _ _ _ _ _ _ _ R) as Hs.
    rewrite Hcell, (getParticipants_wildcard s allMembers Hstar) in Hs.
    now inversion Hs. }
  split; [exact Eps|].
  exists (allocate item paidBy amount ps l). split.
  - now apply processRow_resolved.
  - intros k Hk.
    assert (Hnd' : NoDup (map name ps)).
    { eapply getParticipants_NoDup; [exact Hnd | apply (res_split _ _ _ _ _ _ _ R)]. }
    assert (Hi : item <> Obj.proto).
    { eapply modelled_item. apply (res_modelled _ _ _ _ _ _ _ R). }
    destruct (allocate_spec item paidBy amount ps l k Hnd' Hi Hk) as [Hb _].
    rewrite Hb. subst ps. rewrite shareOf_everybody. reflexivity.
Qed.

(** The example of the specification: lunch for 90 paid by Alice among
    Alice, Bob and Carol gives +60, -30, -30, settled by Bob and Carol
    paying Alice 30 each. *)
Lemma wildcard_example :
  processExpenses [Example.header; Example.lunch] Example.cols Example.members
    (initialLedger Example.members) = Done Example.afterLunch
  /\ Obj.keys (balances Example.afterLunch) = ["alice"; "bob"; "carol"]
  /\ getOr0 "alice" (balances Example.afterLunch) == 60
  /\ getOr0 "bob" (balances Example.afterLunch) == - (30)
  /\ getOr0 "carol" (balances Example.afterLunch) == - (30)
  /\ Settle.generateMinimalMemberTransactions (balances Example.afterLunch)
     = [("Bob", "Alice", 3000 # 100); ("Carol", "Alice", 3000 # 100)]
  /\ Double.generateMinimalMemberTransactions
       [("alice", 60%float); ("bob", (-30)%float); ("carol", (-30)%float)]
     = Done [("Bob", "Alice", 3000 # 100); ("Carol", "Alice", 3000 # 100)]
  /\ 3000 # 100 == 30
  /\ received "Alice"
       (Settle.generateMinimalMemberTransactions (balances Example.afterLunch)) == 60.
Proof. repeat split; vm_compute; reflexivity. Qed.

Lemma lunch_resolved :
  resolved Example.cols Example.members Example.lunch "Lunch" "alice" 90
    (everybody Example.members).
Proof.
  split.
  - split; [reflexivity | discriminate].
  - exists "Alice". repeat split. discriminate.
  - reflexivity.
  - reflexivity.
  - discriminate.
  - reflexivity.
Defined.

(** ** Unknown names *)

Lemma mapM_parseEntry_names (entries : list string) (raw : list participant) :
  mapM parseEntry entries = Done raw -> map name raw = map entryName entries.
Proof.
  revert raw. induction entries as [|e es IH]; simpl; intros raw H.
  - inversion H. reflexivity.
  - unfold parseEntry at 1 in H.
    destruct (entryWeight _) as [w| |]; simpl in H; try discriminate.
    destruct (mapM parseEntry es) as [raw'| |]; simpl in H; try discriminate.
    inversion H; subst. simpl. f_equal. now apply IH.
Qed.

Lemma getParticipants_explicit (s : string) (allMembers : list string)
    (ps : list participant) :
  Str.trim s <> "*" ->
  getParticipants (Str s) allMembers = Done ps ->
  exists raw, mapM parseEntry (splitEntries s) = Done raw /\ ps = unique_from [] raw.
Proof.
  intros Hne. unfold getParticipants.
  destruct (String.eqb_spec (Str.trim s) "*") as [E|_]; [contradiction|].
  rewrite andb_false_r.
  destruct (mapM parseEntry (splitEntries s)) as [raw| |]; simpl; try discriminate.
  intros H. inversion H. exists raw. split; reflexivity.
Qed.

(** In an explicit split list every non-empty normalized entry becomes a
    participant whatever the known members are; the row is allocated, and
    a participant or payer that had no balance gets one, started at 0 and
    then debited or credited (in exact arithmetic), unless its name is
    [__proto__]. *)
Lemma unknown_names_join c allMembers l row item paidBy amount ps s :
  resolved c allMembers row item paidBy amount ps ->
  Obj.has "hasOwnProperty" (balances l) = false ->
  cell row (splitBetweenColIndex c) = Str s ->
  Str.trim s <> "*" ->
  (forall others, getParticipants (Str s) others = Done ps)
  /\ (forall entry, In entry (splitEntries s) -> In (entryName entry) (map name ps))
  /\ exists l',
      processRow c allMembers l row = Done l'
      /\ (forall k, In k (Obj.keys (balances l'))
                    <-> In k (Obj.keys (balances l))
                        \/ ((In k (map name ps) \/ k = paidBy) /\ k <> Obj.proto))
      /\ (forall k, ~ In k (Obj.keys (balances l)) ->
                    In k (map name ps) \/ k = paidBy ->
                    k <> Obj.proto ->
                    In k (Obj.keys (balances l'))
                    /\ getOr0 k (balances l')
                       == 0 - shareOf amount ps k + refundOf amount paidBy k).
Proof.
  intros R Hh Hcell Hne.
  pose proof (res_split _ _ _ _ _ _ _ R) as Hs. rewrite Hcell in Hs.
  destruct (getParticipants_explicit s allMembers ps Hne Hs) as [raw [Hraw ->]].
  split; [|split].
  - intros others. unfold getParticipants.
    destruct (String.eqb_spec (Str.trim s) "*") as [E|_]; [contradiction|].
    rewrite andb_false_r, Hraw. reflexivity.
  - intros entry Hin. apply unique_from_names; [|tauto].
    rewrite (mapM_parseEntry_names _ _ Hraw). now apply in_map.
  - exists (allocate item paidBy amount (unique_from [] raw) l).
    split; [now apply processRow_resolved|]. split.
    + intros k. apply allocate_keys.
    + intros k Hfresh Hk Hp. split; [apply allocate_keys; tauto|].
      assert (Hi : item <> Obj.proto).
      { eapply modelled_item. apply (res_modelled _ _ _ _ _ _ _ R). }
      destruct (allocate_spec item paidBy amount (unique_from [] raw) l k
                  (unique_from_NoDup [] raw) Hi Hp) as [Hb _].
      rewrite Hb.
      assert (H0 : getOr0 k (balances l) = 0).
      { unfold getOr0. destruct (Table.get k (balances l)) eqn:E; [|reflexivity].
        exfalso. apply Hfresh. apply TableFacts.has_In. unfold Table.has. now rewrite E. }
      rewrite H0. reflexivity.
Qed.

(** ** Skipped rows *)

Lemma processRow_skippable c allMembers l row :
  skippable c allMembers row -> processRow c allMembers l row = Done l.
Proof.
  unfold skippable, processRow.
  intros [H|[H|[H|[[raw Hraw] H]]]].
  - now rewrite H.
  - rewrite H. now rewrite orb_true_r.
  - rewrite H. simpl. now rewrite !orb_true_r.
  - rewrite Hraw, H.
    destruct (negb (truthy (cell row (expensesStartCol c))) || negb (truthy (Str raw))
              || isNaN (parseFloat (cell row (amountColIndex c)))); reflexivity.
Qed.

Lemma processRows_app c allMembers rows1 rows2 l :
  processRows c allMembers (rows1 ++ rows2) l
  = bind (processRows c allMembers rows1 l) (processRows c allMembers rows2).
Proof.
  revert l. induction rows1 as [|r rows1 IH]; intros l; simpl; [reflexivity|].
  destruct (processRow c allMembers l r); simpl; [apply IH | reflexivity | reflexivity].
Qed.

(** C5, amended. A row with a falsy item, a falsy payer, an amount that
    parses to [NaN], or (the payer being text) an empty participant list
    leaves balances and splits untouched, and the batch gives what it
    gives without the row, error or not. *)
Theorem skipped_rows c allMembers header before row after l :
  skippable c allMembers row ->
  processRow c allMembers l row = Done l
  /\ processExpenses (header :: before ++ row :: after) c allMembers l
     = processExpenses (header :: before ++ after) c allMembers l.
Proof.
  intros H. split; [now apply processRow_skippable|].
  unfold processExpenses. simpl tl. rewrite !processRows_app.
  destruct (processRows c allMembers before l) as [l1| |]; simpl; try reflexivity.
  now rewrite (processRow_skippable c allMembers l1 row H).
Qed.

Lemma skipped_rows_witness :
  processRow Example.cols Example.members (initialLedger Example.members) Example.unpaid
  = Done (initialLedger Example.members)
  /\ processExpenses (Example.header :: [Example.lunch] ++ Example.unpaid :: [Example.taxi])
       Example.cols Example.members (initialLedger Example.members)
     = processExpenses (Example.header :: [Example.lunch] ++ [Example.taxi])
         Example.cols Example.members (initialLedger Example.members).
Proof.
  apply (skipped_rows Example.cols Example.members Example.header [Example.lunch]
           Example.unpaid [Example.taxi] (initialLedger Example.members)).
  right. left. reflexivity.
Defined.

(** C5 as worded fails: an amount of -5 is not a positive number, yet the
    row is allocated. *)
Lemma negative_amount_is_processed :
  ~ skipsAsWorded Example.cols Example.members (initialLedger Example.members)
      Example.refund.
Proof.
  unfold skipsAsWorded. intros H.
  assert (Hrow : processRow Example.cols Example.members
                   (initialLedger Example.members) Example.refund
                 = Done (initialLedger Example.members)).
  { apply H. right. right. left. vm_compute. discriminate. }
  vm_compute in Hrow. discriminate.
Qed.

(** ** Where the script departs from its documentation *)

(** C4. The Expenses sheet has no [item] column, yet the run completes
    and writes its tables, every row having been skipped. *)
Theorem missing_column_still_writes :
  expensesStartCol
    (getColumnIndexesExpenses ["thing"; "paid by"; "amount"; "split between"]) = (-1)%Z
  /\ calculateExpensesWithSubgroups Example.noItemColumn
     = Done {| perItemHeader := ["Item"; "Alice"; "Bob"; "Carol"];
               perItemRows := [("Person's Net Total", [0 # 100; 0 # 100; 0 # 100])];
               balanceTable := [("Alice", 0 # 100); ("Bob", 0 # 100); ("Carol", 0 # 100)];
               subgroupTable := [("Alice", 0 # 100); ("Bob, Carol", 0 # 100)];
               transactionTable := [];
               memberTransactionTable := [] |}.
Proof. split; vm_compute; reflexivity. Qed.

(** C9. A members cell of one space, a payer cell of two spaces and a
    split entry without a name each put the empty name into the balances. *)
Theorem blank_names_get_balances :
  (exists out,
      calculateExpensesWithSubgroups Example.blankMember = Done out
      /\ In ("", 0 # 100) (balanceTable out))
  /\ (exists l,
      processRow Example.cols Example.members (initialLedger Example.members)
        Example.blankPayer = Done l
      /\ In "" (Table.keys (balances l)))
  /\ (exists l,
      processRow Example.cols Example.members (initialLedger Example.members)
        Example.blankEntry = Done l
      /\ In "" (Table.keys (balances l))).
Proof.
  split; [|split]; eexists; (split; [vm_compute; reflexivity|]); simpl; tauto.
Qed.

(** C8. Member [a,b] is in no group, and its singleton is stored under
    the key of the registered group of [a] and [b]; member [a], which that
    group contained, then falls back to a singleton of its own. *)
Theorem singleton_overwrites_group :
  let a := assignMembersToSubgroups Example.commaMembers Example.registered [] [] in
  findGroup "a" Example.registered = Some ("a,b", ["a"; "b"])
  /\ Table.get "a" (nameToGroupKey a) = Some "a"
  /\ Table.get "a,b" (subgroupMap a) = Some ["a,b"].
Proof. repeat split. Qed.

(** ** Subgroup assignment without key collisions *)

Module AssignFacts.
Import Table.

Lemma get_app_l {V} (k : string) (m m' : Table.t V) (v : V) :
  get k m = Some v -> get k (m ++ m')%list = Some v.
Proof.
  induction m as [|[k0 v0] m IH]; simpl; [discriminate|].
  destruct (k0 =? k)%string; auto.
Qed.

Lemma get_app_r {V} (k : string) (m m' : Table.t V) :
  ~ In k (keys m) -> get k (m ++ m')%list = get k m'.
Proof.
  induction m as [|[k0 v0] m IH]; simpl; intros H; [reflexivity|].
  destruct (String.eqb_spec k0 k); [tauto | apply IH; tauto].
Qed.

Lemma get_None_keys {V} (k : string) (m : Table.t V) :
  get k m = None <-> ~ In k (keys m).
Proof.
  rewrite <- TableFacts.has_In. unfold has. destruct (get k m); split; congruence.
Qed.

(** Setting a key that is not there appends the entry. *)
Lemma set_fresh {V} (k : string) (v : V) (m : Table.t V) :
  ~ In k (keys m) -> set k v m = (m ++ [(k, v)])%list.
Proof.
  induction m as [|[k0 v0] m IH]; simpl; intros H; [reflexivity|].
  destruct (String.eqb_spec k0 k); [tauto|]. rewrite IH by tauto. reflexivity.
Qed.









End AssignFacts.




(** ** Column lookup *)

Lemma indexOf_from_spec (x : string) (l : list string) (i : Z) :
  (0 <= i)%Z ->
  (~ In x l /\ Str.indexOf_from i x l = (-1)%Z)
  \/ (exists before after,
         l = (before ++ x :: after)%list /\ ~ In x before
         /\ Str.indexOf_from i x l = (i + Z.of_nat (List.length before))%Z).
Proof.
  revert i. induction l as [|y l IH]; intros i Hi; simpl.
  - left. split; [tauto | reflexivity].
  - destruct (String.eqb_spec y x) as [->|Hne].
    + right. exists [], l. simpl. repeat split; [tauto | lia].
    + destruct (IH (i + 1)%Z ltac:(lia)) as [[Hno E]|[before [after [-> [Hb E]]]]].
      * left. split; [intros [H|H]; [congruence | contradiction] | exact E].
      * right. exists (y :: before), after. simpl. repeat split.
        -- intros [H|H]; [congruence | contradiction].
        -- rewrite E. lia.
Qed.

(** [indexOf] answers -1 exactly when the name is not a header; otherwise
    it is the position of the first header equal to the name. *)
Lemma indexOf_first (headers : list string) (x : string) :
  (Str.indexOf headers x = (-1)%Z <-> ~ In x headers)
  /\ (In x headers ->
      (0 <= Str.indexOf headers x < Z.of_nat (List.length headers))%Z
      /\ nth (Z.to_nat (Str.indexOf headers x)) headers "" = x
      /\ ~ In x (firstn (Z.to_nat (Str.indexOf headers x)) headers)).
Proof.
  unfold Str.indexOf.
  destruct (indexOf_from_spec x headers 0%Z ltac:(lia))
    as [[Hno E]|[before [after [-> [Hb E]]]]].
  - split; [tauto|]. intros H. contradiction.
  - rewrite E, Z.add_0_l, Nat2Z.id. split.
    + split; [lia|]. intros H. exfalso. apply H. apply in_app_iff. right. now left.
    + intros _. rewrite length_app. simpl. repeat split; try lia.
      * rewrite app_nth2 by lia. now rewrite Nat.sub_diag.
      * rewrite firstn_app, Nat.sub_diag, firstn_all. simpl. now rewrite app_nil_r.
Qed.

(** X2. Each of the four column indexes is -1 exactly when its header is
    absent from the normalized header row; otherwise it is the position of
    the first header of that name, so that reading a row of cells at the
    index reads the cell under that header. *)
Theorem column_indexes_locate_headers (headers : list string) (row : list value) :
  let c := getColumnIndexesExpenses headers in
  forall name col,
    In (name, col) [("item", expensesStartCol c); ("paid by", paidByColIndex c);
                    ("amount", amountColIndex c);
                    ("split between", splitBetweenColIndex c)] ->
    (col = (-1)%Z <-> ~ In name headers)
    /\ (~ In name headers -> cell row col = undefined)
    /\ (In name headers ->
        (0 <= col < Z.of_nat (List.length headers))%Z
        /\ nth (Z.to_nat col) headers "" = name
        /\ ~ In name (firstn (Z.to_nat col) headers)
        /\ cell row col = nth (Z.to_nat col) row undefined).
Proof.
  cbv zeta. intros name col Hin.
  assert (E : col = Str.indexOf headers name).
  { simpl in Hin. destruct Hin as [H|[H|[H|[H|[]]]]]; now inversion H. }
  subst col. destruct (indexOf_first headers name) as [A B].
  split; [exact A|]. split.
  - intros H. apply A in H. rewrite H. reflexivity.
  - intros H. destruct (B H) as [B1 [B2 B3]]. repeat split; try assumption; try lia.
    unfold cell. destruct (Z.ltb_spec (Str.indexOf headers name) 0); [lia | reflexivity].
Qed.

Lemma column_indexes_locate_headers_witness :
  let headers := ["item"; "paid by"; "amount"; "split between"] in
  let row := [Str "Lunch"; Str "Alice"; Number 30; Str "All"] in
  In ("amount", 2%Z)
     [("item", expensesStartCol (getColumnIndexesExpenses headers));
      ("paid by", paidByColIndex (getColumnIndexesExpenses headers));
      ("amount", amountColIndex (getColumnIndexesExpenses headers));
      ("split between", splitBetweenColIndex (getColumnIndexesExpenses headers))]
  /\ cell row 2 = Number 30.
Proof.
  cbv zeta.
  assert (Hin : In ("amount", 2%Z)
     [("item", expensesStartCol (getColumnIndexesExpenses ["item"; "paid by"; "amount"; "split between"]));
      ("paid by", paidByColIndex (getColumnIndexesExpenses ["item"; "paid by"; "amount"; "split between"]));
      ("amount", amountColIndex (getColumnIndexesExpenses ["item"; "paid by"; "amount"; "split between"]));
      ("split between", splitBetweenColIndex (getColumnIndexesExpenses ["item"; "paid by"; "amount"; "split between"]))]).
  { vm_compute. right. right. left. reflexivity. }
  split; [exact Hin|].
  destruct (column_indexes_locate_headers
              ["item"; "paid by"; "amount"; "split between"]
              [Str "Lunch"; Str "Alice"; Number 30; Str "All"] "amount" 2%Z Hin)
    as [_ [_ H]].
  assert (I : In "amount" ["item"; "paid by"; "amount"; "split between"])
    by (right; right; left; reflexivity).
  destruct (H I) as [_ [_ [_ E]]]. exact E.
Defined.

(** ** Missing columns *)

Lemma indexOf_absent (headers : list string) (x : string) :
  ~ In x headers -> Str.indexOf headers x = (-1)%Z.
Proof.
  intros H. unfold Str.indexOf.
  destruct (indexOf_from_spec x headers 0%Z ltac:(lia))
    as [[_ E]|[before [after [-> _]]]]; [exact E|].
  exfalso. apply H. apply in_app_iff. right. now left.
Qed.

Lemma cell_negative (row : list value) : cell row (-1)%Z = undefined.
Proof. reflexivity. Qed.

Lemma processRows_all_skipped c allMembers rows l :
  (forall row, In row rows -> skippable c allMembers row) ->
  processRows c allMembers rows l = Done l.
Proof.
  induction rows as [|row rows IH]; simpl; intros H; [reflexivity|].
  rewrite (processRow_skippable c allMembers l row) by (apply H; now left).
  simpl. apply IH. intros r Hr. apply H. now right.
Qed.

(** X3. When the header row lacks [item], [paid by] or [amount], no error is
    raised: every row is skipped and the ledger comes back untouched. *)
Theorem missing_columns_skip_everything (headers : list string)
    (data : list (list value)) (allMembers : list string) (l : ledger) :
  ~ In "item" headers \/ ~ In "paid by" headers \/ ~ In "amount" headers ->
  processExpenses data (getColumnIndexesExpenses headers) allMembers l = Done l.
Proof.
  intros H. unfold processExpenses. apply processRows_all_skipped.
  intros row _. unfold skippable, getColumnIndexesExpenses. cbn [expensesStartCol
    paidByColIndex amountColIndex splitBetweenColIndex].
  destruct H as [H|[H|H]]; apply indexOf_absent in H; rewrite H.
  - left. reflexivity.
  - right. left. reflexivity.
  - right. right. left. reflexivity.
Qed.

Lemma missing_columns_skip_everything_witness :
  processExpenses [Example.header; Example.lunch; Example.taxi]
    (getColumnIndexesExpenses ["thing"; "paid by"; "amount"; "split between"])
    Example.members (initialLedger Example.members)
  = Done (initialLedger Example.members).
Proof.
  apply (missing_columns_skip_everything
           ["thing"; "paid by"; "amount"; "split between"]).
  left. simpl. intuition discriminate.
Defined.

(** X4. A row that passes the three guards throws a [TypeError] when its payer
    cell is a number, or when its payer is text and its split cell is a
    number or is missing (as it is for every row when the header row has no
    [split between]). *)
Theorem non_text_cells_throw c allMembers l row :
  truthy (cell row (expensesStartCol c)) = true ->
  parseFloat (cell row (amountColIndex c)) <> NaN ->
  (exists q, cell row (paidByColIndex c) = Number q /\ ~ q == 0)
  \/ ((exists raw, cell row (paidByColIndex c) = Str raw /\ raw <> "")
      /\ forall s, cell row (splitBetweenColIndex c) <> Str s) ->
  processRow c allMembers l row = Thrown TypeError.
Proof.
  intros Hitem Hamount H. unfold processRow. rewrite Hitem.
  assert (Hnan : isNaN (parseFloat (cell row (amountColIndex c))) = false).
  { destruct (parseFloat (cell row (amountColIndex c))); [congruence | reflexivity..]. }
  rewrite Hnan.
  destruct H as [[q [Hq Hq0]]|[[raw [Hraw Hne]] Hsplit]].
  - rewrite Hq. simpl.
    destruct (Qeq_bool q 0) eqn:E; [apply Qeq_bool_iff in E; contradiction | reflexivity].
  - rewrite Hraw, (truthy_Str raw Hne). simpl.
    destruct (cell row (splitBetweenColIndex c)) as [|s|q] eqn:E;
      [reflexivity | exfalso; now apply (Hsplit s) | reflexivity].
Qed.

Lemma non_text_cells_throw_witness :
  processRow (getColumnIndexesExpenses ["item"; "paid by"; "amount"])
    Example.members (initialLedger Example.members) Example.lunch
  = Thrown TypeError.
Proof.
  apply non_text_cells_throw.
  - reflexivity.
  - discriminate.
  - right. split; [exists "Alice"; split; [reflexivity | discriminate]|].
    intros s. discriminate.
Defined.

(** ** Participant lists *)



Lemma find_unique_from (k : string) (seen : list string) (raw : list participant) :
  ~ In k seen ->
  find (fun p => (name p =? k)%string) (unique_from seen raw)
  = find (fun p => (name p =? k)%string) raw.
Proof.
  revert seen. induction raw as [|q raw IH]; simpl; intros seen Hk; [reflexivity|].
  destruct (Set_has (name q) seen) eqn:E.
  - apply Set_has_In in E.
    destruct (String.eqb_spec (name q) k) as [Heq|_]; [congruence | now apply IH].
  - simpl. destruct (String.eqb_spec (name q) k) as [Heq|Hne]; [reflexivity|].
    apply IH. rewrite Set_add_In. intros [H|H]; [congruence | contradiction].
Qed.

(** X6. In an explicit split list a repeated name keeps the weight of its
    first entry: looking a name up among the participants gives the first
    parsed entry of that name, and the participants keep the order of
    first appearance. *)
Theorem first_weight_kept (s : string) (allMembers : list string)
    (ps : list participant) :
  Str.trim s <> "*" ->
  getParticipants (Str s) allMembers = Done ps ->
  exists raw,
    mapM parseEntry (splitEntries s) = Done raw
    /\ map name raw = map entryName (splitEntries s)
    /\ forall k, find (fun p => (name p =? k)%string) ps
                 = find (fun p => (name p =? k)%string) raw.
Proof.
  intros Hne H.
  destruct (getParticipants_explicit s allMembers ps Hne H) as [raw [Hraw ->]].
  exists raw. split; [exact Hraw|]. split; [now apply mapM_parseEntry_names|].
  intros k. apply find_unique_from. tauto.
Qed.

Lemma first_weight_kept_witness :
  exists raw,
    mapM parseEntry (splitEntries "Alice:2, bob ,ALICE:5") = Done raw
    /\ map name raw = map entryName (splitEntries "Alice:2, bob ,ALICE:5")
    /\ forall k, find (fun p => (name p =? k)%string)
                   [{| name := "alice"; weight := 2 |}; {| name := "bob"; weight := 1 |}]
                 = find (fun p => (name p =? k)%string) raw.
Proof.
  apply (first_weight_kept "Alice:2, bob ,ALICE:5" Example.members
           [{| name := "alice"; weight := 2 |}; {| name := "bob"; weight := 1 |}]).
  - discriminate.
  - reflexivity.
Defined.

(** ** The per-item table *)

Lemma netTotal_fold (k : string) (l : list (Obj.t Q)) (acc : Q) :
  fold_left (fun sum itemShares => sum + getOr0 k itemShares) l acc
  == acc + Qsum (map (getOr0 k) l).
Proof.
  revert acc. induction l as [|sh l IH]; intros acc; simpl; [lra|].
  rewrite IH. lra.
Qed.

Lemma netTotal_perm (k : string) (s s' : Obj.t (Obj.t Q)) :
  Permutation s s' -> netTotal k s == netTotal k s'.
Proof.
  intros P. unfold netTotal. rewrite !netTotal_fold.
  apply Qplus_comp; [reflexivity|]. apply TableFacts.Qsum_permutation.
  unfold Obj.values. now do 2 apply Permutation_map.
Qed.

Lemma netTotal_set_own (k item : string) (sh : Obj.t Q) (s : Obj.t (Obj.t Q)) :
  netTotal k (Table.set item sh s)
  == netTotal k s - itemShare item k s + getOr0 k sh.
Proof.
  unfold netTotal. rewrite !netTotal_fold. unfold itemShare.
  induction s as [|[i0 sh0] s IH]; simpl.
  - lra.
  - destruct (String.eqb_spec i0 item) as [->|Hne]; simpl; [lra|].
    fold (Obj.values (Table.set item sh s)) (Obj.values s).
    lra.
Qed.

Lemma netTotal_set (k item : string) (sh : Obj.t Q) (s : Obj.t (Obj.t Q)) :
  item <> Obj.proto ->
  netTotal k (Obj.set item sh s)
  == netTotal k s - itemShare item k s + getOr0 k sh.
Proof.
  intros Hi. destruct (Obj.has item s) eqn:Hh.
  - rewrite ObjFacts.set_own by assumption. apply netTotal_set_own.
  - rewrite (netTotal_perm k _ _ (ObjFacts.set_perm item sh s Hi Hh)).
    unfold itemShare. unfold Obj.has, Table.has in Hh.
    destruct (Table.get item s); [discriminate|].
    unfold netTotal. simpl. rewrite !netTotal_fold. lra.
Qed.

Lemma getOr0_set (k who : string) (v : Q) (m : Obj.t Q) :
  who <> Obj.proto ->
  getOr0 k (Obj.set who v m) = if (k =? who)%string then v else getOr0 k m.
Proof.
  intros Hw. unfold getOr0. fold (Obj.get k (Obj.set who v m)).
  destruct (String.eqb_spec k who) as [->|Hne].
  - now rewrite ObjFacts.get_assign_same.
  - now rewrite ObjFacts.get_assign_other.
Qed.

Lemma getOr0_nil (k : string) : getOr0 k [] = 0.
Proof. reflexivity. Qed.

Lemma netTotal_creditItem (k item who : string) (delta : Q) (s : Obj.t (Obj.t Q)) :
  item <> Obj.proto -> k <> Obj.proto ->
  netTotal k (creditItem item who delta s)
  == netTotal k s + (if (k =? who)%string then delta else 0).
Proof.
  intros Hi Hk. unfold creditItem. rewrite netTotal_set by assumption.
  destruct (String.eqb_spec who Obj.proto) as [->|Hw].
  - rewrite ObjFacts.set_proto.
    destruct (String.eqb_spec k Obj.proto) as [E|_]; [congruence|].
    unfold itemShare. destruct (Table.get item s); rewrite ?getOr0_nil; lra.
  - rewrite getOr0_set by assumption. unfold itemShare.
    destruct (Table.get item s) as [sh|];
      destruct (String.eqb_spec k who) as [->|Hne];
      rewrite ?getOr0_nil; lra.
Qed.

Lemma netTotal_fresh (k item : string) (s : Obj.t (Obj.t Q)) :
  netTotal k (if Obj.has item s then s else Obj.set item [] s) == netTotal k s.
Proof.
  destruct (String.eqb_spec item Obj.proto) as [->|Hi].
  - rewrite ObjFacts.set_proto. now destruct (Obj.has Obj.proto s).
  - destruct (Obj.has item s) eqn:E; [reflexivity|].
    rewrite netTotal_set by assumption. unfold itemShare.
    unfold Obj.has, Table.has in E. destruct (Table.get item s); [discriminate|].
    unfold getOr0. simpl. lra.
Qed.

Lemma fold_debit_netTotal (item : string) (a T : Q) (k : string)
    (ps : list participant) (acc : ledger) :
  item <> Obj.proto -> k <> Obj.proto ->
  netTotal k (perItemSplits (fold_left (debit item a T) ps acc))
  == netTotal k (perItemSplits acc) - owed a T k ps.
Proof.
  intros Hi Hk. revert acc. induction ps as [|p ps IH]; intros acc; simpl.
  - unfold owed. simpl. lra.
  - rewrite IH, owed_cons. unfold debit. simpl.
    rewrite netTotal_creditItem by assumption.
    rewrite (String.eqb_sym k).
    destruct (name p =? k)%string; lra.
Qed.

Lemma allocate_netTotal (item paidBy : string) (a : Q) (ps : list participant)
    (l : ledger) (k : string) :
  item <> Obj.proto -> k <> Obj.proto ->
  netTotal k (perItemSplits (allocate item paidBy a ps l))
    - netTotal k (perItemSplits l)
  == getOr0 k (balances (allocate item paidBy a ps l)) - getOr0 k (balances l).
Proof.
  intros Hi Hk. rewrite allocate_balance by assumption.
  unfold allocate. cbv zeta. simpl perItemSplits.
  rewrite netTotal_creditItem, fold_debit_netTotal by assumption.
  simpl perItemSplits. rewrite netTotal_fresh.
  destruct (k =? paidBy)%string; lra.
Qed.

Lemma processRows_netTotal c allMembers rows l l' (k : string) :
  k <> Obj.proto ->
  processRows c allMembers rows l = Done l' ->
  netTotal k (perItemSplits l') - netTotal k (perItemSplits l)
  == getOr0 k (balances l') - getOr0 k (balances l).
Proof.
  intros Hk. revert l. induction rows as [|row rows IH]; simpl; intros l H.
  - inversion H. lra.
  - destruct (processRow c allMembers l row) as [l1| |] eqn:E; simpl in H; try discriminate.
    specialize (IH _ H). apply processRow_Done in E.
    destruct E as [->|[item [paidBy [a [ps [R [_ ->]]]]]]]; [exact IH|].
    assert (Hi : item <> Obj.proto).
    { eapply modelled_item. apply (res_modelled _ _ _ _ _ _ _ R). }
    pose proof (allocate_netTotal item paidBy a ps l k Hi Hk). lra.
Qed.

Lemma initialBalances_zero (allMembers : list string) (k : string) :
  getOr0 k (initialBalances allMembers) = 0.
Proof.
  unfold initialBalances.
  assert (G : forall b, getOr0 k b = 0 ->
    getOr0 k (fold_left (fun b name => Obj.set name 0 b) allMembers b) = 0).
  { induction allMembers as [|m ms IH]; simpl; intros b Hb; [assumption|].
    apply IH. destruct (String.eqb_spec m Obj.proto) as [->|Hm];
      [now rewrite ObjFacts.set_proto|].
    rewrite getOr0_set by assumption. now destruct (k =? m)%string. }
  now apply G.
Qed.

(** X7. In exact arithmetic, after a batch processed from the zeroed
    ledger the net total of a name over all items (the closing row of the
    per-item table, before rounding) is its balance.  The name is one
    that [Object.prototype] does not define, so that the script reads the
    stored entries. *)
Theorem net_total_is_balance (data : list (list value)) (c : columns)
    (allMembers : list string) (l : ledger) (k : string) :
  Obj.inherits k = false ->
  processExpenses data c allMembers (initialLedger allMembers) = Done l ->
  netTotal k (perItemSplits l) == getOr0 k (balances l).
Proof.
  unfold processExpenses. intros Hk H.
  assert (Hp : k <> Obj.proto) by (intros ->; discriminate).
  pose proof (processRows_netTotal _ _ _ _ _ k Hp H) as E.
  cbn [initialLedger balances perItemSplits] in E.
  rewrite initialBalances_zero in E. unfold netTotal at 2 in E. simpl in E. lra.
Qed.

Lemma net_total_is_balance_witness :
  netTotal "bob" (perItemSplits Example.afterTaxi)
  == getOr0 "bob" (balances Example.afterTaxi).
Proof.
  apply (net_total_is_balance [Example.header; Example.taxi] Example.cols
           Example.members Example.afterTaxi "bob").
  - reflexivity.
  - vm_compute. reflexivity.
Defined.

Lemma itemSum_creditItem (item who : string) (delta : Q) (s : Obj.t (Obj.t Q)) :
  item <> Obj.proto -> who <> Obj.proto ->
  itemSum item (creditItem item who delta s) == itemSum item s + delta.
Proof.
  intros Hi Hw. unfold itemSum, creditItem.
  match goal with |- context [Table.get item (Obj.set item ?v s)] =>
    fold (Obj.get item (Obj.set item v s)) end.
  rewrite ObjFacts.get_assign_same by assumption.
  fold (Obj.values (Obj.set who
          (getOr0 who match Table.get item s with Some shares => shares | None => [] end
           + delta)
          match Table.get item s with Some shares => shares | None => [] end)).
  rewrite ObjFacts.Qsum_assign by assumption.
  destruct (Table.get item s); unfold getOr0; simpl; lra.
Qed.

Lemma itemSum_creditItem_other (item item' who : string) (delta : Q)
    (s : Obj.t (Obj.t Q)) :
  item' <> item -> itemSum item' (creditItem item who delta s) = itemSum item' s.
Proof.
  intros Hne. unfold itemSum, creditItem.
  match goal with |- context [Table.get item' (Obj.set item ?v s)] =>
    fold (Obj.get item' (Obj.set item v s)) end.
  now rewrite ObjFacts.get_assign_other.
Qed.

Lemma fold_debit_itemSum (item : string) (a T : Q) (ps : list participant) (acc : ledger) :
  item <> Obj.proto -> ~ In Obj.proto (map name ps) ->
  itemSum item (perItemSplits (fold_left (debit item a T) ps acc))
  == itemSum item (perItemSplits acc) - a * (Wsum ps / T).
Proof.
  intros Hi. revert acc. induction ps as [|p ps IH]; intros acc Hp; unfold Wsum in *; simpl.
  - unfold Qdiv. ring.
  - simpl in Hp. rewrite IH by tauto. unfold debit. simpl.
    rewrite itemSum_creditItem; [|assumption|intros E; apply Hp; left; exact E].
    unfold Qdiv. ring.
Qed.

Lemma fold_debit_itemSum_other (item item' : string) (a T : Q)
    (ps : list participant) (acc : ledger) :
  item' <> item ->
  itemSum item' (perItemSplits (fold_left (debit item a T) ps acc))
  = itemSum item' (perItemSplits acc).
Proof.
  intros Hne. revert acc. induction ps as [|p ps IH]; intros acc; simpl; [reflexivity|].
  rewrite IH. unfold debit. simpl. now apply itemSum_creditItem_other.
Qed.

Lemma itemSum_fresh (item item' : string) (s : Obj.t (Obj.t Q)) :
  itemSum item' (if Obj.has item s then s else Obj.set item [] s) = itemSum item' s.
Proof.
  destruct (String.eqb_spec item Obj.proto) as [->|Hi].
  - rewrite ObjFacts.set_proto. now destruct (Obj.has Obj.proto s).
  - unfold Obj.has, Table.has. destruct (Table.get item s) eqn:E; [reflexivity|].
    unfold itemSum. fold (Obj.get item' (Obj.set item [] s)).
    destruct (String.eqb_spec item' item) as [->|Hne].
    + rewrite ObjFacts.get_assign_same by assumption. now rewrite E.
    + now rewrite ObjFacts.get_assign_other.
Qed.

Lemma allocate_itemSum (item paidBy : string) (a : Q) (ps : list participant)
    (l : ledger) (item' : string) :
  Forall (fun p => 0 < weight p) ps -> ps <> [] ->
  item <> Obj.proto -> paidBy <> Obj.proto -> ~ In Obj.proto (map name ps) ->
  itemSum item' (perItemSplits (allocate item paidBy a ps l))
  == itemSum item' (perItemSplits l).
Proof.
  intros Hpos Hne Hi Hp Hps. unfold allocate. cbv zeta. simpl perItemSplits.
  destruct (String.eqb_spec item' item) as [->|Hdiff].
  - rewrite itemSum_creditItem, fold_debit_itemSum by assumption.
    simpl perItemSplits. rewrite itemSum_fresh.
    pose proof (Wsum_pos ps Hpos Hne) as HW. rewrite totalWeight_Wsum.
    setoid_replace (a * (Wsum ps / (0 + Wsum ps))) with a; [lra|]. field. lra.
  - rewrite itemSum_creditItem_other, fold_debit_itemSum_other by assumption.
    simpl perItemSplits. now rewrite itemSum_fresh.
Qed.

Lemma processRows_itemSum c allMembers rows l l' (item : string) :
  protoFree c allMembers rows ->
  processRows c allMembers rows l = Done l' ->
  itemSum item (perItemSplits l') == itemSum item (perItemSplits l).
Proof.
  intros Hf. revert l. induction Hf as [|row rows Hr Hf IH]; simpl; intros l H.
  - inversion H. reflexivity.
  - destruct (processRow c allMembers l row) as [l1| |] eqn:E; simpl in H; try discriminate.
    rewrite (IH _ H). apply processRow_Done in E.
    destruct E as [->|[it [paidBy [a [ps [R [_ ->]]]]]]]; [reflexivity|].
    destruct (protoFree_resolved _ _ _ _ _ _ _ R Hr) as [Hp Hps].
    apply allocate_itemSum; try assumption.
    + eapply getParticipants_weights. apply (res_split _ _ _ _ _ _ _ R).
    + apply (res_nonempty _ _ _ _ _ _ _ R).
    + eapply modelled_item. apply (res_modelled _ _ _ _ _ _ _ R).
Qed.

(** X8. In exact arithmetic, every row of the per-item table balances in
    a batch where nobody is called [__proto__]: after the batch has been
    processed from an empty split table, the entries of each item sum to 0,
    however many expenses share the item label. *)
Theorem item_rows_sum_to_zero (data : list (list value)) (c : columns)
    (allMembers : list string) (l : ledger) (item : string) (shares : Obj.t Q) :
  protoFree c allMembers (tl data) ->
  processExpenses data c allMembers (initialLedger allMembers) = Done l ->
  Obj.get item (perItemSplits l) = Some shares ->
  Qsum (Obj.values shares) == 0.
Proof.
  unfold processExpenses. intros Hf H Hget.
  pose proof (processRows_itemSum _ _ _ _ _ item Hf H) as E.
  unfold itemSum in E. rewrite Hget in E. simpl in E. exact E.
Qed.

Lemma item_rows_sum_to_zero_witness :
  Qsum (Obj.values [("alice", -300 # 4); ("bob", 300 # 4)]) == 0.
Proof.
  apply (item_rows_sum_to_zero [Example.header; Example.taxi] Example.cols
           Example.members Example.afterTaxi "Taxi").
  - repeat constructor; simpl; intuition discriminate.
  - vm_compute. reflexivity.
  - reflexivity.
Defined.

(** ** Group balances *)

Lemma key_eqb_eq (k k' : option string) : key_eqb k k' = true <-> k = k'.
Proof.
  destruct k as [s|], k' as [s'|]; simpl; try (split; congruence).
  rewrite String.eqb_eq. split; congruence.
Qed.

Lemma key_eqb_refl (k : option string) : key_eqb k k = true.
Proof. now apply key_eqb_eq. Qed.

Lemma Qsum_addTo (k : option string) (v : Q) (m : list (option string * Q)) :
  Qsum (map snd (addTo k v m)) == Qsum (map snd m) + v.
Proof.
  induction m as [|[k' v'] m IH]; simpl; [lra|].
  destruct (key_eqb k' k); simpl; [lra | rewrite IH; lra].
Qed.

Lemma groupValue_addTo (k k0 : option string) (v : Q) (m : list (option string * Q)) :
  groupValue k (addTo k0 v m)
  == groupValue k m + (if key_eqb k0 k then v else 0).
Proof.
  unfold groupValue. induction m as [|[k' v'] m IH]; simpl.
  - destruct (key_eqb k0 k); simpl; lra.
  - destruct (key_eqb k' k0) eqn:E0; simpl.
    + apply key_eqb_eq in E0. subst k'. destruct (key_eqb k0 k); simpl; lra.
    + destruct (key_eqb k' k) eqn:E1; simpl; [|exact IH].
      apply key_eqb_eq in E1. subst k'.
      destruct (key_eqb k0 k) eqn:E2;
        [apply key_eqb_eq in E2; subst; rewrite key_eqb_refl in E0; discriminate | lra].
Qed.

Lemma keys_addTo (k k0 : option string) (v : Q) (m : list (option string * Q)) :
  In k (map fst (addTo k0 v m)) <-> k = k0 \/ In k (map fst m).
Proof.
  induction m as [|[k' v'] m IH]; simpl; [intuition|].
  destruct (key_eqb k' k0) eqn:E; simpl.
  - apply key_eqb_eq in E. subst. intuition.
  - rewrite IH. intuition.
Qed.

Lemma groupBalances_fold (nameToGroupKey : Table.t string) (balances : Table.t Q)
    (gb : list (option string * Q)) :
  let gb' := fold_left (fun groupBalances e =>
                          addTo (Table.get (fst e) nameToGroupKey) (snd e) groupBalances)
                       balances gb in
  Qsum (map snd gb') == Qsum (map snd gb) + Qsum (Table.values balances)
  /\ (forall k, groupValue k gb' == groupValue k gb + memberSum nameToGroupKey k balances)
  /\ (forall k, In k (map fst gb')
                <-> In k (map fst gb)
                    \/ exists name, In name (Table.keys balances)
                                    /\ Table.get name nameToGroupKey = k).
Proof.
  revert gb. induction balances as [|[n b] bs IH]; intros gb; cbv zeta; simpl.
  - unfold memberSum. simpl. split; [lra|]. split.
    + intros k. lra.
    + intros k. split; [auto | intros [H|[name [[] _]]]; exact H].
  - destruct (IH (addTo (Table.get n nameToGroupKey) b gb)) as [A [B C]].
    cbv zeta in A, B, C. split; [|split].
    + rewrite A, Qsum_addTo. unfold Table.values. lra.
    + intros k. rewrite B, groupValue_addTo. unfold memberSum. simpl.
      destruct (key_eqb (Table.get n nameToGroupKey) k); simpl; lra.
    + intros k. rewrite C, keys_addTo. split.
      * intros [[->|H]|[name [Hin Hk]]]; eauto 6.
      * intros [H|[name [[<-|Hin] Hk]]]; eauto 6.
Qed.

(** X9. Aggregation is a regrouping: the group balances add up to what the
    member balances add up to, the balance of a key is the sum of the
    balances of the names assigned to it, and a key is listed exactly when
    some name of the balances is assigned to it ([undefined] included, for
    a name that has no group). *)
Theorem group_balances_regroup (nameToGroupKey : Table.t string) (balances : Table.t Q) :
  let groupBalances := calculateGroupBalances nameToGroupKey balances in
  Qsum (map snd groupBalances) == Qsum (Table.values balances)
  /\ (forall k, groupValue k groupBalances == memberSum nameToGroupKey k balances)
  /\ (forall k, In k (map fst groupBalances)
                <-> exists name, In name (Table.keys balances)
                                 /\ Table.get name nameToGroupKey = k).
Proof.
  cbv zeta. unfold calculateGroupBalances.
  destruct (groupBalances_fold nameToGroupKey balances []) as [A [B C]].
  cbv zeta in A, B, C. split; [|split].
  - rewrite A. simpl. lra.
  - intros k. rewrite B. unfold groupValue. simpl. lra.
  - intros k. rewrite C. simpl. split; [intros [[]|H]; exact H | auto].
Qed.

Lemma mapM_Thrown {A B} (f : A -> outcome B) (e : string) (l : list A) :
  (forall x, In x l -> (exists y, f x = Done y) \/ f x = Thrown e) ->
  (exists x, In x l /\ f x = Thrown e) ->
  mapM f l = Thrown e.
Proof.
  induction l as [|x l IH]; simpl; intros Hall [x0 [Hin Hx0]]; [contradiction|].
  destruct (Hall x (or_introl eq_refl)) as [[y Hy]|Hy]; rewrite Hy; simpl; [|reflexivity].
  destruct Hin as [->|Hin]; [congruence|].
  rewrite IH; [reflexivity | intros z Hz; apply Hall; now right | eauto].
Qed.

Lemma subgroup_table_throws (subgroupMap : Table.t (list string))
    (nameToGroupKey : Table.t string) (balances : Table.t Q) (k : string) :
  In k (Table.keys balances) ->
  Table.get k nameToGroupKey = None ->
  writeSubgroupBalanceTable subgroupMap nameToGroupKey balances = Thrown TypeError.
Proof.
  intros Hin Hnone. unfold writeSubgroupBalanceTable. apply mapM_Thrown.
  - intros [[key|] v] _; simpl; [|now right].
    destruct (Table.get key subgroupMap); [left; eauto | now right].
  - destruct (groupBalances_fold nameToGroupKey balances []) as [_ [_ C]].
    cbv zeta in C.
    assert (H : In None (map fst (calculateGroupBalances nameToGroupKey balances))).
    { apply C. right. exists k. split; assumption. }
    apply in_map_iff in H. destruct H as [[k' v] [Hk' Hv]]. simpl in Hk'. subst k'.
    exists (None, v). split; [exact Hv | reflexivity].
Qed.

(** X10. A name that has a balance but no group (a payer or participant that
    is not a member) makes [writeSubgroupBalanceTable] throw, whatever the
    other balances are: the per-item and balance tables are the last ones
    written, and no transaction table is. *)
Theorem groupless_name_throws (subgroupMap : Table.t (list string))
    (nameToGroupKey : Table.t string) (balances : Table.t Q) (k : string) :
  In k (Table.keys balances) ->
  Table.get k nameToGroupKey = None ->
  writeSubgroupBalanceTable subgroupMap nameToGroupKey balances = Thrown TypeError
  /\ forall rows, writeSubgroupBalanceTable subgroupMap nameToGroupKey balances
                  <> Done rows.
Proof.
  intros Hin Hnone.
  rewrite (subgroup_table_throws subgroupMap nameToGroupKey balances k Hin Hnone).
  split; [reflexivity | discriminate].
Qed.

Lemma groupless_name_throws_witness :
  writeSubgroupBalanceTable [("alice", ["alice"])] [("alice", "alice")]
    [("alice", 20); ("zed", - (20))] = Thrown TypeError
  /\ forall rows, writeSubgroupBalanceTable [("alice", ["alice"])] [("alice", "alice")]
                    [("alice", 20); ("zed", - (20))] <> Done rows.
Proof.
  apply (groupless_name_throws _ _ _ "zed"); [simpl; tauto | reflexivity].
Defined.

(** ** Sets *)

Lemma Set_add_NoDup (x : string) (s : list string) : NoDup s -> NoDup (Set_add x s).
Proof.
  intros H. unfold Set_add. destruct (existsb (String.eqb x) s) eqn:E; [assumption|].
  apply NoDup_app; [assumption | repeat constructor; simpl; tauto |].
  intros y Hy [Hxy|[]]. subst y.
  assert (Hhas : Set_has x s = true) by now apply Set_has_In.
  unfold Set_has in Hhas. congruence.
Qed.

Lemma Set_of_fold (l s : list string) :
  NoDup s ->
  NoDup (fold_left (fun s x => Set_add x s) l s)
  /\ forall x, In x (fold_left (fun s x => Set_add x s) l s) <-> In x s \/ In x l.
Proof.
  revert s. induction l as [|y l IH]; simpl; intros s Hs.
  - split; [assumption | intros x; tauto].
  - destruct (IH (Set_add y s) (Set_add_NoDup y s Hs)) as [A B]. split; [exact A|].
    intros x. rewrite B, Set_add_In. intuition.
Qed.

(** [new Set(array)] holds every element of the array once, and what is
    already a duplicate-free list is left as it is. *)
Theorem Set_of_spec (l : list string) :
  NoDup (Set_of l)
  /\ (forall x, In x (Set_of l) <-> In x l)
  /\ (NoDup l -> Set_of l = l).
Proof.
  unfold Set_of. destruct (Set_of_fold l [] (NoDup_nil _)) as [A B].
  split; [exact A|]. split; [intros x; rewrite B; simpl; tauto|].
  assert (G : forall s, NoDup (s ++ l)%list ->
                fold_left (fun s x => Set_add x s) l s = (s ++ l)%list).
  { clear. induction l as [|y l IH]; intros s H; simpl; [now rewrite app_nil_r|].
    assert (E : Set_add y s = (s ++ [y])%list).
    { unfold Set_add. destruct (existsb (String.eqb y) s) eqn:E; [|reflexivity].
      exfalso. apply NoDup_remove_2 in H. apply H. apply in_app_iff. left.
      apply Set_has_In. exact E. }
    rewrite E, IH; rewrite <- app_assoc; [reflexivity | exact H]. }
  intros H. apply (G []). exact H.
Qed.

Lemma Set_of_spec_witness : Set_of Example.members = Example.members.
Proof. exact (proj2 (proj2 (Set_of_spec Example.members)) NoDup_members). Defined.

(** ** The keys of the balances *)

Lemma extends_refl (b : Obj.t Q) : extends b b.
Proof. split; [exists []; now rewrite app_nil_r | auto]. Qed.

Lemma extends_trans (b1 b2 b3 : Obj.t Q) :
  extends b1 b2 -> extends b2 b3 -> extends b1 b3.
Proof.
  intros [[e1 E1] N1] [[e2 E2] N2]. split; [|auto].
  exists (e1 ++ e2)%list. now rewrite E2, E1, app_assoc.
Qed.

Lemma set_extends (who : string) (v : Q) (b : Obj.t Q) :
  Obj.arrayIndex who = None -> extends b (Obj.set who v b).
Proof.
  intros Hi. split; [|apply ObjFacts.NoDup_keys_set].
  destruct (String.eqb_spec who Obj.proto) as [->|Hw];
    [exists []; now rewrite ObjFacts.set_proto, app_nil_r|].
  rewrite ObjFacts.set_plain, TableFacts.keys_set by assumption.
  destruct (Obj.has who b); [exists []; now rewrite app_nil_r | now exists [who]].
Qed.

Lemma credit_extends (who : string) (delta : Q) (b : Obj.t Q) :
  Obj.arrayIndex who = None -> extends b (credit who delta b).
Proof.
  intros Hi. destruct (String.eqb_spec who Obj.proto) as [->|Hw];
    [rewrite credit_proto; apply extends_refl|].
  rewrite credit_stored by assumption.
  eapply extends_trans; [|now apply set_extends].
  destruct (Obj.has who b); [apply extends_refl | now apply set_extends].
Qed.

Lemma fold_debit_extends (item : string) (a T : Q) (ps : list participant) (acc : ledger) :
  Forall (fun k => Obj.arrayIndex k = None) (map name ps) ->
  extends (balances acc) (balances (fold_left (debit item a T) ps acc)).
Proof.
  revert acc. induction ps as [|p ps IH]; intros acc H; simpl; [apply extends_refl|].
  inversion H; subst.
  eapply extends_trans; [|now apply IH]. unfold debit. simpl. now apply credit_extends.
Qed.

Lemma allocate_extends (item paidBy : string) (a : Q) (ps : list participant) (l : ledger) :
  Forall (fun k => Obj.arrayIndex k = None) (paidBy :: map name ps) ->
  extends (balances l) (balances (allocate item paidBy a ps l)).
Proof.
  intros H. inversion H; subst.
  unfold allocate. cbv zeta. simpl balances.
  eapply extends_trans; [|now apply credit_extends].
  now apply (fold_debit_extends item a _ ps
               {| balances := balances l;
                  perItemSplits := if Obj.has item (perItemSplits l) then perItemSplits l
                                   else Obj.set item [] (perItemSplits l) |}).
Qed.

Lemma processRows_extends c allMembers rows l l' :
  indexFree c allMembers rows ->
  processRows c allMembers rows l = Done l' -> extends (balances l) (balances l').
Proof.
  intros Hf. revert l. induction Hf as [|row rows Hr Hf IH]; simpl; intros l H.
  - inversion H. apply extends_refl.
  - destruct (processRow c allMembers l row) as [l1| |] eqn:E; simpl in H; try discriminate.
    eapply extends_trans; [|apply (IH _ H)]. apply processRow_Done in E.
    destruct E as [->|[item [paidBy [a [ps [R [_ ->]]]]]]]; [apply extends_refl|].
    apply allocate_extends. now rewrite <- (namesOf_resolved _ _ _ _ _ _ _ R).
Qed.

(** Keys are never removed, whatever the names. *)
Lemma processRows_keeps c allMembers rows l l' :
  processRows c allMembers rows l = Done l' ->
  incl (Obj.keys (balances l)) (Obj.keys (balances l'))
  /\ (NoDup (Obj.keys (balances l)) -> NoDup (Obj.keys (balances l'))).
Proof.
  revert l. induction rows as [|row rows IH]; simpl; intros l H.
  - inversion H. split; [apply incl_refl | auto].
  - destruct (processRow c allMembers l row) as [l1| |] eqn:E; simpl in H; try discriminate.
    destruct (IH _ H) as [I N]. apply processRow_Done in E.
    destruct E as [->|[item [paidBy [a [ps [R [_ ->]]]]]]]; [now split|].
    split.
    + intros k Hk. apply I. apply allocate_keys. now left.
    + intros Hnd. apply N. now apply allocate_NoDup.
Qed.

Lemma initialBalances_keys (allMembers : list string) :
  NoDup allMembers ->
  Forall (fun m => m <> Obj.proto /\ Obj.arrayIndex m = None) allMembers ->
  Obj.keys (initialBalances allMembers) = allMembers.
Proof.
  unfold initialBalances.
  assert (G : forall b : Obj.t Q, NoDup (Obj.keys b ++ allMembers)%list ->
    Forall (fun m => m <> Obj.proto /\ Obj.arrayIndex m = None) allMembers ->
    Obj.keys (fold_left (fun b name => Obj.set name 0 b) allMembers b)
    = (Obj.keys b ++ allMembers)%list).
  { induction allMembers as [|m ms IH]; intros b H F; simpl; [now rewrite app_nil_r|].
    inversion F as [|? ? [Hp Hi] F']; subst.
    assert (Hm : ~ In m (Obj.keys b)).
    { apply NoDup_remove_2 in H. intros Hin. apply H. apply in_app_iff. now left. }
    rewrite (ObjFacts.set_plain m 0 b Hp Hi).
    assert (Ek : Obj.keys (Table.set m 0 b) = (Obj.keys b ++ [m])%list).
    { rewrite (AssignFacts.set_fresh m 0 b Hm). unfold Table.keys. now rewrite map_app. }
    rewrite IH; rewrite ?Ek, <- ?app_assoc; [reflexivity | exact H | exact F']. }
  intros H F. now apply (G []).
Qed.

(** X11. Processing never removes a balance and never repeats a key.  In
    a batch where no name is an array index (such a name is enumerated
    before the others, in numeric order) the keys before the batch stay in
    place and the new names are added after them: from the zeroed ledger
    the table then starts with the known members in their order, provided
    none of them is an array index or [__proto__], which gets no entry. *)
Theorem balances_only_grow (data : list (list value)) (c : columns)
    (allMembers : list string) (l l' : ledger) :
  processExpenses data c allMembers l = Done l' ->
  incl (Obj.keys (balances l)) (Obj.keys (balances l'))
  /\ (NoDup (Obj.keys (balances l)) -> NoDup (Obj.keys (balances l')))
  /\ (indexFree c allMembers (tl data) ->
      (exists extra, Obj.keys (balances l') = (Obj.keys (balances l) ++ extra)%list)
      /\ (NoDup allMembers ->
          Forall (fun m => m <> Obj.proto /\ Obj.arrayIndex m = None) allMembers ->
          l = initialLedger allMembers ->
          exists extra, Obj.keys (balances l') = (allMembers ++ extra)%list
                        /\ NoDup (allMembers ++ extra)%list)).
Proof.
  unfold processExpenses. intros H.
  destruct (processRows_keeps _ _ _ _ _ H) as [I N].
  split; [exact I|]. split; [exact N|].
  intros Hf. apply (processRows_extends _ _ _ _ _ Hf) in H.
  destruct H as [[extra E] _]. split; [eauto|].
  intros Hnd F ->. cbn [initialLedger balances] in *.
  rewrite (initialBalances_keys _ Hnd F) in *.
  exists extra. split; [exact E|]. rewrite <- E. now apply N.
Qed.

Lemma balances_only_grow_witness :
  incl (Obj.keys (balances (initialLedger Example.members)))
       (Obj.keys (balances Example.afterSnacks))
  /\ (NoDup (Obj.keys (balances (initialLedger Example.members))) ->
      NoDup (Obj.keys (balances Example.afterSnacks)))
  /\ (indexFree Example.cols Example.members (tl [Example.header; Example.snacks]) ->
      (exists extra, Obj.keys (balances Example.afterSnacks)
                     = (Obj.keys (balances (initialLedger Example.members)) ++ extra)%list)
      /\ (NoDup Example.members ->
          Forall (fun m => m <> Obj.proto /\ Obj.arrayIndex m = None) Example.members ->
          initialLedger Example.members = initialLedger Example.members ->
          exists extra, Obj.keys (balances Example.afterSnacks)
                        = (Example.members ++ extra)%list
                        /\ NoDup (Example.members ++ extra)%list)).
Proof.
  apply (balances_only_grow [Example.header; Example.snacks] Example.cols).
  vm_compute. reflexivity.
Defined.

(** ** A completed run *)

Lemma toFixed2_comp (x y : Q) : x == y -> toFixed2 x = toFixed2 y.
Proof.
  intros E. unfold toFixed2.
  assert (F : Qfloor (Qabs x * 100 + (1 # 2)) = Qfloor (Qabs y * 100 + (1 # 2))).
  { apply Qfloor_comp. now rewrite E. }
  assert (L : Qltb x 0 = Qltb y 0).
  { destruct (Qltb y 0) eqn:Ey.
    - apply Qltb_lt. apply Qltb_lt in Ey. lra.
    - apply Qltb_ge. apply Qltb_ge in Ey. lra. }
  now rewrite F, L.
Qed.

Lemma values_by_keys (b : Table.t Q) :
  NoDup (Table.keys b) -> map snd b = map (fun k => getOr0 k b) (Table.keys b).
Proof.
  induction b as [|[k v] b IH]; simpl; intros H; [reflexivity|].
  inversion H as [|? ? Hk Hb]; subst. unfold getOr0 at 1. simpl.
  rewrite String.eqb_refl. f_equal. rewrite (IH Hb).
  apply map_ext_in. intros k' Hk'. unfold getOr0. simpl.
  destruct (String.eqb_spec k k') as [->|_]; [contradiction | reflexivity].
Qed.

Lemma assignMembers_keys (ms : list string) (a : assignment) (k : string) :
  In k (Table.keys (nameToGroupKey (fold_left assignMember ms a)))
  <-> In k (Table.keys (nameToGroupKey a)) \/ In k ms.
Proof.
  revert a. induction ms as [|m ms IH]; intros a; simpl; [tauto|].
  rewrite IH. unfold assignMember.
  destruct (findGroup m (subgroupMap a)) as [[key group]|];
    cbn [nameToGroupKey]; rewrite TableFacts.keys_set;
    destruct (Table.has m (nameToGroupKey a)) eqn:E;
    try (apply TableFacts.has_In in E); rewrite ?in_app_iff; simpl;
    intuition (subst; auto).
Qed.

(** Every member, and only a member, has a group key after the
    assignment. *)
Lemma assigned_iff_member (ms : list string) (registered : Table.t (list string))
    (k : string) :
  Table.get k (nameToGroupKey (assignMembersToSubgroups ms registered [] [])) <> None
  <-> In k ms.
Proof.
  unfold assignMembersToSubgroups.
  pose proof (assignMembers_keys ms
                {| subgroupMap := registered; nameToGroupKey := []; nameToGroup := [] |} k)
    as H.
  simpl in H.
  rewrite <- TableFacts.has_In in H. unfold Table.has in H.
  destruct (Table.get k _); split; intros; try congruence; intuition congruence.
Qed.

Lemma writeSubgroupBalanceTable_Done subgroupMap nameToGroupKey balances rows :
  writeSubgroupBalanceTable subgroupMap nameToGroupKey balances = Done rows ->
  forall k, In k (Table.keys balances) -> Table.get k nameToGroupKey <> None.
Proof.
  intros H k Hin Hnone.
  rewrite (subgroup_table_throws subgroupMap nameToGroupKey balances k Hin Hnone) in H.
  discriminate.
Qed.

(** The data behind a completed run. *)
Lemma run_Done (ss : spreadsheet) (out : output) :
  calculateExpensesWithSubgroups ss = Done out ->
  exists allMembers registered data c l subgroupRows,
    NoDup allMembers
    /\ processExpenses data c allMembers (initialLedger allMembers) = Done l
    /\ writeSubgroupBalanceTable
         (subgroupMap (assignMembersToSubgroups allMembers registered [] []))
         (nameToGroupKey (assignMembersToSubgroups allMembers registered [] []))
         (balances l) = Done subgroupRows
    /\ perItemHeader out = "Item" :: map Str.capitalize allMembers
    /\ balanceTable out = writeBalanceTable (balances l)
    /\ memberTransactionTable out
       = Settle.generateMinimalMemberTransactions (balances l).
Proof.
  unfold calculateExpensesWithSubgroups.
  destruct (membersSheet ss) as [ms|]; [|discriminate].
  destruct (subgroupsSheet ss) as [sg|]; [|discriminate].
  destruct (expensesSheet ss) as [data|]; [|discriminate].
  destruct (findMembersColumn 0 (hd [] ms) =? 0)%Z; [discriminate|].
  destruct (getColumn ms _) as [membersData| |]; simpl; try discriminate.
  destruct (mapM memberName _) as [names| |]; simpl; try discriminate.
  destruct (getColumn sg 2) as [subgroupsData| |]; simpl; try discriminate.
  destruct (registerGroups [] _) as [registered| |]; simpl; try discriminate.
  destruct (match data with [] => Thrown TypeError | row0 :: _ => mapM headerName row0 end)
    as [headers| |]; simpl; try discriminate.
  destruct (processExpenses data _ _ _) as [l| |] eqn:El; simpl; try discriminate.
  destruct (writePerItemSplitTable _ _) as [perItem| |] eqn:Ep; simpl; try discriminate.
  destruct (writeSubgroupBalanceTable _ _ _) as [subgroupRows| |] eqn:Es; simpl;
    try discriminate.
  destruct (writeTransactionTable _ _) as [txs| |]; simpl; try discriminate.
  intros H. inversion H; subst; clear H.
  exists (Set_of names), registered, data, (getColumnIndexesExpenses headers), l, subgroupRows.
  cbn [perItemHeader perItemRows balanceTable memberTransactionTable].
  repeat split; try assumption; try reflexivity.
  - apply (Set_of_fold names [] (NoDup_nil _)).
  - unfold writePerItemSplitTable in Ep.
    destruct (mapM _ (perItemSplits l)); simpl in Ep; try discriminate.
    now inversion Ep.
Qed.

(** A name that is displayed as neither [__proto__] nor an array index is
    neither. *)
Lemma capitalize_plain (m : string) :
  Str.capitalize m <> Obj.proto /\ Obj.arrayIndex (Str.capitalize m) = None ->
  m <> Obj.proto /\ Obj.arrayIndex m = None.
Proof.
  intros [Hp Hi]. split; [intros ->; now apply Hp|].
  destruct (Obj.arrayIndex m) as [n|] eqn:E; [|reflexivity].
  assert (Hc : Str.capitalize m = m).
  { destruct m as [|c rest]; [reflexivity|]. simpl.
    assert (Hd : Parse.digit_of c <> None).
    { intros Hd. unfold Obj.arrayIndex in E. simpl in E. rewrite Hd in E.
      simpl in E. discriminate. }
    unfold Parse.digit_of in Hd. unfold Str.upper.
    destruct ((48 <=? Str.code c) && (Str.code c <=? 57))%Z eqn:D; [|congruence].
    apply andb_prop in D. destruct D as [D1 D2].
    apply Z.leb_le in D1. apply Z.leb_le in D2.
    destruct ((97 <=? Str.code c) && (Str.code c <=? 122))%Z eqn:U; [|reflexivity].
    apply andb_prop in U. destruct U as [U1 _]. apply Z.leb_le in U1. lia. }
  rewrite Hc in Hi. congruence.
Qed.

(** Without a new key the keys stay as they are. *)
Lemma set_keys_cases {V} (k : string) (v : V) (o : Obj.t V) :
  Obj.keys (Obj.set k v o) = Obj.keys o \/ ~ In k (Obj.keys o).
Proof.
  destruct (Obj.has k o) eqn:E.
  - left. now apply ObjFacts.keys_set_own.
  - right. intros Hin. apply TableFacts.has_In in Hin. congruence.
Qed.

Lemma credit_keys_closed (who : string) (delta : Q) (b : Obj.t Q) (ks : list string) :
  incl (Obj.keys (credit who delta b)) ks -> Obj.keys b = ks ->
  Obj.keys (credit who delta b) = ks.
Proof.
  intros I E. destruct (String.eqb_spec who Obj.proto) as [->|Hw];
    [now rewrite credit_proto|].
  assert (Hin : In who (Obj.keys b)).
  { rewrite E. apply I. apply keys_credit. right. now split. }
  apply TableFacts.has_In in Hin.
  rewrite credit_stored, Hin by assumption.
  now rewrite ObjFacts.keys_set_own.
Qed.

Lemma fold_debit_incl (item : string) (a T : Q) (ps : list participant) (acc : ledger) :
  incl (Obj.keys (balances acc)) (Obj.keys (balances (fold_left (debit item a T) ps acc))).
Proof. intros k Hk. apply fold_debit_keys. now left. Qed.

Lemma fold_debit_keys_closed (item : string) (a T : Q) (ps : list participant)
    (acc : ledger) (ks : list string) :
  incl (Obj.keys (balances (fold_left (debit item a T) ps acc))) ks ->
  Obj.keys (balances acc) = ks ->
  Obj.keys (balances (fold_left (debit item a T) ps acc)) = ks.
Proof.
  revert acc. induction ps as [|p ps IH]; intros acc I E; simpl in *; [assumption|].
  apply IH; [assumption|]. unfold debit. simpl.
  apply credit_keys_closed; [|assumption].
  intros k Hk. apply I. apply fold_debit_incl. exact Hk.
Qed.

Lemma allocate_keys_closed (item paidBy : string) (a : Q) (ps : list participant)
    (l : ledger) (ks : list string) :
  incl (Obj.keys (balances (allocate item paidBy a ps l))) ks ->
  Obj.keys (balances l) = ks ->
  Obj.keys (balances (allocate item paidBy a ps l)) = ks.
Proof.
  unfold allocate. cbv zeta. simpl balances. intros I E.
  apply credit_keys_closed; [assumption|].
  apply fold_debit_keys_closed; [|exact E].
  intros k Hk. apply I. apply keys_credit. now left.
Qed.

Lemma processRows_keys_closed c allMembers rows l l' :
  processRows c allMembers rows l = Done l' ->
  incl (Obj.keys (balances l')) (Obj.keys (balances l)) ->
  Obj.keys (balances l') = Obj.keys (balances l).
Proof.
  revert l. induction rows as [|row rows IH]; simpl; intros l H I.
  - now inversion H.
  - destruct (processRow c allMembers l row) as [l1| |] eqn:E; simpl in H; try discriminate.
    destruct (processRows_keeps _ _ _ _ _ H) as [I1 _].
    apply processRow_Done in E.
    destruct E as [->|[item [paidBy [a [ps [R [_ ->]]]]]]]; [now apply IH|].
    assert (E1 : Obj.keys (balances (allocate item paidBy a ps l)) = Obj.keys (balances l)).
    { apply allocate_keys_closed; [|reflexivity].
      intros k Hk. apply I. now apply I1. }
    rewrite <- E1. apply IH; [assumption|]. now rewrite E1.
Qed.

(** X12. When the run completes, the balance table has one row for each
    member, in the order of the columns of the per-item table, provided
    no member is displayed as an array index (which is enumerated first)
    or as [__proto__] (which gets no balance). *)
Theorem completed_run_tables_agree (ss : spreadsheet) (out : output) :
  calculateExpensesWithSubgroups ss = Done out ->
  Forall (fun shown => shown <> Obj.proto /\ Obj.arrayIndex shown = None)
         (tl (perItemHeader out)) ->
  map fst (balanceTable out) = tl (perItemHeader out).
Proof.
  intros H F.
  destruct (run_Done ss out H)
    as [ms [registered [data [c [l [rows [Hnd [Hl [Hs [Hh [Hb _]]]]]]]]]]].
  rewrite Hh in F |- *. simpl tl in *.
  assert (Fm : Forall (fun m => m <> Obj.proto /\ Obj.arrayIndex m = None) ms).
  { rewrite Forall_forall in *. intros m Hm. apply capitalize_plain.
    apply F. now apply in_map. }
  pose proof Hl as Hx. unfold processExpenses in Hx.
  pose proof (processRows_keys_closed _ _ _ _ _ Hx) as Ek.
  cbn [initialLedger balances] in Ek.
  rewrite (initialBalances_keys _ Hnd Fm) in Ek.
  rewrite Hb. unfold writeBalanceTable. rewrite map_map. simpl.
  rewrite <- Ek.
  - unfold Table.keys. now rewrite map_map.
  - intros k Hk.
    pose proof (writeSubgroupBalanceTable_Done _ _ _ _ Hs k Hk) as Hgrp.
    now apply assigned_iff_member in Hgrp.
Qed.

Lemma completed_run_tables_agree_witness :
  map fst (balanceTable Example.tripOutput) = tl (perItemHeader Example.tripOutput).
Proof.
  apply (completed_run_tables_agree Example.trip Example.tripOutput).
  - vm_compute. reflexivity.
  - repeat constructor; try discriminate; reflexivity.
Defined.

(** ** What the minimizer emits *)

Module EmitFacts.
Import Settle SettleFacts LoopFacts MinimizeFacts GreedyFacts.










End EmitFacts.




(** ** The order of the rows *)

(** What a row does is decided by the row and by whether a balance is
    named [hasOwnProperty]. *)
Lemma processRow_shape c allMembers row :
  (forall l, processRow c allMembers l row = Done l)
  \/ (exists item paidBy amount ps, resolved c allMembers row item paidBy amount ps)
  \/ (forall l, exists o, processRow c allMembers l row = o /\ forall l', o <> Done l').
Proof.
  unfold processRow.
  destruct (truthy (cell row (expensesStartCol c))) eqn:Ei; simpl; [|now left].
  destruct (truthy (cell row (paidByColIndex c))) eqn:Ep; simpl; [|now left].
  destruct (parseFloat (cell row (amountColIndex c))) as [|a|neg] eqn:Ea; simpl;
    [now left| |].
  - destruct (cell row (paidByColIndex c)) as [|raw|] eqn:Ecp; simpl;
      try (right; right; intros l; eexists; split; [reflexivity | discriminate]).
    destruct (getParticipants _ allMembers) as [ps| |] eqn:Eg; simpl;
      try (right; right; intros l; eexists; split; [reflexivity | discriminate]).
    destruct ps as [|p ps]; simpl; [now left|].
    destruct (cell row (expensesStartCol c)) as [|item|] eqn:Eci; simpl;
      try (right; right; intros l; eexists; split; [reflexivity | discriminate]).
    destruct (beyondModel item (Str.normalize raw) (p :: ps) []) eqn:Em.
    + right. right. intros l. rewrite beyondModel_split, Em. simpl.
      eexists; split; [reflexivity | discriminate].
    + right. left. exists item, (Str.normalize raw), a, (p :: ps).
      split; try assumption; try discriminate.
      * split; [assumption|]. intros ->. discriminate.
      * exists raw. split; [assumption|]. split; [|reflexivity]. intros ->. discriminate.
  - destruct (cell row (paidByColIndex c)) as [|raw|] eqn:Ecp; simpl;
      try (right; right; intros l; eexists; split; [reflexivity | discriminate]).
    destruct (getParticipants _ allMembers) as [ps| |] eqn:Eg; simpl;
      try (right; right; intros l; eexists; split; [reflexivity | discriminate]).
    destruct ps as [|p ps]; simpl; [now left|].
    right; right; intros l; eexists; split; [reflexivity | discriminate].
Qed.

Lemma processRow_guarded c allMembers l row item paidBy amount ps :
  resolved c allMembers row item paidBy amount ps ->
  processRow c allMembers l row
  = if Obj.has "hasOwnProperty" (balances l) then Unmodelled
    else Done (allocate item paidBy amount ps l).
Proof.
  intros R. destruct (Obj.has "hasOwnProperty" (balances l)) eqn:Hh;
    [|now apply processRow_resolved].
  destruct R as [[Hi Hi'] [raw [Hp [Hp' ->]]] Ha Hs Hn Hm]. unfold processRow.
  rewrite Hi, Hp, Ha, Hs, !truthy_Str by assumption. simpl.
  destruct ps; [congruence|]. simpl.
  now rewrite beyondModel_split, Hm, Hh.
Qed.

(** No row of the model creates a balance named [hasOwnProperty]. *)
Lemma allocate_method (item paidBy : string) (a : Q) (ps : list participant) (l : ledger) :
  beyondModel item paidBy ps [] = false ->
  Obj.has "hasOwnProperty" (balances (allocate item paidBy a ps l))
  = Obj.has "hasOwnProperty" (balances l).
Proof.
  intros Hm.
  assert (Hn : ~ In "hasOwnProperty" (paidBy :: map name ps)).
  { intros Hin. unfold beyondModel in Hm. rewrite orb_false_r in Hm.
    apply orb_false_elim in Hm. destruct Hm as [_ Hm].
    rewrite <- not_true_iff_false in Hm. apply Hm. apply existsb_exists.
    exists "hasOwnProperty". split; [assumption | reflexivity]. }
  destruct (Obj.has "hasOwnProperty" (balances l)) eqn:E.
  - apply TableFacts.has_In. apply allocate_keys. left. now apply TableFacts.has_In.
  - rewrite <- not_true_iff_false in *. intros H. apply TableFacts.has_In in H.
    apply allocate_keys in H. destruct H as [H|[H _]].
    + apply E. now apply TableFacts.has_In.
    + apply Hn. simpl. destruct H as [H|H]; [now right | now left].
Qed.

Lemma getOr0_credit_proto (who : string) (delta : Q) (b : Obj.t Q) :
  getOr0 Obj.proto (credit who delta b) = getOr0 Obj.proto b.
Proof.
  destruct (String.eqb_spec who Obj.proto) as [->|Hw]; [now rewrite credit_proto|].
  rewrite getOr0_credit by assumption.
  destruct (String.eqb_spec Obj.proto who); [congruence | reflexivity].
Qed.

Lemma fold_debit_proto (item : string) (a T : Q) (ps : list participant) (acc : ledger) :
  getOr0 Obj.proto (balances (fold_left (debit item a T) ps acc))
  = getOr0 Obj.proto (balances acc).
Proof.
  revert acc. induction ps as [|p ps IH]; intros acc; simpl; [reflexivity|].
  rewrite IH. unfold debit. simpl. apply getOr0_credit_proto.
Qed.

Lemma allocate_proto (item paidBy : string) (a : Q) (ps : list participant) (l : ledger) :
  getOr0 Obj.proto (balances (allocate item paidBy a ps l))
  = getOr0 Obj.proto (balances l).
Proof.
  unfold allocate. cbv zeta. simpl balances.
  now rewrite getOr0_credit_proto, fold_debit_proto.
Qed.

(** What one allocated expense adds does not depend on the ledger. *)
Lemma allocate_effect (item paidBy : string) (a : Q) (ps : list participant)
    (l : ledger) (k : string) :
  getOr0 k (balances (allocate item paidBy a ps l))
  == getOr0 k (balances l)
     + getOr0 k (balances (allocate item paidBy a ps {| balances := []; perItemSplits := [] |})).
Proof.
  destruct (String.eqb_spec k Obj.proto) as [->|Hk].
  - rewrite !allocate_proto. cbn [balances]. rewrite getOr0_nil. lra.
  - rewrite !allocate_balance by assumption. cbn [balances].
    rewrite getOr0_nil. destruct (k =? paidBy)%string; lra.
Qed.

Lemma processRow_effect c allMembers row l l' :
  processRow c allMembers l row = Done l' ->
  (forall k, getOr0 k (balances l')
             == getOr0 k (balances l) + rowEffect c allMembers row k)
  /\ Obj.has "hasOwnProperty" (balances l') = Obj.has "hasOwnProperty" (balances l)
  /\ forall l2, Obj.has "hasOwnProperty" (balances l2)
                = Obj.has "hasOwnProperty" (balances l) ->
                exists l2', processRow c allMembers l2 row = Done l2'.
Proof.
  intros H. unfold rowEffect.
  destruct (processRow_shape c allMembers row) as [S|[[item [paidBy [a [ps R]]]]|S]].
  - rewrite (S l) in H. inversion H; subst. split; [|split; eauto].
    intros k. rewrite S. cbn [balances]. rewrite getOr0_nil. lra.
  - rewrite (processRow_guarded c allMembers l _ _ _ _ _ R) in H.
    destruct (Obj.has "hasOwnProperty" (balances l)) eqn:Hh; [discriminate|].
    inversion H; subst. split; [|split].
    + intros k. rewrite (processRow_guarded c allMembers _ _ _ _ _ _ R).
      cbn [balances Table.has Table.get]. apply allocate_effect.
    + rewrite allocate_method; [assumption | apply (res_modelled _ _ _ _ _ _ _ R)].
    + intros l2 E. rewrite (processRow_guarded c allMembers l2 _ _ _ _ _ R), E. eauto.
  - destruct (S l) as [o [Ho Hn]]. rewrite Ho in H. exfalso. now apply (Hn l').
Qed.

Lemma processRows_effect c allMembers rows l l' :
  processRows c allMembers rows l = Done l' ->
  (forall k, getOr0 k (balances l')
             == getOr0 k (balances l)
                + Qsum (map (fun row => rowEffect c allMembers row k) rows))
  /\ Forall (runsFrom c allMembers l) rows.
Proof.
  revert l. induction rows as [|row rows IH]; simpl; intros l H.
  - inversion H. split; [intros k; lra | constructor].
  - destruct (processRow c allMembers l row) as [l1| |] eqn:E; simpl in H; try discriminate.
    destruct (processRow_effect _ _ _ _ _ E) as [E1 [E2 E3]].
    destruct (IH _ H) as [I1 I2]. split.
    + intros k. rewrite I1, E1. lra.
    + constructor.
      * intros l2 Hl2. destruct (E3 l2 Hl2) as [l2' Hl2'].
        exists l2'. split; [assumption|].
        now destruct (processRow_effect _ _ _ _ _ Hl2') as [_ [K _]].
      * eapply Forall_impl; [|exact I2]. intros r Hr l2 Hl2. apply Hr. congruence.
Qed.

Lemma processRows_total c allMembers rows l0 l :
  Forall (runsFrom c allMembers l0) rows ->
  Obj.has "hasOwnProperty" (balances l) = Obj.has "hasOwnProperty" (balances l0) ->
  exists l', processRows c allMembers rows l = Done l'.
Proof.
  intros H. revert l. induction H as [|row rows Hrow _ IH]; intros l Hl; simpl; [eauto|].
  destruct (Hrow l Hl) as [l1 [E K]]. rewrite E. simpl. apply IH. congruence.
Qed.

(** X15. In exact arithmetic the balances do not depend on the order of
    the expense rows: a batch that completes also completes with its rows
    in any other order, and every name ends with the same balance (the
    order of new names in the table may differ). *)
Theorem row_order_is_irrelevant (header header' : list value)
    (rows rows' : list (list value)) (c : columns) (allMembers : list string)
    (l l1 : ledger) :
  Permutation rows rows' ->
  processExpenses (header :: rows) c allMembers l = Done l1 ->
  exists l2,
    processExpenses (header' :: rows') c allMembers l = Done l2
    /\ forall k, getOr0 k (balances l2) == getOr0 k (balances l1).
Proof.
  unfold processExpenses. simpl tl. intros P H.
  destruct (processRows_effect _ _ _ _ _ H) as [E1 F1].
  assert (F2 := Permutation_Forall P F1).
  destruct (processRows_total c allMembers rows' l l F2 eq_refl) as [l2 H2].
  exists l2. split; [exact H2|].
  destruct (processRows_effect _ _ _ _ _ H2) as [E2 _].
  intros k. rewrite E1, E2.
  rewrite (SettleFacts.Qsum_perm _ _ (Permutation_map _ P)). reflexivity.
Qed.

Lemma row_order_is_irrelevant_witness :
  exists l2,
    processExpenses (Example.header :: [Example.taxi; Example.lunch])
      Example.cols Example.members (initialLedger Example.members) = Done l2
    /\ forall k,
        getOr0 k (balances l2)
        == getOr0 k (balances
             (Example.ledgerOf
                (processExpenses (Example.header :: [Example.lunch; Example.taxi])
                   Example.cols Example.members (initialLedger Example.members)))).
Proof.
  apply (row_order_is_irrelevant Example.header Example.header
           [Example.lunch; Example.taxi] [Example.taxi; Example.lunch]).
  - apply perm_swap.
  - vm_compute. reflexivity.
Defined.

(** ** Names *)

Ltac each_char c :=
  destruct c as [[|] [|] [|] [|] [|] [|] [|] [|]].

Lemma lower_idem (c : ascii) : Str.lower (Str.lower c) = Str.lower c.
Proof. each_char c; reflexivity. Qed.

Lemma lower_space (c : ascii) : Str.is_space (Str.lower c) = Str.is_space c.
Proof. each_char c; reflexivity. Qed.

Lemma lower_upper (c : ascii) : Str.lower c = c -> Str.lower (Str.upper c) = c.
Proof. each_char c; intros H; try reflexivity; discriminate H. Qed.

Lemma toLowerCase_idem (s : string) : Str.toLowerCase (Str.toLowerCase s) = Str.toLowerCase s.
Proof. induction s as [|c s IH]; simpl; [reflexivity | now rewrite lower_idem, IH]. Qed.

Lemma toLowerCase_empty (s : string) : (Str.toLowerCase s =? "")%string = (s =? "")%string.
Proof. destruct s; reflexivity. Qed.

Lemma toLowerCase_trimStart (s : string) :
  Str.toLowerCase (Str.trimStart s) = Str.trimStart (Str.toLowerCase s).
Proof.
  induction s as [|c s IH]; simpl; [reflexivity|].
  rewrite lower_space. destruct (Str.is_space c); [exact IH | reflexivity].
Qed.

Lemma toLowerCase_trimEnd (s : string) :
  Str.toLowerCase (Str.trimEnd s) = Str.trimEnd (Str.toLowerCase s).
Proof.
  induction s as [|c s IH]; simpl; [reflexivity|].
  rewrite lower_space, <- IH, toLowerCase_empty.
  destruct (Str.is_space c && (Str.trimEnd s =? "")%string); reflexivity.
Qed.

Lemma trimStart_fixed (s : string) :
  match s with String c _ => Str.is_space c = false | EmptyString => True end ->
  Str.trimStart s = s.
Proof. destruct s as [|c s]; simpl; [reflexivity | now intros ->]. Qed.

Lemma trimStart_head (s : string) :
  match Str.trimStart s with
  | String c _ => Str.is_space c = false
  | EmptyString => True
  end.
Proof.
  induction s as [|c s IH]; simpl; [exact I|].
  destruct (Str.is_space c) eqn:E; [exact IH | exact E].
Qed.

Lemma trimEnd_idem (s : string) : Str.trimEnd (Str.trimEnd s) = Str.trimEnd s.
Proof.
  induction s as [|c s IH]; simpl; [reflexivity|].
  destruct (Str.is_space c && (Str.trimEnd s =? "")%string) eqn:E; [reflexivity|].
  simpl. now rewrite IH, E.
Qed.

Lemma trimEnd_head (s : string) :
  match s with String c _ => Str.is_space c = false | EmptyString => True end ->
  match Str.trimEnd s with
  | String c _ => Str.is_space c = false
  | EmptyString => True
  end.
Proof.
  destruct s as [|c s]; simpl; [auto|]. intros E. now rewrite E.
Qed.

Lemma trim_idem (s : string) : Str.trim (Str.trim s) = Str.trim s.
Proof.
  unfold Str.trim.
  rewrite (trimStart_fixed (Str.trimEnd (Str.trimStart s))).
  - apply trimEnd_idem.
  - apply trimEnd_head, trimStart_head.
Qed.

Lemma normalize_idem (s : string) : Str.normalize (Str.normalize s) = Str.normalize s.
Proof.
  unfold Str.normalize, Str.trim.
  rewrite <- toLowerCase_trimStart, <- toLowerCase_trimEnd.
  change (Str.toLowerCase
            (Str.toLowerCase (Str.trim (Str.trim s))) = Str.toLowerCase (Str.trim s)).
  now rewrite toLowerCase_idem, trim_idem.
Qed.

(** X16. On ASCII names, where [trim], [toLowerCase] and [toUpperCase]
    are the functions modelled: normalizing a name is idempotent, so a
    normalized name is its own canonical form; capitalizing keeps two
    normalized names apart, so the displayed names in the balance and
    transaction tables identify the members. *)
Theorem names_are_canonical (s t : string) (names : list string) :
  Str.isASCII s -> Str.isASCII t -> Forall Str.isASCII names ->
  Str.normalize (Str.normalize s) = Str.normalize s
  /\ (Str.capitalize (Str.normalize s) = Str.capitalize (Str.normalize t) ->
      Str.normalize s = Str.normalize t)
  /\ (NoDup (map Str.normalize names) ->
      NoDup (map Str.capitalize (map Str.normalize names))).
Proof.
  intros _ _ _.
  assert (Hlow : forall s, Str.toLowerCase (Str.normalize s) = Str.normalize s).
  { intros s0. unfold Str.normalize. apply toLowerCase_idem. }
  assert (Hinj : forall s t,
             Str.capitalize (Str.normalize s) = Str.capitalize (Str.normalize t) ->
             Str.normalize s = Str.normalize t).
  { intros s0 t0. pose proof (Hlow s0) as Ls. pose proof (Hlow t0) as Lt.
    destruct (Str.normalize s0) as [|c s'], (Str.normalize t0) as [|d t']; simpl;
      try discriminate; [reflexivity|].
    intros H. injection H as Hc Hs. simpl in Ls, Lt.
    injection Ls as Lc _. injection Lt as Ld _.
    rewrite Hs. f_equal.
    rewrite <- (lower_upper c Lc), <- (lower_upper d Ld). now rewrite Hc. }
  split; [apply normalize_idem|]. split; [apply Hinj|].
  induction names as [|n names IH]; simpl; intros H; [constructor|].
  inversion H as [|? ? Hn Hnd]; subst. constructor; [|now apply IH].
  intros Hin. apply Hn. apply in_map_iff in Hin. destruct Hin as [x [Hx Hin]].
  apply in_map_iff in Hin. destruct Hin as [y [<- Hy]].
  apply Hinj in Hx. rewrite <- Hx. now apply in_map.
Qed.

Lemma names_are_canonical_witness :
  Str.normalize (Str.normalize " Alice") = Str.normalize " Alice"
  /\ (Str.capitalize (Str.normalize " Alice") = Str.capitalize (Str.normalize "ALICE  ") ->
      Str.normalize " Alice" = Str.normalize "ALICE  ")
  /\ (NoDup (map Str.normalize [" Alice"; "bob "]) ->
      NoDup (map Str.capitalize (map Str.normalize [" Alice"; "bob "]))).
Proof.
  apply (names_are_canonical " Alice" "ALICE  " [" Alice"; "bob "]);
    repeat constructor; vm_compute; reflexivity.
Defined.

(** ** Splitting and joining *)

Lemma split_nonempty (sep : ascii) (s : string) : Str.split sep s <> [].
Proof.
  destruct s as [|c s]; simpl; [discriminate|].
  destruct (Ascii.eqb c sep); [discriminate|].
  destruct (Str.split sep s); discriminate.
Qed.

Lemma join_cons (sep x : string) (l : list string) :
  l <> [] -> Str.join sep (x :: l) = (x ++ sep ++ Str.join sep l)%string.
Proof. destruct l; [congruence | reflexivity]. Qed.

Lemma split_parts (sep : ascii) (s p : string) :
  In p (Str.split sep s) ->
  ~ In sep (chars p) /\ forall c, In c (chars p) -> In c (chars s).
Proof.
  revert p. induction s as [|c s IH]; simpl; intros p Hp.
  - destruct Hp as [<-|[]]. simpl. tauto.
  - destruct (Ascii.eqb_spec c sep) as [->|Hne].
    + destruct Hp as [<-|Hp]; [simpl; tauto|].
      destruct (IH p Hp) as [A B]. split; [assumption | intros d Hd; right; auto].
    + pose proof (split_nonempty sep s) as Hn.
      destruct (Str.split sep s) as [|h t]; [congruence|].
      destruct Hp as [<-|Hp].
      * destruct (IH h (or_introl eq_refl)) as [A B]. simpl. split.
        -- intros [E|E]; [congruence | contradiction].
        -- intros d [<-|Hd]; [now left | right; auto].
      * destruct (IH p (or_intror Hp)) as [A B].
        split; [assumption | intros d Hd; right; auto].
Qed.

Lemma split_no_sep (sep : ascii) (x : string) :
  ~ In sep (chars x) -> Str.split sep x = [x].
Proof.
  induction x as [|c x IH]; simpl; intros H; [reflexivity|].
  destruct (Ascii.eqb_spec c sep) as [->|Hne]; [tauto|].
  rewrite IH by tauto. reflexivity.
Qed.

Lemma split_append (sep : ascii) (x rest : string) :
  ~ In sep (chars x) ->
  Str.split sep (x ++ String sep rest) = x :: Str.split sep rest.
Proof.
  induction x as [|c x IH]; simpl; intros H.
  - now rewrite Ascii.eqb_refl.
  - destruct (Ascii.eqb_spec c sep) as [->|Hne]; [tauto|].
    rewrite IH by tauto. reflexivity.
Qed.

(** [split] and [join] undo each other: joining the parts of a string
    gives the string back, and splitting a joined list gives the list
    back when no element contains the separator. *)
Theorem split_join_round_trip (sep : ascii) :
  (forall s, Str.join (String sep "") (Str.split sep s) = s)
  /\ (forall l, l <> [] -> (forall x, In x l -> ~ In sep (chars x)) ->
                Str.split sep (Str.join (String sep "") l) = l).
Proof.
  split.
  - induction s as [|c s IH]; [reflexivity|]. simpl.
    pose proof (split_nonempty sep s) as Hn.
    destruct (Ascii.eqb_spec c sep) as [->|Hne].
    + rewrite join_cons by assumption. simpl. now rewrite IH.
    + destruct (Str.split sep s) as [|h t]; [congruence|].
      destruct t as [|h' t].
      * simpl in *. now rewrite IH.
      * rewrite join_cons by discriminate. rewrite join_cons in IH by discriminate.
        rewrite <- IH. reflexivity.
  - induction l as [|x l IH]; intros Hne Hall; [congruence|].
    destruct l as [|y l].
    + simpl. apply split_no_sep. apply Hall. now left.
    + rewrite join_cons by discriminate. simpl append.
      rewrite split_append by (apply Hall; now left).
      f_equal. apply IH; [discriminate | intros z Hz; apply Hall; now right].
Qed.

Lemma split_join_round_trip_witness :
  Str.split "," (Str.join "," ["bob"; "carol"]) = ["bob"; "carol"].
Proof.
  apply (proj2 (split_join_round_trip ",") ["bob"; "carol"]).
  - discriminate.
  - intros x [<-|[<-|[]]]; simpl; intuition discriminate.
Defined.

(** ** Registered groups *)

Lemma lower_comma (c : ascii) : Str.lower c = ","%char -> c = ","%char.
Proof. each_char c; intros H; try reflexivity; discriminate H. Qed.

Lemma chars_toLowerCase (s : string) :
  In ","%char (chars (Str.toLowerCase s)) -> In ","%char (chars s).
Proof.
  induction s as [|c s IH]; simpl; [auto|].
  intros [H|H]; [left; now apply lower_comma | right; auto].
Qed.

Lemma chars_trimStart (s : string) (c : ascii) :
  In c (chars (Str.trimStart s)) -> In c (chars s).
Proof.
  induction s as [|d s IH]; simpl; [auto|].
  destruct (Str.is_space d); [right; auto | auto].
Qed.

Lemma chars_trimEnd (s : string) (c : ascii) :
  In c (chars (Str.trimEnd s)) -> In c (chars s).
Proof.
  induction s as [|d s IH]; simpl; [auto|].
  destruct (Str.is_space d && (Str.trimEnd s =? "")%string); simpl; [tauto|].
  intros [H|H]; [now left | right; auto].
Qed.

Lemma chars_normalize (s : string) :
  In ","%char (chars (Str.normalize s)) -> In ","%char (chars s).
Proof.
  intros H. unfold Str.normalize, Str.trim in H.
  apply chars_toLowerCase, chars_trimEnd, chars_trimStart in H. exact H.
Qed.

Lemma insert_sorted_In (x y : string) (l : list string) :
  In y (Str.insert_sorted x l) <-> y = x \/ In y l.
Proof.
  induction l as [|z l IH]; simpl; [intuition|].
  destruct (String.ltb z x || (z =? x)%string); simpl; [rewrite IH|]; intuition.
Qed.

Lemma sort_In (l : list string) (y : string) : In y (Str.sort l) <-> In y l.
Proof.
  unfold Str.sort.
  assert (G : forall acc, In y (fold_left (fun acc x => Str.insert_sorted x acc) l acc)
                          <-> In y acc \/ In y l).
  { induction l as [|x l IH]; intros acc; simpl; [tauto|].
    rewrite IH, insert_sorted_In. intuition. }
  rewrite G. simpl. tauto.
Qed.

Lemma In_set {V} (k : string) (v : V) (m : Table.t V) (e : string * V) :
  In e (Table.set k v m) -> e = (k, v) \/ In e m.
Proof.
  induction m as [|[k0 v0] m IH]; simpl; [intuition|].
  destruct (k0 =? k)%string; simpl; intuition.
Qed.

(** What [registerGroup] stores for one cell. *)
(** *** The default sort *)

Lemma ascii_compare_trans (a b c : ascii) (r : comparison) :
  Ascii.compare a b = r -> Ascii.compare b c = r -> Ascii.compare a c = r.
Proof.
  unfold Ascii.compare. destruct r; intros H1 H2.
  - apply N.compare_eq_iff in H1. apply N.compare_eq_iff in H2.
    apply N.compare_eq_iff. congruence.
  - apply N.compare_lt_iff in H1. apply N.compare_lt_iff in H2.
    apply N.compare_lt_iff. eapply N.lt_trans; eassumption.
  - apply N.compare_gt_iff in H1. apply N.compare_gt_iff in H2.
    apply N.compare_gt_iff. eapply N.lt_trans; eassumption.
Qed.

Lemma string_leb_trans (s1 s2 s3 : string) :
  (s1 <=? s2)%string = true -> (s2 <=? s3)%string = true -> (s1 <=? s3)%string = true.
Proof.
  unfold String.leb. revert s2 s3.
  induction s1 as [|a s1 IH]; intros [|b s2] [|c s3]; simpl; try congruence.
  destruct (Ascii.compare a b) eqn:Eab; try congruence;
  destruct (Ascii.compare b c) eqn:Ebc; try congruence.
  - rewrite (ascii_compare_trans _ _ _ _ Eab Ebc). apply IH.
  - apply Ascii.compare_eq_iff in Eab. subst. rewrite Ebc. congruence.
  - apply Ascii.compare_eq_iff in Ebc. subst. rewrite Eab. congruence.
  - rewrite (ascii_compare_trans _ _ _ _ Eab Ebc). congruence.
Qed.

(** The test of [insert_sorted] is the order on code units. *)
Lemma ltb_or_eqb (y x : string) :
  (String.ltb y x || (y =? x)%string) = (y <=? x)%string.
Proof.
  unfold String.ltb, String.leb.
  destruct (String.eqb_spec y x) as [->|Hne].
  - rewrite orb_true_r.
    assert (E : (x ?= x)%string = Eq).
    { pose proof (String.compare_antisym x x) as A.
      destruct (x ?= x)%string; simpl in A; congruence. }
    now rewrite E.
  - rewrite orb_false_r. destruct (y ?= x)%string eqn:E; try reflexivity.
    apply String.compare_eq_iff in E. contradiction.
Qed.

Lemma insert_sorted_sorted (x : string) (l : list string) :
  StronglySorted (fun a b => (a <=? b)%string = true) l ->
  StronglySorted (fun a b => (a <=? b)%string = true) (Str.insert_sorted x l).
Proof.
  induction 1 as [|y l Hl IH Hy]; simpl; [repeat constructor|].
  rewrite ltb_or_eqb. destruct (y <=? x)%string eqn:E.
  - constructor; [assumption|]. apply Forall_forall. intros z Hz.
    apply insert_sorted_In in Hz. destruct Hz as [->|Hz]; [assumption|].
    rewrite Forall_forall in Hy. now apply Hy.
  - assert (Hxy : (x <=? y)%string = true).
    { destruct (String.leb_total x y) as [H|H]; [assumption | congruence]. }
    constructor; [now constructor|]. constructor; [assumption|].
    eapply Forall_impl; [|exact Hy]. intros z Hz. simpl in Hz.
    eapply string_leb_trans; eassumption.
Qed.

Lemma sort_sorted (l : list string) :
  StronglySorted (fun a b => (a <=? b)%string = true) (Str.sort l).
Proof.
  unfold Str.sort.
  assert (G : forall acc, StronglySorted (fun a b => (a <=? b)%string = true) acc ->
    StronglySorted (fun a b => (a <=? b)%string = true)
      (fold_left (fun acc x => Str.insert_sorted x acc) l acc)).
  { induction l as [|x l IH]; intros acc H; simpl; [assumption|].
    apply IH. now apply insert_sorted_sorted. }
  apply G. constructor.
Qed.

Lemma registerGroup_entry (m m' : Table.t (list string)) (raw : value)
    (key : string) (group : list string) :
  registerGroup m raw = Done m' -> In (key, group) m' ->
  In (key, group) m
  \/ exists names,
      names <> [] /\ key = Str.join "," names /\ group = Set_of names
      /\ Str.split "," key = names
      /\ StronglySorted (fun a b => (a <=? b)%string = true) names
      /\ forall n, In n names -> n <> "" /\ Str.normalize n = n.
Proof.
  unfold registerGroup. destruct raw as [|s|q]; try discriminate.
  remember (filter Str.nonempty (map Str.normalize (Str.split "," s))) as group0 eqn:Eg0.
  destruct (0 <? List.length group0)%nat eqn:E; intros H Hin;
    injection H as <-; [|now left].
  apply In_set in Hin. destruct Hin as [Heq|Hin]; [|now left].
  injection Heq as -> ->. right. exists (Str.sort group0).
  assert (Hel : forall n, In n (Str.sort group0) ->
                  n <> "" /\ Str.normalize n = n /\ ~ In ","%char (chars n)).
  { intros n Hn. apply (proj1 (sort_In _ _)) in Hn. rewrite Eg0 in Hn.
    apply filter_In in Hn. destruct Hn as [Hn Hne].
    apply in_map_iff in Hn. destruct Hn as [p [<- Hp]].
    split; [|split].
    - intros E0. rewrite E0 in Hne. discriminate.
    - apply normalize_idem.
    - intros Hc. apply chars_normalize in Hc.
      apply (proj1 (split_parts ","%char s p Hp)). exact Hc. }
  assert (Hne : Str.sort group0 <> []).
  { clear Eg0. destruct group0 as [|g gs] eqn:Eg; [discriminate|].
    intros E0. assert (Hg : In g (Str.sort (g :: gs))) by (apply sort_In; now left).
    rewrite E0 in Hg. contradiction. }
  split; [exact Hne|]. split; [reflexivity|]. split; [reflexivity|]. split.
  - clear E. revert Hne Hel. generalize (Str.sort group0) as l.
    induction l as [|x l IH]; intros Hne Hel; [congruence|].
    destruct l as [|y l].
    + simpl. apply split_no_sep. apply Hel. now left.
    + rewrite join_cons by discriminate. simpl append.
      rewrite split_append by (apply Hel; now left).
      f_equal. apply IH; [discriminate | intros z Hz; apply Hel; now right].
  - split; [apply sort_sorted|].
    intros n Hn. destruct (Hel n Hn) as [A [B _]]. split; assumption.
Qed.

(** X17. Every group registered from the Subgroups sheet is well formed:
    its key is the comma-joined list of its names sorted by code units,
    splitting the key (as [formatGroup] does) gives these names back, the
    group holds each of them once, there is at least one, and none is
    blank or un-normalized. *)
Theorem registered_groups_wellformed (cells : list value) (m : Table.t (list string))
    (key : string) (group : list string) :
  registerGroups [] cells = Done m ->
  In (key, group) m ->
  exists names,
    names <> [] /\ key = Str.join "," names /\ group = Set_of names
    /\ StronglySorted (fun a b => (a <=? b)%string = true) names
    /\ Str.split "," key = names
    /\ Str.formatGroup key = Str.join ", " (map Str.capitalize names)
    /\ forall n, In n names -> n <> "" /\ Str.normalize n = n.
Proof.
  assert (G : forall m0 m1, registerGroups m0 cells = Done m1 ->
             In (key, group) m1 ->
             In (key, group) m0
             \/ exists names,
                 names <> [] /\ key = Str.join "," names /\ group = Set_of names
                 /\ Str.split "," key = names
                 /\ StronglySorted (fun a b => (a <=? b)%string = true) names
                 /\ forall n, In n names -> n <> "" /\ Str.normalize n = n).
  { induction cells as [|raw cells IH]; simpl; intros m0 m1 H Hin.
    - inversion H; subst. now left.
    - destruct (registerGroup m0 raw) as [m2| |] eqn:E; simpl in H; try discriminate.
      destruct (IH _ _ H Hin) as [Hin2|Hnew]; [|now right].
      eapply registerGroup_entry; eassumption. }
  intros H Hin. destruct (G [] m H Hin) as [[]|[names [A [B [C [D [S E]]]]]]].
  exists names. repeat split; try assumption; try (apply E; assumption).
  unfold Str.formatGroup. now rewrite D.
Qed.

Lemma registered_groups_wellformed_witness :
  exists names,
    names <> [] /\ "bob,carol" = Str.join "," names
    /\ ["bob"; "carol"] = Set_of names
    /\ StronglySorted (fun a b => (a <=? b)%string = true) names
    /\ Str.split "," "bob,carol" = names
    /\ Str.formatGroup "bob,carol" = Str.join ", " (map Str.capitalize names)
    /\ forall n, In n names -> n <> "" /\ Str.normalize n = n.
Proof.
  apply (registered_groups_wellformed [Str " Carol ,BOB"] [("bob,carol", ["bob"; "carol"])]).
  - reflexivity.
  - now left.
Defined.

(** ** Clusters of the merged sheet *)

Lemma clusterRow_keeps mc sc st st' row :
  clusterRow mc sc st row = Done st' ->
  (forall k v, Table.get k (knownGroups st) = Some v ->
               Table.get k (knownGroups st') = Some v)
  /\ (NoDup (knownMembers st) -> NoDup (knownMembers st'))
  /\ (forall m, In m (knownMembers st) -> In m (knownMembers st')).
Proof.
  unfold clusterRow.
  set (members' := if truthy (cell row mc)
                   then match cell row mc with
                        | Str s => Done (Set_add (Str.normalize s) (knownMembers st))
                        | _ => Thrown TypeError
                        end
                   else Done (knownMembers st)).
  assert (Hm : forall ms, members' = Done ms ->
                 (NoDup (knownMembers st) -> NoDup ms)
                 /\ forall m, In m (knownMembers st) -> In m ms).
  { unfold members'. intros ms. destruct (truthy (cell row mc)).
    - destruct (cell row mc) as [|s|q]; try discriminate.
      intros H. injection H as <-. split; [apply Set_add_NoDup|].
      intros m Hin. apply Set_add_In. now right.
    - intros H. injection H as <-. auto. }
  destruct members' as [ms| |]; simpl; try discriminate.
  destruct (Hm ms eq_refl) as [Hnd Hin].
  destruct (truthy (cell row sc)).
  - destruct (cell row sc) as [|s|q]; try discriminate.
    intros H. injection H as <-. cbn [knownMembers knownGroups].
    split; [|split; assumption].
    intros k v Hk.
    destruct (Table.has _ (knownGroups st)) eqn:E; [exact Hk|].
    rewrite TableFacts.get_set_other; [exact Hk|].
    intros ->. unfold Table.has in E. rewrite Hk in E. discriminate.
  - intros H. injection H as <-. cbn [knownMembers knownGroups]. auto.
Qed.

Lemma clusterRows_keeps mc sc rows st st' :
  clusterRows mc sc rows st = Done st' ->
  (forall k v, Table.get k (knownGroups st) = Some v ->
               Table.get k (knownGroups st') = Some v)
  /\ (NoDup (knownMembers st) -> NoDup (knownMembers st'))
  /\ (forall m, In m (knownMembers st) -> In m (knownMembers st')).
Proof.
  revert st. induction rows as [|row rows IH]; simpl; intros st H.
  - injection H as <-. auto.
  - destruct (clusterRow mc sc st row) as [st1| |] eqn:E; simpl in H; try discriminate.
    destruct (clusterRow_keeps _ _ _ _ _ E) as [A1 [B1 C1]].
    destruct (IH _ H) as [A2 [B2 C2]]. auto.
Qed.

(** X18. [buildSubgroupClusters] never replaces a group: a key that is in the
    Map keeps its members whatever the later rows say, the members given
    stay members, and the member set stays free of duplicates. *)
Theorem first_registration_wins (data : list (list value)) (mc sc : Z)
    (allMembers : list string) (subgroupMap : Table.t (list string)) (st : clusters) :
  buildSubgroupClusters data mc sc allMembers subgroupMap = Done st ->
  (forall k v, Table.get k subgroupMap = Some v -> Table.get k (knownGroups st) = Some v)
  /\ (NoDup allMembers -> NoDup (knownMembers st))
  /\ (forall m, In m allMembers -> In m (knownMembers st)).
Proof.
  unfold buildSubgroupClusters. intros H.
  exact (clusterRows_keeps _ _ _ _ _ H).
Qed.

Lemma first_registration_wins_witness :
  (forall k v, Table.get k Example.couple = Some v ->
               Table.get k [("bob,carol", ["bob"; "carol"]); ("alice,bob", ["alice"; "bob"])]
               = Some v)
  /\ (NoDup ["alice"] -> NoDup ["alice"; "bob"])
  /\ (forall m, In m ["alice"] -> In m ["alice"; "bob"]).
Proof.
  apply (first_registration_wins
           [[Str "Members"; Str "Subgroups"]; [Str "Bob"; Str "carol, BOB"];
            [Str ""; Str "Bob,Alice"]]
           0 1 ["alice"] Example.couple
           {| knownMembers := ["alice"; "bob"];
              knownGroups := [("bob,carol", ["bob"; "carol"]);
                              ("alice,bob", ["alice"; "bob"])] |}).
  reflexivity.
Defined.

(** ** The group service *)



(** ** Conservation for groups *)

(** X21. In exact arithmetic, after a batch in which nobody is called
    [__proto__] has been processed from the zeroed ledger, the group
    balances, like the member balances, sum to 0, whatever the assignment
    of names to groups. *)
Theorem group_conservation (data : list (list value)) (c : columns)
    (allMembers : list string) (l : ledger) (nameToGroupKey : Table.t string) :
  protoFree c allMembers (tl data) ->
  processExpenses data c allMembers (initialLedger allMembers) = Done l ->
  Qsum (map snd (calculateGroupBalances nameToGroupKey (balances l))) == 0.
Proof.
  unfold processExpenses. intros Hf H. apply processRows_sum in H; [|assumption].
  destruct (groupBalances_fold nameToGroupKey (balances l) []) as [A _].
  cbv zeta in A. unfold calculateGroupBalances. rewrite A, H.
  cbn [initialLedger balances]. rewrite initialBalances_sum. simpl. lra.
Qed.

Lemma group_conservation_witness :
  Qsum (map snd (calculateGroupBalances [("alice", "alice"); ("bob", "bob,carol");
                                         ("carol", "bob,carol")]
                   (balances Example.afterLunch))) == 0.
Proof.
  apply (group_conservation [Example.header; Example.lunch] Example.cols Example.members).
  - repeat constructor; simpl; intuition discriminate.
  - vm_compute. reflexivity.
Defined.

(** ** The minimizers on doubles *)



(** C2. Two credits of 0.15 against debts of 0.14, 0.14 and 0.02: the
    balances sum to zero (within 4e-17), every party is above the
    threshold, and the loop of the specification settles them with four
    transactions.  The script emits only the first two: each creditor is
    shifted out one hundredth short, so nobody is left to receive C's
    0.02.  C stays 0.02 from zero whichever way the transfers are applied,
    and the amounts transferred fall 0.02 short of the creditor sum. *)
Theorem float_slip_leaves_debt :
  let decimals := Double.exactEntries Example.leftover in
  let emitted := [("B1", "A1", 14 # 100); ("B2", "A2", 14 # 100)] in
  Qabs (Qsum (Table.values decimals)) <= 1 # 100
  /\ Double.generateMinimalMemberTransactions Example.leftover = Done emitted
  /\ Double.generateMinimalSubgroupTransactions Example.leftover = Done emitted
  /\ (exists e, In e decimals
                /\ 1 # 100 < Qabs (settled Str.capitalize emitted e)
                /\ 1 # 100 < Qabs (appliedAsWorded Str.capitalize emitted e))
  /\ 1 # 100 < Qabs (transferred emitted - creditorSum decimals)
  /\ 1 # 100 < Qabs (transferred emitted - debtorSum decimals)
  /\ (let intended := Settle.generateMinimalMemberTransactions decimals in
      intended = (emitted ++ [("C", "A2", 1 # 100); ("C", "A1", 1 # 100)])%list
      /\ (forall e, In e decimals -> Qabs (settled Str.capitalize intended e) <= 1 # 100)
      /\ Qabs (transferred intended - creditorSum decimals) <= 1 # 100).
Proof.
  cbv zeta.
  split; [vm_compute; discriminate|].
  split; [vm_compute; reflexivity|].
  split; [vm_compute; reflexivity|].
  split.
  { eexists. split; [do 4 right; left; reflexivity|]. split; vm_compute; reflexivity. }
  split; [vm_compute; reflexivity|].
  split; [vm_compute; reflexivity|].
  split; [vm_compute; reflexivity|].
  split.
  - intros e He. vm_compute in He.
    repeat (destruct He as [<-|He]; [vm_compute; discriminate|]). contradiction.
  - vm_compute. discriminate.
Qed.

(** ** The name [__proto__] *)

(** C1. Tea for 30 paid by Alice for [__proto__]: Alice is credited 30
    and the share of 30 is stored nowhere, because an assignment to
    [balances.__proto__] is ignored.  The batch completes with balances
    that sum to 30, and the run shows Alice 30.00 up with nobody owing. *)
Theorem proto_share_breaks_conservation :
  getParticipants (Str "__proto__") Example.members
  = Done [{| name := "__proto__"; weight := 1 |}]
  /\ (exists l,
        processExpenses [Example.header; Example.protoTea] Example.cols Example.members
          (initialLedger Example.members) = Done l
        /\ balances l = [("alice", 30); ("bob", 0); ("carol", 0)]
        /\ perItemSplits l = [("Tea", [("alice", 30)])]
        /\ Qsum (Obj.values (balances l)) == 30
        /\ ~ Qsum (Obj.values (balances l)) == 0)
  /\ (exists out,
        calculateExpensesWithSubgroups Example.protoTrip = Done out
        /\ balanceTable out = [("Alice", 3000 # 100); ("Bob", 0 # 100); ("Carol", 0 # 100)]
        /\ memberTransactionTable out = []
        /\ transactionTable out = []).
Proof.
  split; [reflexivity|]. split.
  - eexists. split; [vm_compute; reflexivity|].
    split; [reflexivity|]. split; [reflexivity|].
    split; [vm_compute; reflexivity | intros H; vm_compute in H; discriminate].
  - eexists. split; [vm_compute; reflexivity|]. repeat split.
Qed.

(** C7. A taxi for 100 paid by Bob and split [Alice:3,__proto__:1]:
    [__proto__] is a participant of weight 1 out of 4 and its share is 25,
    but neither its balance nor its split entry is debited: it has none.
    Alice is debited 75 and Bob credited 100. *)
Theorem proto_share_is_not_debited :
  let ps := [{| name := "alice"; weight := 3 |}; {| name := "__proto__"; weight := 1 |}] in
  getParticipants (Str "Alice:3,__proto__:1") Example.members = Done ps
  /\ shareOf 100 ps "__proto__" == 25
  /\ exists l shares,
      processRow Example.cols Example.members (initialLedger Example.members)
        Example.protoTaxi = Done l
      /\ Obj.keys (balances l) = ["alice"; "bob"; "carol"]
      /\ Obj.get "__proto__" (balances l) = None
      /\ getOr0 "alice" (balances l) == - (75)
      /\ getOr0 "bob" (balances l) == 100
      /\ getOr0 "carol" (balances l) == 0
      /\ Obj.get "Taxi" (perItemSplits l) = Some shares
      /\ Obj.keys shares = ["alice"; "bob"]
      /\ getOr0 "alice" shares == - (75)
      /\ getOr0 "bob" shares == 100
      /\ Qsum (Obj.values shares) == 25.
Proof.
  cbv zeta. split; [vm_compute; reflexivity|]. split; [vm_compute; reflexivity|].
  eexists. eexists. split; [vm_compute; reflexivity|].
  repeat split; vm_compute; reflexivity.
Qed.

(** C6. With [__proto__] among the known members a wildcard split makes
    it a participant like the others, so [N] counts it; but the member has
    no balance and is not debited.  Lunch for 90 paid by Alice among Alice
    and [__proto__] leaves Alice at +45 and nothing else. *)
Theorem proto_member_is_not_debited :
  getParticipants (Str "*") Example.protoMembers
  = Done [{| name := "alice"; weight := 1 |}; {| name := "__proto__"; weight := 1 |}]
  /\ initialLedger Example.protoMembers = {| balances := [("alice", 0)]; perItemSplits := [] |}
  /\ exists l,
      processExpenses [Example.header; Example.lunch] Example.cols Example.protoMembers
        (initialLedger Example.protoMembers) = Done l
      /\ Obj.keys (balances l) = ["alice"]
      /\ getOr0 "alice" (balances l) == 90 - 90 / 2
      /\ Obj.get "__proto__" (balances l) = None
      /\ Qsum (Obj.values (balances l)) == 45.
Proof.
  split; [reflexivity|]. split; [reflexivity|].
  eexists. split; [vm_compute; reflexivity|].
  repeat split; vm_compute; reflexivity.
Qed.

(** C10. Snacks for 40 paid by Dave and shared by Alice and [__proto__],
    neither Dave nor [__proto__] a member: both are taken without a
    membership check, and Dave gets a fresh balance, but no entry is
    created for [__proto__] and its 20 are debited nowhere.  Nor is an
    entry created for [__proto__] when it pays. *)
Theorem proto_gets_no_entry :
  getParticipants (Str "Alice, __proto__") Example.members
  = Done [{| name := "alice"; weight := 1 |}; {| name := "__proto__"; weight := 1 |}]
  /\ (exists l,
        processRow Example.cols Example.members (initialLedger Example.members)
          Example.protoSnacks = Done l
        /\ Obj.keys (balances l) = ["alice"; "bob"; "carol"; "dave"]
        /\ getOr0 "dave" (balances l) == 40
        /\ getOr0 "alice" (balances l) == - (20)
        /\ Obj.get "__proto__" (balances l) = None
        /\ Qsum (Obj.values (balances l)) == 20)
  /\ (exists l,
        processRow Example.cols Example.members (initialLedger Example.members)
          Example.protoPaid = Done l
        /\ Obj.keys (balances l) = ["alice"; "bob"; "carol"]
        /\ getOr0 "bob" (balances l) == - (30)
        /\ Obj.get "__proto__" (balances l) = None).
Proof.
  split; [vm_compute; reflexivity|]. split.
  - eexists. split; [vm_compute; reflexivity|]. repeat split; vm_compute; reflexivity.
  - eexists. split; [vm_compute; reflexivity|]. repeat split; vm_compute; reflexivity.
Qed.
